(** * kube-fledged image manager: the asynchronous image-work engine

    Shallow embedding of [pkg/images/image_manager.go].  The work status
    table [m.imageworkstatus] is a [gmap]; every operation of the image
    manager is a computation that threads the table, may end in a Go run-time
    panic, and writes down the operations it performs on its collaborators
    (the lock, the pod lister, the cluster client, the two work queues and the
    completion channel) in the order it performs them. *)

From stdpp Require Import gmap strings list fin_maps.

Open Scope string_scope.

(** ** Data model *)

(** Go [error] values are identified with their message; [option error] is an
    [error] that may be [nil]. *)
Abbreviation error := string (only parsing).

(** [corev1.PodPhase] is a string type. *)
Abbreviation PodPhase := string (only parsing).
Definition PodPending : PodPhase := "Pending".
Definition PodRunning : PodPhase := "Running".
Definition PodSucceeded : PodPhase := "Succeeded".
Definition PodFailed : PodPhase := "Failed".

Record ContainerStateWaiting := {
  waiting_Reason : string;
  waiting_Message : string
}.

Record ContainerStateTerminated := {
  terminated_Reason : string;
  terminated_Message : string
}.

(** The three members of [corev1.ContainerState] are pointers; the image
    manager reads two of them. *)
Record ContainerState := {
  Waiting : option ContainerStateWaiting;
  Terminated : option ContainerStateTerminated
}.

Record ContainerStatus := { State : ContainerState }.

Record PodStatus := {
  Phase : PodPhase;
  ContainerStatuses : list ContainerStatus
}.

Record Pod := {
  pod_Name : string;
  pod_ResourceVersion : string;
  pod_Labels : gmap string string;
  pod_Status : PodStatus
}.

Record Node := { node_Labels : gmap string string }.

(** [corev1.Event], of which only the message is read. *)
Record K8sEvent := { event_Message : string }.

Record Job := { job_Name : string }.

Record ImageCache := {
  ic_Namespace : string;
  ic_Name : string
}.

(** [WorkType] is a string type. *)
Abbreviation WorkType := string (only parsing).
Definition ImageCacheCreate : WorkType := "create".
Definition ImageCacheUpdate : WorkType := "update".
Definition ImageCacheDelete : WorkType := "delete".
Definition ImageCacheStatusUpdate : WorkType := "statusupdate".
Definition ImageCacheRefresh : WorkType := "refresh".
Definition ImageCachePurge : WorkType := "purge".

Definition controllerAgentName : string := "fledged".
Definition fakeJobPrefix : string := "fakejob-".

Definition ImageWorkResultStatusSucceeded : string := "succeeded".
Definition ImageWorkResultStatusFailed : string := "failed".
Definition ImageWorkResultStatusJobCreated : string := "jobcreated".
Definition ImageWorkResultStatusAlreadyPulled : string := "alreadypulled".

(** [Node] and [Imagecache] are pointers and may be [nil]. *)
Record ImageWorkRequest := {
  iwr_Image : string;
  iwr_Node : option Node;
  iwr_ContainerRuntimeVersion : string;
  iwr_WorkType : WorkType;
  iwr_Imagecache : option ImageCache
}.

Record ImageWorkResult := {
  iwres_ImageWorkRequest : ImageWorkRequest;
  iwres_Status : string;
  iwres_Reason : string;
  iwres_Message : string
}.

(** [map[string]ImageWorkResult] *)
Abbreviation Table := (gmap string ImageWorkResult) (only parsing).

Record WorkQueueKey := {
  wqk_WorkType : WorkType;
  wqk_ObjKey : string;
  wqk_Status : option (gmap string ImageWorkResult);
  wqk_OldImageCache : option ImageCache
}.

(** What comes off [m.imageworkqueue] is an [interface{}]. *)
Inductive QueueItem :=
| ItemImageWorkRequest (iwr : ImageWorkRequest)
| ItemOther (description : string).

(** The configuration fields of [ImageManager]; the deadline is counted in
    poll intervals of one second. *)
Record ImageManager := {
  fledgedNameSpace : string;
  imagePullDeadlineDuration : nat;
  dockerClientImage : string;
  imagePullPolicy : string
}.

(** Field updates [iwres.Status = ...], [iwres.Reason = ...],
    [iwres.Message = ...]. *)
Definition setStatus (s : string) (iwres : ImageWorkResult) : ImageWorkResult :=
  {| iwres_ImageWorkRequest := iwres_ImageWorkRequest iwres;
     iwres_Status := s;
     iwres_Reason := iwres_Reason iwres;
     iwres_Message := iwres_Message iwres |}.

Definition setReason (s : string) (iwres : ImageWorkResult) : ImageWorkResult :=
  {| iwres_ImageWorkRequest := iwres_ImageWorkRequest iwres;
     iwres_Status := iwres_Status iwres;
     iwres_Reason := s;
     iwres_Message := iwres_Message iwres |}.

Definition setMessage (s : string) (iwres : ImageWorkResult) : ImageWorkResult :=
  {| iwres_ImageWorkRequest := iwres_ImageWorkRequest iwres;
     iwres_Status := iwres_Status iwres;
     iwres_Reason := iwres_Reason iwres;
     iwres_Message := s |}.

(** Reading a Go map of strings: an absent key reads as the empty string. *)
Definition label (labels : gmap string string) (key : string) : string :=
  default "" (labels !! key).

(** ** The collaborators *)

(** The operations the image manager performs on what lies outside it.
    [ImageworkqueueAddRateLimited] and [ChanRecv] belong to the interfaces
    ([workqueue.RateLimitingInterface], a Go channel) although no function
    below performs them.  [ChanSend] is the send statement [errCh <- err]
    being reached; the channel is unbuffered, so the statement completes only
    against a receive. *)
Inductive Effect :=
| Lock
| Unlock
| RLock
| RUnlock
| Sleep
| PodsList (job : string)
| EventsList (pod : string)
| JobsCreate (newjob : Job)
| JobsDelete (job : string)
| WorkqueueAddRateLimited (key : WorkQueueKey)
| ImageworkqueueAddRateLimited (obj : QueueItem)
| ImageworkqueueForget (obj : QueueItem)
| ImageworkqueueDone (obj : QueueItem)
| HandleError (err : error)
| Go (imageCacheName : string)
| ChanSend (err : option error)
| ChanRecv.

(** The answers of the cluster and of the functions of the repository and of
    its libraries that are not part of [image_manager.go].  A Go result
    [(x, err)] is a sum. *)
Record Cluster := {
  podsList : string → list Pod + error;
  eventsList : string → list K8sEvent + error;
  jobsCreate : Job → Job + error;
  jobsDelete : string → option error;
  MetaNamespaceKeyFunc : ImageCache → string + error;
  newImagePullJob :
    option ImageCache → string → option Node → string → Job + error;
  newImageDeleteJob :
    option ImageCache → string → option Node → string → string → Job + error;
  checkIfImageNeedsToBePulled : string → string → option Node → bool + error;
  GenerateName : string → string
}.

(** The order in which each [range] over [m.imageworkstatus] produces the
    keys: Go leaves it unspecified, so it is an input.  A key that is no
    longer in the map when its turn comes is not produced. *)
Record MapOrders := {
  pollOrder : nat → list string;
  pendingOrder : list string;
  clearOrder : list string
}.

(** ** Computations *)

Inductive Res (A : Type) :=
| Val (a : A)
| Panic.
Arguments Val {A} a.
Arguments Panic {A}.

Definition M (A : Type) : Type :=
  gmap string ImageWorkResult → Res A * gmap string ImageWorkResult * list Effect.

Definition ret {A} (a : A) : M A := λ t, (Val a, t, []).

Definition bind {A B} (x : M A) (f : A → M B) : M B := λ t,
  match x t with
  | (Val a, t1, tr1) =>
      match f a t1 with
      | (r, t2, tr2) => (r, t2, (tr1 ++ tr2)%list)
      end
  | (Panic, t1, tr1) => (Panic, t1, tr1)
  end.

Definition panic {A} : M A := λ t, (Panic, t, []).
Definition emit (e : Effect) : M unit := λ t, (Val tt, t, [e]).
Definition getTable : M (gmap string ImageWorkResult) := λ t, (Val t, t, []).
Definition setTable (t' : gmap string ImageWorkResult) : M unit :=
  λ _, (Val tt, t', []).

(** [defer d] before [body]: [d] runs when [body] returns and also when it
    panics. *)
Definition defer {A} (d : M unit) (body : M A) : M A := λ t,
  match body t with
  | (r, t1, tr1) =>
      match d t1 with
      | (_, t2, tr2) => (r, t2, (tr1 ++ tr2)%list)
      end
  end.

Declare Scope go_scope.
Delimit Scope go_scope with go.
Notation "x <- c1 ;; c2" := (bind c1 (λ x, c2))
  (at level 100, c1 at next level, right associativity) : go_scope.
Notation "c1 ;; c2" := (bind c1 (λ _, c2))
  (at level 100, right associativity) : go_scope.
Open Scope go_scope.

(** Projections of an outcome. *)
Definition result {A} (o : Res A * gmap string ImageWorkResult * list Effect) : Res A :=
  o.1.1.
Definition table {A} (o : Res A * gmap string ImageWorkResult * list Effect)
  : gmap string ImageWorkResult := o.1.2.
Definition trace {A} (o : Res A * gmap string ImageWorkResult * list Effect)
  : list Effect := o.2.

(** [iwres.ImageWorkRequest.Node.Labels["kubernetes.io/hostname"]], an
    argument of the log lines: a [nil] node panics. *)
Definition hostname (iwr : ImageWorkRequest) : M string :=
  match iwr_Node iwr with
  | Some n => ret (label (node_Labels n) "kubernetes.io/hostname")
  | None => panic
  end.

(** [iwres.ImageWorkRequest.Imagecache.Name] *)
Definition imagecacheName (iwr : ImageWorkRequest) : M string :=
  match iwr_Imagecache iwr with
  | Some ic => ret (ic_Name ic)
  | None => panic
  end.

Section ImageManager.

Variable c : Cluster.
Variable m : ImageManager.

(** *** Pod status observer *)

(** [handlePodStatusChange], lines 161-195. *)
Definition handlePodStatusChange (pod : Pod) : M unit :=
  emit RLock ;;
  t <- getTable ;;
  emit RUnlock ;;
  match t !! label (pod_Labels pod) "job-name" with
  | None => ret tt
  | Some iwres =>
    iwres <-
      (if decide (Phase (pod_Status pod) = PodSucceeded) then
         let iwres := setStatus ImageWorkResultStatusSucceeded iwres in
         hostname (iwres_ImageWorkRequest iwres) ;;
         ret iwres
       else ret iwres) ;;
    iwres <-
      (if decide (Phase (pod_Status pod) = PodFailed) then
         let iwres := setStatus ImageWorkResultStatusFailed iwres in
         match ContainerStatuses (pod_Status pod) !! 0%nat with
         | None => panic
         | Some cs0 =>
           let iwres :=
             match Terminated (State cs0) with
             | Some term =>
                 setMessage (terminated_Message term)
                   (setReason (terminated_Reason term) iwres)
             | None => iwres
             end in
           hostname (iwres_ImageWorkRequest iwres) ;;
           ret iwres
         end
       else ret iwres) ;;
    emit Lock ;;
    t <- getTable ;;
    setTable (<[label (pod_Labels pod) "job-name" := iwres]> t) ;;
    emit Unlock
  end.

(** The [UpdateFunc] registered in [NewImageManager], lines 142-155. *)
Definition UpdateFunc (old new : Pod) : M unit :=
  if decide (pod_ResourceVersion new = pod_ResourceVersion old) then ret tt
  else
    if decide ((Phase (pod_Status new) = PodSucceeded
                ∨ Phase (pod_Status new) = PodFailed)
               ∧ (Phase (pod_Status old) ≠ PodSucceeded
                  ∧ Phase (pod_Status old) ≠ PodFailed))
    then handlePodStatusChange new
    else ret tt.

(** *** Deadline reconciler *)

(** Lines 223-237: the reason and message taken from the pod. *)
Definition pendingReason (pod0 : Pod) (iwres : ImageWorkResult) : ImageWorkResult :=
  if decide (Phase (pod_Status pod0) = PodPending) then
    match ContainerStatuses (pod_Status pod0) with
    | [cs0] =>
      let iwres :=
        match Waiting (State cs0) with
        | Some w =>
            setMessage (waiting_Message w) (setReason (waiting_Reason w) iwres)
        | None => iwres
        end in
      match Terminated (State cs0) with
      | Some term =>
          setMessage (terminated_Message term)
            (setReason (terminated_Reason term) iwres)
      | None => iwres
      end
    | _ => setMessage "Check if node is ready" (setReason "Pending" iwres)
    end
  else iwres.

(** Lines 253-255: the messages of the events, in the order of the list. *)
Definition appendEventMessages (items : list K8sEvent) (iwres : ImageWorkResult)
  : ImageWorkResult :=
  foldl (λ iwres v,
           setMessage (iwres_Message iwres +:+ ":" +:+ event_Message v) iwres)
        iwres items.

(** Lines 200-260: the loop of [updatePendingImageWorkResults]. *)
Fixpoint rangePending (imageCacheName : string) (order : list string)
  : M (option error) :=
  match order with
  | [] => ret None
  | job :: rest =>
    t <- getTable ;;
    match t !! job with
    | None => rangePending imageCacheName rest
    | Some iwres =>
      name <- imagecacheName (iwres_ImageWorkRequest iwres) ;;
      if decide (name = imageCacheName) then
        if decide (iwres_Status iwres = ImageWorkResultStatusJobCreated) then
          emit (PodsList job) ;;
          match podsList c job with
          | inr err => ret (Some err)
          | inl [] => ret (Some ("no pods matched job " +:+ job))
          | inl (_ :: _ :: _) =>
              ret (Some ("more than one pod matched job " +:+ job))
          | inl [pod0] =>
            let iwres := setStatus ImageWorkResultStatusFailed iwres in
            hostname (iwres_ImageWorkRequest iwres) ;;
            let iwres := pendingReason pod0 iwres in
            r <-
              (if decide (iwr_WorkType (iwres_ImageWorkRequest iwres)
                          ≠ ImageCachePurge) then
                 emit (EventsList (pod_Name pod0)) ;;
                 match eventsList c (pod_Name pod0) with
                 | inr err => ret (inr err)
                 | inl items => ret (inl (appendEventMessages items iwres))
                 end
               else ret (inl iwres)) ;;
            match r with
            | inr err => ret (Some err)
            | inl iwres =>
              t <- getTable ;;
              setTable (<[job := iwres]> t) ;;
              rangePending imageCacheName rest
            end
          end
        else rangePending imageCacheName rest
      else rangePending imageCacheName rest
    end
  end.

(** [updatePendingImageWorkResults], lines 197-263. *)
Definition updatePendingImageWorkResults (imageCacheName : string)
    (order : list string) : M (option error) :=
  emit Lock ;;
  defer (emit Unlock) (rangePending imageCacheName order).

(** Lines 271-279: the loop of the poll condition; the result is [done]. *)
Fixpoint rangePoll (imageCacheName : string) (order : list string) : M bool :=
  match order with
  | [] => ret true
  | job :: rest =>
    t <- getTable ;;
    match t !! job with
    | None => rangePoll imageCacheName rest
    | Some iwres =>
      name <- imagecacheName (iwres_ImageWorkRequest iwres) ;;
      if decide (name = imageCacheName) then
        if decide (iwres_Status iwres = ImageWorkResultStatusJobCreated) then
          ret false
        else rangePoll imageCacheName rest
      else rangePoll imageCacheName rest
    end
  end.

(** Lines 267-280: the condition given to [wait.Poll]. *)
Definition pollCondition (imageCacheName : string) (order : list string) : M bool :=
  emit RLock ;;
  defer (emit RUnlock) (rangePoll imageCacheName order).

(** [wait.Poll(interval, timeout, condition)] of k8s.io/apimachinery: it
    waits one interval and evaluates the condition, again and again, until
    the condition holds or the time is up; [ticks] bounds the number of
    evaluations. *)
Fixpoint waitPoll (ticks : nat) (condition : nat → M bool) : M unit :=
  match ticks with
  | O => ret tt
  | S n =>
    emit Sleep ;;
    done <- condition n ;;
    if done then ret tt else waitPoll n condition
  end.

(** Lines 296-314: the loop that copies, removes and deletes.  On a failed
    deletion it stops with the error. *)
Fixpoint rangeClear (imageCacheName : string) (order : list string)
    (iwstatus : gmap string ImageWorkResult) (imageCache : option ImageCache)
  : M (gmap string ImageWorkResult * option ImageCache * option error) :=
  match order with
  | [] => ret (iwstatus, imageCache, None)
  | job :: rest =>
    t <- getTable ;;
    match t !! job with
    | None => rangeClear imageCacheName rest iwstatus imageCache
    | Some iwres =>
      name <- imagecacheName (iwres_ImageWorkRequest iwres) ;;
      if decide (name = imageCacheName) then
        let iwstatus := <[job := iwres]> iwstatus in
        let imageCache := iwr_Imagecache (iwres_ImageWorkRequest iwres) in
        t <- getTable ;;
        setTable (delete job t) ;;
        if negb (String.prefix fakeJobPrefix job) then
          emit (JobsDelete job) ;;
          match jobsDelete c job with
          | Some err => ret (iwstatus, imageCache, Some err)
          | None => rangeClear imageCacheName rest iwstatus imageCache
          end
        else rangeClear imageCacheName rest iwstatus imageCache
      else rangeClear imageCacheName rest iwstatus imageCache
    end
  end.

(** [updateImageCacheStatus], lines 265-334.  [wait.Poll] evaluates its
    condition once for every interval of one second within the deadline and
    once more when the time is up, and the image manager ignores what it
    returns.  The mutex [iwstatusLock] guards a map local to the call and is
    left out. *)
Definition updateImageCacheStatus (imageCacheName : string) (o : MapOrders)
  : M unit :=
  waitPoll (S (imagePullDeadlineDuration m))
    (λ n, pollCondition imageCacheName (pollOrder o n)) ;;
  err <- updatePendingImageWorkResults imageCacheName (pendingOrder o) ;;
  match err with
  | Some err => emit (ChanSend (Some err))
  | None =>
    emit Lock ;;
    cleared <- rangeClear imageCacheName (clearOrder o) ∅ None ;;
    let '(iwstatus, imageCache, err) := cleared in
    match err with
    | Some err =>
      emit Unlock ;;
      emit (ChanSend (Some err))
    | None =>
      emit Unlock ;;
      match imageCache with
      | None =>
          emit (ChanSend (Some "unable to obtain reference to image cache"))
      | Some imageCache =>
        match MetaNamespaceKeyFunc c imageCache with
        | inr err => emit (ChanSend (Some err))
        | inl objKey =>
          emit (WorkqueueAddRateLimited
                  {| wqk_WorkType := ImageCacheStatusUpdate;
                     wqk_ObjKey := objKey;
                     wqk_Status := Some iwstatus;
                     wqk_OldImageCache := None |}) ;;
          emit (ChanSend None)
        end
      end
    end
  end.

(** *** Dispatcher *)

(** [pullImage], lines 454-468. *)
Definition pullImage (iwr : ImageWorkRequest) : M (Job + error) :=
  match newImagePullJob c (iwr_Imagecache iwr) (iwr_Image iwr) (iwr_Node iwr)
          (imagePullPolicy m) with
  | inr err => ret (inr err)
  | inl newjob =>
    emit (JobsCreate newjob) ;;
    ret (jobsCreate c newjob)
  end.

(** [deleteImage], lines 471-485. *)
Definition deleteImage (iwr : ImageWorkRequest) : M (Job + error) :=
  match newImageDeleteJob c (iwr_Imagecache iwr) (iwr_Image iwr) (iwr_Node iwr)
          (iwr_ContainerRuntimeVersion iwr) (dockerClientImage m) with
  | inr err => ret (inr err)
  | inl newjob =>
    emit (JobsCreate newjob) ;;
    ret (jobsCreate c newjob)
  end.

(** Lines 433-442: the entry is recorded and the item forgotten. *)
Definition record (obj : QueueItem) (iwr : ImageWorkRequest)
    (job : option Job) (pull delete : bool) : M (option error) :=
  emit Lock ;;
  (if pull || delete then
     match job with
     | None => panic
     | Some job =>
       t <- getTable ;;
       setTable (<[job_Name job :=
                     {| iwres_ImageWorkRequest := iwr;
                        iwres_Status := ImageWorkResultStatusJobCreated;
                        iwres_Reason := "";
                        iwres_Message := "" |}]> t)
     end
   else
     t <- getTable ;;
     setTable (<[GenerateName c fakeJobPrefix :=
                   {| iwres_ImageWorkRequest := iwr;
                      iwres_Status := ImageWorkResultStatusAlreadyPulled;
                      iwres_Reason := "";
                      iwres_Message := "" |}]> t)) ;;
  emit Unlock ;;
  emit (ImageworkqueueForget obj) ;;
  ret None.

(** Lines 372-443: the function literal applied to [obj]. *)
Definition processItem (obj : QueueItem) : M (option error) :=
  defer (emit (ImageworkqueueDone obj))
    match obj with
    | ItemOther description =>
      emit (ImageworkqueueForget obj) ;;
      emit (HandleError ("unexpected type in workqueue: " +:+ description)) ;;
      ret None
    | ItemImageWorkRequest iwr =>
      if decide (iwr_Image iwr = "" ∧ iwr_Node iwr = None) then
        emit (ImageworkqueueForget obj) ;;
        name <- imagecacheName iwr ;;
        emit (Go name) ;;
        ret None
      else if decide (iwr_WorkType iwr = ImageCachePurge) then
        r <- deleteImage iwr ;;
        match r with
        | inr err =>
          host <- hostname iwr ;;
          ret (Some ("error deleting image '" +:+ iwr_Image iwr
                     +:+ "' from node '" +:+ host +:+ "': " +:+ err))
        | inl job =>
          hostname iwr ;;
          record obj iwr (Some job) false true
        end
      else
        match checkIfImageNeedsToBePulled c (imagePullPolicy m) (iwr_Image iwr)
                (iwr_Node iwr) with
        | inr err =>
          ret (Some ("error from checkIfImageNeedsToBePulled(): " +:+ err))
        | inl true =>
          r <- pullImage iwr ;;
          match r with
          | inr err =>
            host <- hostname iwr ;;
            ret (Some ("error pulling image '" +:+ iwr_Image iwr
                       +:+ "' to node '" +:+ host +:+ "': " +:+ err))
          | inl job =>
            hostname iwr ;;
            record obj iwr (Some job) true false
          end
        | inl false =>
          hostname iwr ;;
          record obj iwr None false false
        end
    end.

(** [processNextWorkItem], lines 363-451, on what [m.imageworkqueue.Get()]
    returned. *)
Definition processNextWorkItem (got : QueueItem * bool) : M bool :=
  let '(obj, shutdown) := got in
  if shutdown then ret false
  else
    err <- processItem obj ;;
    match err with
    | Some err =>
      emit (HandleError err) ;;
      ret true
    | None => ret true
    end.

End ImageManager.

(** ** What a trace shows *)

(** The values sent on [errCh]. *)
Definition sent (tr : list Effect) : list (option error) :=
  omap (λ e, match e with ChanSend err => Some err | _ => None end) tr.

(** The items added to the work queue of the reconciliation loop. *)
Definition emitted (tr : list Effect) : list WorkQueueKey :=
  omap (λ e, match e with WorkqueueAddRateLimited key => Some key | _ => None end) tr.

(** The jobs whose deletion was requested. *)
Definition deleted (tr : list Effect) : list string :=
  omap (λ e, match e with JobsDelete job => Some job | _ => None end) tr.

(** The items put back on the image work queue. *)
Definition requeued (tr : list Effect) : list QueueItem :=
  omap (λ e, match e with ImageworkqueueAddRateLimited obj => Some obj | _ => None end) tr.

(** The receives from [errCh]. *)
Definition received (tr : list Effect) : nat :=
  length (omap (λ e, match e with ChanRecv => Some tt | _ => None end) tr).

(** Queries of the pods of a job and of the events of a pod. *)
Definition listing (e : Effect) : bool :=
  match e with
  | PodsList _ | EventsList _ => true
  | _ => false
  end.

(** Requests to delete a job. *)
Definition deleting (e : Effect) : bool :=
  match e with
  | JobsDelete _ => true
  | _ => false
  end.


(** Calls through [m.kubeclientset], which go to the API server. *)
Definition clientCall (e : Effect) : bool :=
  match e with
  | EventsList _ | JobsCreate _ | JobsDelete _ => true
  | _ => false
  end.

(** A network call, a sleep or a wait on a channel. *)
Definition blocking (e : Effect) : bool :=
  match e with
  | Sleep | ChanSend _ | ChanRecv => true
  | _ => clientCall e
  end.

(** Whether [m.lock] is held after [tr], when [h] tells whether it was held
    before. *)
Fixpoint held (h : bool) (tr : list Effect) : bool :=
  match tr with
  | [] => h
  | (Lock | RLock) :: tr => held true tr
  | (Unlock | RUnlock) :: tr => held false tr
  | _ :: tr => held h tr
  end.

(** What is done in [tr] while [m.lock] is held. *)
Fixpoint underLock (h : bool) (tr : list Effect) : list Effect :=
  match tr with
  | [] => []
  | (Lock | RLock) :: tr => underLock true tr
  | (Unlock | RUnlock) :: tr => underLock false tr
  | e :: tr => if h then e :: underLock h tr else underLock h tr
  end.

(** The update function calls [handlePodStatusChange], whose first step
    takes the read lock. *)
Definition fires (old new : Pod) (t : gmap string ImageWorkResult) : Prop :=
  trace (UpdateFunc old new t) ≠ [].

(** No network call, sleep or wait is made while [m.lock] is held. *)
Definition lockScoped (tr : list Effect) : Prop :=
  Forall (λ e, blocking e = false) (underLock false tr).


(** What [n] turns of the poll leave in the trace. *)
Definition pollTrace (n : nat) : list Effect :=
  concat (replicate n [Sleep; RLock; RUnlock]).

(** ** Entries of a cache reference *)

(** The entry is one of the image cache named [name]. *)
Definition belongs (name : string) (v : ImageWorkResult) : Prop :=
  ic_Name <$> iwr_Imagecache (iwres_ImageWorkRequest v) = Some name.

(** The entry is one of [name] and its job has not been resolved. *)
Definition pending (name : string) (v : ImageWorkResult) : Prop :=
  belongs name v ∧ iwres_Status v = ImageWorkResultStatusJobCreated.

(** A job identifier made by the dispatcher for an image already present. *)
Definition fake (job : string) : Prop := String.prefix fakeJobPrefix job = true.

(** No entry holds a [nil] pointer. *)
Definition wellFormed (t : gmap string ImageWorkResult) : Prop :=
  map_Forall (λ _ v,
    is_Some (iwr_Imagecache (iwres_ImageWorkRequest v))
    ∧ is_Some (iwr_Node (iwres_ImageWorkRequest v))) t.

(** Every key of the table occurs in the order of a [range]. *)
Definition covers (order : list string) (t : gmap string ImageWorkResult) : Prop :=
  map_Forall (λ k _, k ∈ order) t.

(** Every entry has an image cache, and none is of the cache [name]. *)
Definition foreign (name : string) (t : gmap string ImageWorkResult) : Prop :=
  map_Forall (λ _ v,
    is_Some (iwr_Imagecache (iwres_ImageWorkRequest v)) ∧ ¬ belongs name v) t.


(** The item by which a run hands its snapshot to the reconciliation loop. *)
Definition statusUpdate (objKey : string)
    (snap : gmap string ImageWorkResult) : WorkQueueKey :=
  {| wqk_WorkType := ImageCacheStatusUpdate;
     wqk_ObjKey := objKey;
     wqk_Status := Some snap;
     wqk_OldImageCache := None |}.


(** The reason of an entry resolved by force, from the pod of its job and
    the reason it had: for a [Pending] pod with exactly one container status,
    the reason of the terminated state, else of the waiting state, else the
    old one; for a [Pending] pod with another number of statuses, [Pending];
    for a pod in another phase, the old one. *)
Definition resolvedReason (pod0 : Pod) (old : string) : string :=
  if decide (Phase (pod_Status pod0) = PodPending) then
    match ContainerStatuses (pod_Status pod0) with
    | [cs0] =>
      match Terminated (State cs0), Waiting (State cs0) with
      | Some term, _ => terminated_Reason term
      | None, Some w => waiting_Reason w
      | None, None => old
      end
    | _ => "Pending"
    end
  else old.

(** The message of an entry resolved by force, before the messages of the
    events are appended: as the reason, with [Check if node is ready] where
    the reason is [Pending]. *)
Definition resolvedMessage (pod0 : Pod) (old : string) : string :=
  if decide (Phase (pod_Status pod0) = PodPending) then
    match ContainerStatuses (pod_Status pod0) with
    | [cs0] =>
      match Terminated (State cs0), Waiting (State cs0) with
      | Some term, _ => terminated_Message term
      | None, Some w => waiting_Message w
      | None, None => old
      end
    | _ => "Check if node is ready"
    end
  else old.

(** A message followed by the messages of the events, each after a colon. *)
Definition withEvents (message : string) (items : list K8sEvent) : string :=
  foldl (λ s v, s +:+ ":" +:+ event_Message v) message items.

#[global] Instance belongs_dec name v : Decision (belongs name v).
Proof. unfold belongs. apply _. Defined.

#[global] Instance pending_dec name v : Decision (pending name v).
Proof. unfold pending. apply _. Defined.

#[global] Instance fake_dec job : Decision (fake job).
Proof. unfold fake. apply _. Defined.

#[global] Instance wellFormed_dec t : Decision (wellFormed t).
Proof. unfold wellFormed. apply _. Defined.

#[global] Instance covers_dec order t : Decision (covers order t).
Proof. unfold covers. apply _. Defined.

#[global] Instance foreign_dec name t : Decision (foreign name t).
Proof. unfold foreign. apply _. Defined.

(** What the forced resolution writes for the entry [v] of [job]. *)
Inductive forced (c : Cluster) (job : string) (v : ImageWorkResult)
  : ImageWorkResult → Prop :=
| forced_purge pod0 :
    podsList c job = inl [pod0] →
    iwr_WorkType (iwres_ImageWorkRequest v) = ImageCachePurge →
    forced c job v (pendingReason pod0 (setStatus ImageWorkResultStatusFailed v))
| forced_pull pod0 items :
    podsList c job = inl [pod0] →
    iwr_WorkType (iwres_ImageWorkRequest v) ≠ ImageCachePurge →
    eventsList c (pod_Name pod0) = inl items →
    forced c job v
      (appendEventMessages items
         (pendingReason pod0 (setStatus ImageWorkResultStatusFailed v))).


(** ** The constructor and the worker *)

(** [NewImageManager], lines 113-159: the image manager with its
    configuration and an empty work status table.  The update function it
    registers with the pod informer is [UpdateFunc]. *)
Definition NewImageManager (namespace : string)
    (imagePullDeadlineDuration : nat)
    (dockerClientImage imagePullPolicy : string)
  : ImageManager * gmap string ImageWorkResult :=
  (Build_ImageManager namespace imagePullDeadlineDuration dockerClientImage
     imagePullPolicy, ∅).

(** How a call of [runWorker] ends on the results of [Get] that are at
    hand: it returns, or it waits in [Get] for the next one. *)
Inductive WorkerEnd :=
| WorkerReturned
| WorkerWaiting.

(** [runWorker], lines 356-359, on the results of the successive calls of
    [m.imageworkqueue.Get()]. *)
Fixpoint runWorker (c : Cluster) (m : ImageManager)
    (gets : list (QueueItem * bool)) : M WorkerEnd :=
  match gets with
  | [] => ret WorkerWaiting
  | got :: gets =>
    more <- processNextWorkItem c m got ;;
    if more then runWorker c m gets else ret WorkerReturned
  end.

(** ** More of what a trace shows *)

(** The items marked done on the image work queue. *)
Definition doneItems (tr : list Effect) : list QueueItem :=
  omap (λ e, match e with ImageworkqueueDone obj => Some obj | _ => None end) tr.

(** The items forgotten by the rate limiter of the image work queue. *)
Definition forgotten (tr : list Effect) : list QueueItem :=
  omap (λ e, match e with ImageworkqueueForget obj => Some obj | _ => None end) tr.

(** The errors handed to [runtime.HandleError]. *)
Definition handled (tr : list Effect) : list error :=
  omap (λ e, match e with HandleError err => Some err | _ => None end) tr.

(** The job manifests sent to the API server. *)
Definition created (tr : list Effect) : list Job :=
  omap (λ e, match e with JobsCreate newjob => Some newjob | _ => None end) tr.

(** The image caches for which a run of the deadline reconciler was
    started. *)
Definition started (tr : list Effect) : list string :=
  omap (λ e, match e with Go name => Some name | _ => None end) tr.

(** The jobs whose pods were listed. *)
Definition podQueries (tr : list Effect) : list string :=
  omap (λ e, match e with PodsList job => Some job | _ => None end) tr.

(** The pods whose events were listed. *)
Definition eventQueries (tr : list Effect) : list string :=
  omap (λ e, match e with EventsList pod => Some pod | _ => None end) tr.

(** The number of turns of the poll: at each turn it waits and then
    evaluates its condition. *)
Definition sleeps (tr : list Effect) : nat :=
  length (omap (λ e, match e with Sleep => Some tt | _ => None end) tr).

(** ** More on tables *)

(** No entry has a [nil] node. *)
Definition hasNode (t : gmap string ImageWorkResult) : Prop :=
  map_Forall (λ _ v, is_Some (iwr_Node (iwres_ImageWorkRequest v))) t.

(** No entry has a [nil] image cache. *)
Definition hasCache (t : gmap string ImageWorkResult) : Prop :=
  map_Forall (λ _ v, is_Some (iwr_Imagecache (iwres_ImageWorkRequest v))) t.

(** No entry of the cache [name] is waiting for its job. *)
Definition settled (name : string) (t : gmap string ImageWorkResult) : Prop :=
  map_Forall (λ _ v, ¬ pending name v) t.

#[global] Instance hasNode_dec t : Decision (hasNode t).
Proof. unfold hasNode. apply _. Defined.

#[global] Instance hasCache_dec t : Decision (hasCache t).
Proof. unfold hasCache. apply _. Defined.

#[global] Instance settled_dec name t : Decision (settled name t).
Proof. unfold settled. apply _. Defined.

(** What the pod status observer writes for the entry [v] of the job of
    [pod]. *)
Inductive observed (pod : Pod) (v : ImageWorkResult) : ImageWorkResult → Prop :=
| observed_succeeded :
    Phase (pod_Status pod) = PodSucceeded →
    observed pod v (setStatus ImageWorkResultStatusSucceeded v)
| observed_terminated cs0 term :
    Phase (pod_Status pod) = PodFailed →
    ContainerStatuses (pod_Status pod) !! 0%nat = Some cs0 →
    Terminated (State cs0) = Some term →
    observed pod v
      (setMessage (terminated_Message term)
         (setReason (terminated_Reason term)
            (setStatus ImageWorkResultStatusFailed v)))
| observed_failed cs0 :
    Phase (pod_Status pod) = PodFailed →
    ContainerStatuses (pod_Status pod) !! 0%nat = Some cs0 →
    Terminated (State cs0) = None →
    observed pod v (setStatus ImageWorkResultStatusFailed v)
| observed_other :
    Phase (pod_Status pod) ≠ PodSucceeded →
    Phase (pod_Status pod) ≠ PodFailed →
    observed pod v v.

(** Why the forced-resolution pass stops at the pending entry [v] of [job]
    with the error [err]: the pods cannot be listed, or there is not exactly
    one pod, or, the work not being a purge, the events of the one pod cannot
    be listed. *)
Inductive stops (c : Cluster) (job : string) (v : ImageWorkResult)
  : error → Prop :=
| stops_list err :
    podsList c job = inr err → stops c job v err
| stops_none :
    podsList c job = inl [] → stops c job v ("no pods matched job " +:+ job)
| stops_many pod0 pod1 pods :
    podsList c job = inl (pod0 :: pod1 :: pods) →
    stops c job v ("more than one pod matched job " +:+ job)
| stops_events pod0 err :
    podsList c job = inl [pod0] →
    iwr_WorkType (iwres_ImageWorkRequest v) ≠ ImageCachePurge →
    eventsList c (pod_Name pod0) = inr err →
    stops c job v err.

(** ** The two critical sections of the pod status observer *)

(** Lines 163-165 of [handlePodStatusChange]: the entry of the job of the
    pod is read under the read lock. *)
Definition readEntry (pod : Pod) : M (option ImageWorkResult) :=
  emit RLock ;;
  t <- getTable ;;
  emit RUnlock ;;
  ret (t !! label (pod_Labels pod) "job-name").

(** Lines 168-194 of [handlePodStatusChange]: the copy that was read is
    resolved without the lock and written under the exclusive lock. *)
Definition writeEntry (pod : Pod) (found : option ImageWorkResult) : M unit :=
  match found with
  | None => ret tt
  | Some iwres =>
    iwres <-
      (if decide (Phase (pod_Status pod) = PodSucceeded) then
         let iwres := setStatus ImageWorkResultStatusSucceeded iwres in
         hostname (iwres_ImageWorkRequest iwres) ;;
         ret iwres
       else ret iwres) ;;
    iwres <-
      (if decide (Phase (pod_Status pod) = PodFailed) then
         let iwres := setStatus ImageWorkResultStatusFailed iwres in
         match ContainerStatuses (pod_Status pod) !! 0%nat with
         | None => panic
         | Some cs0 =>
           let iwres :=
             match Terminated (State cs0) with
             | Some term =>
                 setMessage (terminated_Message term)
                   (setReason (terminated_Reason term) iwres)
             | None => iwres
             end in
           hostname (iwres_ImageWorkRequest iwres) ;;
           ret iwres
         end
       else ret iwres) ;;
    emit Lock ;;
    t <- getTable ;;
    setTable (<[label (pod_Labels pod) "job-name" := iwres]> t) ;;
    emit Unlock
  end.

(** ** Sample clusters and tables *)

Definition node1 : Node :=
  {| node_Labels := {["kubernetes.io/hostname" := "node1"]} |}.

Definition cache1 : ImageCache :=
  {| ic_Namespace := "kube-fledged"; ic_Name := "ic1" |}.

Definition request (workType : string) : ImageWorkRequest :=
  {| iwr_Image := "nginx:1.25";
     iwr_Node := Some node1;
     iwr_ContainerRuntimeVersion := "containerd://1.7";
     iwr_WorkType := workType;
     iwr_Imagecache := Some cache1 |}.

Definition entry (workType status : string) : ImageWorkResult :=
  {| iwres_ImageWorkRequest := request workType;
     iwres_Status := status;
     iwres_Reason := "";
     iwres_Message := "" |}.

Definition podOf (job phase : string) (statuses : list ContainerStatus) : Pod :=
  {| pod_Name := job +:+ "-pod";
     pod_ResourceVersion := "2";
     pod_Labels := {["job-name" := job]};
     pod_Status := {| Phase := phase; ContainerStatuses := statuses |} |}.

(** Every job has one running pod and every call succeeds. *)
Definition cluster0 : Cluster :=
  {| podsList := λ job, inl [podOf job PodRunning []];
     eventsList := λ _, inl [];
     jobsCreate := λ job, inl job;
     jobsDelete := λ _, None;
     MetaNamespaceKeyFunc := λ ic, inl (ic_Namespace ic +:+ "/" +:+ ic_Name ic);
     newImagePullJob := λ _ _ _ _, inl {| job_Name := "pull-1" |};
     newImageDeleteJob := λ _ _ _ _ _, inl {| job_Name := "del-1" |};
     checkIfImageNeedsToBePulled := λ _ _ _, inl true;
     GenerateName := λ base, base +:+ "x7k2q" |}.

Definition m0 : ImageManager :=
  {| fledgedNameSpace := "kube-fledged";
     imagePullDeadlineDuration := 2;
     dockerClientImage := "docker";
     imagePullPolicy := "IfNotPresent" |}.

(** Every [range] produces the keys in the order of [l]. *)
Definition orders (l : list string) : MapOrders :=
  {| pollOrder := λ _, l; pendingOrder := l; clearOrder := l |}.

Definition t0 : gmap string ImageWorkResult :=
  <["job1" := entry ImageCacheCreate ImageWorkResultStatusJobCreated]>
    (<["job2" := entry ImageCachePurge ImageWorkResultStatusSucceeded]> ∅).

(** A container that terminated with [reason]. *)
Definition terminatedWith (reason message : string) : ContainerStatus :=
  {| State := {| Waiting := None;
                 Terminated := Some {| terminated_Reason := reason;
                                       terminated_Message := message |} |} |}.

(** A container that waits with [reason]. *)
Definition waitingWith (reason message : string) : ContainerStatus :=
  {| State := {| Waiting := Some {| waiting_Reason := reason;
                                    waiting_Message := message |};
                 Terminated := None |} |}.

(** The pod of [job1] before and after it went from [Succeeded] to
    [Failed]. *)
Definition podBefore : Pod :=
  {| pod_Name := "job1-pod";
     pod_ResourceVersion := "1";
     pod_Labels := {["job-name" := "job1"]};
     pod_Status := {| Phase := PodSucceeded; ContainerStatuses := [] |} |}.

Definition podAfter : Pod :=
  podOf "job1" PodFailed [terminatedWith "Error" "exit status 1"].

(** The API server refuses to create jobs. *)
Definition clusterNoCreate : Cluster :=
  {| podsList := podsList cluster0;
     eventsList := eventsList cluster0;
     jobsCreate := λ _, inr "the server is currently unable to handle the request";
     jobsDelete := jobsDelete cluster0;
     MetaNamespaceKeyFunc := MetaNamespaceKeyFunc cluster0;
     newImagePullJob := newImagePullJob cluster0;
     newImageDeleteJob := newImageDeleteJob cluster0;
     checkIfImageNeedsToBePulled := checkIfImageNeedsToBePulled cluster0;
     GenerateName := GenerateName cluster0 |}.

(** The check whether the image has to be pulled fails. *)
Definition clusterNoCheck : Cluster :=
  {| podsList := podsList cluster0;
     eventsList := eventsList cluster0;
     jobsCreate := jobsCreate cluster0;
     jobsDelete := jobsDelete cluster0;
     MetaNamespaceKeyFunc := MetaNamespaceKeyFunc cluster0;
     newImagePullJob := newImagePullJob cluster0;
     newImageDeleteJob := newImageDeleteJob cluster0;
     checkIfImageNeedsToBePulled := λ _ _ _, inr "invalid image reference";
     GenerateName := GenerateName cluster0 |}.

(** The flush item of [cache1]. *)
Definition flushItem : QueueItem :=
  ItemImageWorkRequest
    {| iwr_Image := "";
       iwr_Node := None;
       iwr_ContainerRuntimeVersion := "";
       iwr_WorkType := ImageCacheCreate;
       iwr_Imagecache := Some cache1 |}.

(** The job [job2] has no pod. *)
Definition clusterNoPods : Cluster :=
  {| podsList := λ job,
       if decide (job = "job2") then inl []
       else inl [podOf job PodRunning []];
     eventsList := eventsList cluster0;
     jobsCreate := jobsCreate cluster0;
     jobsDelete := jobsDelete cluster0;
     MetaNamespaceKeyFunc := MetaNamespaceKeyFunc cluster0;
     newImagePullJob := newImagePullJob cluster0;
     newImageDeleteJob := newImageDeleteJob cluster0;
     checkIfImageNeedsToBePulled := checkIfImageNeedsToBePulled cluster0;
     GenerateName := GenerateName cluster0 |}.

(** Two jobs of [ic1] that have not been resolved. *)
Definition tPending : gmap string ImageWorkResult :=
  <["job1" := entry ImageCachePurge ImageWorkResultStatusJobCreated]>
    (<["job2" := entry ImageCachePurge ImageWorkResultStatusJobCreated]> ∅).

(** Every job has one pod, pending because its image cannot be pulled, with
    one event that says so. *)
Definition clusterPending : Cluster :=
  {| podsList := λ job,
       inl [podOf job PodPending
              [waitingWith "ImagePullBackOff" "Back-off pulling image"]];
     eventsList := λ _, inl [{| event_Message := "Failed to pull image" |}];
     jobsCreate := jobsCreate cluster0;
     jobsDelete := jobsDelete cluster0;
     MetaNamespaceKeyFunc := MetaNamespaceKeyFunc cluster0;
     newImagePullJob := newImagePullJob cluster0;
     newImageDeleteJob := newImageDeleteJob cluster0;
     checkIfImageNeedsToBePulled := checkIfImageNeedsToBePulled cluster0;
     GenerateName := GenerateName cluster0 |}.


(** One job of [ic1], resolved by the pod observer. *)
Definition tDone : gmap string ImageWorkResult :=
  {["job2" := entry ImageCachePurge ImageWorkResultStatusSucceeded]}.

(** The pod of the job [pull-1] while it runs and after it succeeded. *)
Definition podPulling : Pod :=
  {| pod_Name := "pull-1-pod";
     pod_ResourceVersion := "1";
     pod_Labels := {["job-name" := "pull-1"]};
     pod_Status := {| Phase := PodRunning; ContainerStatuses := [] |} |}.

Definition podPulled : Pod := podOf "pull-1" PodSucceeded [].

(** The image is on the node already, and generated names are the base
    followed by five characters. *)
Definition clusterPresent : Cluster :=
  {| podsList := podsList cluster0;
     eventsList := eventsList cluster0;
     jobsCreate := jobsCreate cluster0;
     jobsDelete := λ _, Some "jobs.batch is forbidden";
     MetaNamespaceKeyFunc := MetaNamespaceKeyFunc cluster0;
     newImagePullJob := newImagePullJob cluster0;
     newImageDeleteJob := newImageDeleteJob cluster0;
     checkIfImageNeedsToBePulled := λ _ _ _, inl false;
     GenerateName := GenerateName cluster0 |}.
(** ** Field lemmas *)

Lemma pendingReason_request pod0 v :
  iwres_ImageWorkRequest (pendingReason pod0 v) = iwres_ImageWorkRequest v.
Proof.
  unfold pendingReason. repeat case_match; reflexivity.
Qed.

Lemma pendingReason_status pod0 v :
  iwres_Status (pendingReason pod0 v) = iwres_Status v.
Proof.
  unfold pendingReason. repeat case_match; reflexivity.
Qed.

Lemma appendEventMessages_fields items : ∀ v,
  iwres_ImageWorkRequest (appendEventMessages items v) = iwres_ImageWorkRequest v
  ∧ iwres_Status (appendEventMessages items v) = iwres_Status v
  ∧ iwres_Reason (appendEventMessages items v) = iwres_Reason v.
Proof.
  unfold appendEventMessages.
  induction items as [|ev items IH]; intros v; simpl; [done|].
  destruct (IH (setMessage (iwres_Message v +:+ ":" +:+ event_Message ev) v))
    as (-> & -> & ->).
  done.
Qed.

Lemma forced_request c job v v' :
  forced c job v v' → iwres_ImageWorkRequest v' = iwres_ImageWorkRequest v.
Proof.
  destruct 1.
  - by rewrite pendingReason_request.
  - destruct (appendEventMessages_fields items
      (pendingReason pod0 (setStatus ImageWorkResultStatusFailed v))) as (-> & _).
    by rewrite pendingReason_request.
Qed.

Lemma forced_status c job v v' :
  forced c job v v' → iwres_Status v' = ImageWorkResultStatusFailed.
Proof.
  destruct 1.
  - by rewrite pendingReason_status.
  - destruct (appendEventMessages_fields items
      (pendingReason pod0 (setStatus ImageWorkResultStatusFailed v)))
      as (_ & -> & _).
    by rewrite pendingReason_status.
Qed.

Lemma forced_not_pending c name job v v' : forced c job v v' → ¬ pending name v'.
Proof.
  intros Hf [_ Hst]. rewrite (forced_status _ _ _ _ Hf) in Hst. discriminate.
Qed.

Lemma belongs_request name v v' :
  iwres_ImageWorkRequest v' = iwres_ImageWorkRequest v →
  belongs name v → belongs name v'.
Proof. unfold belongs. by intros ->. Qed.

Lemma belongs_iff name v :
  belongs name v
  ↔ ∃ ic, iwr_Imagecache (iwres_ImageWorkRequest v) = Some ic ∧ ic_Name ic = name.
Proof.
  unfold belongs. destruct (iwr_Imagecache (iwres_ImageWorkRequest v)); simpl.
  - split; [intros [= <-]; eauto|]. by intros (? & [= <-] & <-).
  - split; [done|]. by intros (? & ? & _).
Qed.


(** ** Laws of the computations *)

Lemma bind_silent {A B} (x : M A) (f : A → M B) t a t1 :
  x t = (Val a, t1, []) → bind x f t = f a t1.
Proof.
  intros Hx. unfold bind. rewrite Hx. by destruct (f a t1) as [[? ?] ?].
Qed.

Lemma bind_ret {A B} (a : A) (f : A → M B) t : bind (ret a) f t = f a t.
Proof. by apply bind_silent. Qed.

Lemma bind_panic {A B} (f : A → M B) t : bind panic f t = (Panic, t, []).
Proof. reflexivity. Qed.

Lemma bind_getTable {B} (f : gmap string ImageWorkResult → M B) t :
  bind getTable f t = f t t.
Proof. by apply bind_silent. Qed.

Lemma bind_setTable {B} (f : unit → M B) t t' :
  bind (setTable t') f t = f tt t'.
Proof. by apply bind_silent. Qed.

Lemma bind_assoc {A B C} (x : M A) (f : A → M B) (g : B → M C) t :
  bind (bind x f) g t = bind x (λ a, bind (f a) g) t.
Proof.
  unfold bind. destruct (x t) as [[[a|] t1] tr1]; [|done].
  destruct (f a t1) as [[[b|] t2] tr2]; [|done].
  destruct (g b t2) as [[r3 t3] tr3]. by rewrite app_assoc.
Qed.

Lemma bind_emit_inv {B} e (f : unit → M B) t r t' tr :
  bind (emit e) f t = (r, t', tr) →
  ∃ tr2, f tt t = (r, t', tr2) ∧ tr = e :: tr2.
Proof.
  unfold bind, emit. destruct (f tt t) as [[r2 t2] tr2].
  intros [= <- <- <-]. by exists tr2.
Qed.

Lemma defer_emit_inv {A} e (body : M A) t r t' tr :
  defer (emit e) body t = (r, t', tr) →
  ∃ tr1, body t = (r, t', tr1) ∧ tr = (tr1 ++ [e])%list.
Proof.
  unfold defer, emit. destruct (body t) as [[r1 t1] tr1].
  intros [= <- <- <-]. by exists tr1.
Qed.

(** One step of a run given as a hypothesis. *)
Ltac go_step H :=
  first [ rewrite bind_getTable in H | rewrite bind_setTable in H
        | rewrite bind_ret in H | rewrite bind_panic in H
        | let tr2 := fresh "tr" in
          apply bind_emit_inv in H as (tr2 & H & ->) ].
Ltac go_done H := inversion H; subst; clear H.

(** ** The forced-resolution pass *)

Section Pending.

Variable c : Cluster.
Variable name : string.

(** One turn of the loop of [updatePendingImageWorkResults]: the entry is
    passed over, or the pass stops there with the table as it was, or the
    entry is resolved and the loop goes on. *)
Lemma rangePending_cons job rest t r t' tr :
  rangePending c name (job :: rest) t = (r, t', tr) →
  (rangePending c name rest t = (r, t', tr)
   ∧ ∀ v, t !! job = Some v → ¬ pending name v)
  ∨ (t' = t ∧ Forall (λ e, listing e = true) tr
     ∧ ∃ v, t !! job = Some v
        ∧ ((∃ err, r = Val (Some err))
           ∨ (r = Panic
              ∧ (iwr_Imagecache (iwres_ImageWorkRequest v) = None
                 ∨ iwr_Node (iwres_ImageWorkRequest v) = None))))
  ∨ (∃ v v' tr1 tr2,
       t !! job = Some v ∧ pending name v ∧ forced c job v v'
       ∧ rangePending c name rest (<[job:=v']> t) = (r, t', tr2)
       ∧ tr = (tr1 ++ tr2)%list ∧ Forall (λ e, listing e = true) tr1).
Proof.
  intros Hrun. cbn [rangePending] in Hrun. go_step Hrun.
  destruct (t !! job) as [iwres|] eqn:Hjob; [|left; by split].
  unfold imagecacheName in Hrun.
  destruct (iwr_Imagecache (iwres_ImageWorkRequest iwres)) as [ic|] eqn:Hic;
    go_step Hrun.
  2:{ go_done Hrun. right; left. repeat split; [done|]. eauto 8. }
  destruct (decide (ic_Name ic = name)) as [Hname|Hname].
  2:{ left. split; [done|].
      intros v [= <-] [(ic' & Hic' & ?)%belongs_iff _]. congruence. }
  destruct (decide (iwres_Status iwres = ImageWorkResultStatusJobCreated))
    as [Hst|Hst].
  2:{ left. split; [done|]. by intros v [= <-] [_ ?]. }
  go_step Hrun.
  assert (Hstop : ∀ err, (Val (Some err), t, @nil Effect) = (r, t', tr0) →
    t' = t ∧ Forall (λ e, listing e = true) (PodsList job :: tr0)
    ∧ ∃ v, Some iwres = Some v
        ∧ ((∃ err, r = Val (Some err))
           ∨ (r = Panic
              ∧ (iwr_Imagecache (iwres_ImageWorkRequest v) = None
                 ∨ iwr_Node (iwres_ImageWorkRequest v) = None)))).
  { intros err [= <- <- <-]. repeat split; [by repeat constructor|]. eauto 8. }
  destruct (podsList c job) as [[|pod0 [|]]|] eqn:Hpods;
    try (right; left; by eapply Hstop).
  clear Hstop.
  unfold hostname in Hrun. cbn [setStatus iwres_ImageWorkRequest] in Hrun.
  destruct (iwr_Node (iwres_ImageWorkRequest iwres)) eqn:Hnode; go_step Hrun.
  2:{ go_done Hrun. right; left. repeat split; [by repeat constructor|]. eauto 8. }
  rewrite pendingReason_request in Hrun.
  cbn [setStatus iwres_ImageWorkRequest] in Hrun.
  assert (Hpend : pending name iwres)
    by (split; [apply belongs_iff; by exists ic|done]).
  destruct (decide (iwr_WorkType (iwres_ImageWorkRequest iwres) ≠ ImageCachePurge))
    as [Hwt|Hwt].
  - rewrite bind_assoc in Hrun. go_step Hrun.
    destruct (eventsList c (pod_Name pod0)) as [items|] eqn:Hev;
      repeat go_step Hrun.
    + right; right.
      exists iwres, (appendEventMessages items
        (pendingReason pod0 (setStatus ImageWorkResultStatusFailed iwres))),
        [PodsList job; EventsList (pod_Name pod0)], tr.
      split_and!; [done|done|by eapply forced_pull|done|done
                  |by repeat constructor].
    + go_done Hrun. right; left. repeat split; [by repeat constructor|]. eauto 8.
  - repeat go_step Hrun. right; right.
    exists iwres,
      (pendingReason pod0 (setStatus ImageWorkResultStatusFailed iwres)),
      [PodsList job], tr0.
    split_and!; [done|done| |done|done|by repeat constructor].
    eapply forced_purge; [done|].
    by destruct (decide (iwr_WorkType (iwres_ImageWorkRequest iwres)
                         = ImageCachePurge)).
Qed.

(** The pass changes an entry only by resolving a pending one, whatever its
    outcome. *)
Lemma rangePending_lookup order : ∀ t r t' tr,
  rangePending c name order t = (r, t', tr) →
  ∀ k, t' !! k = t !! k
       ∨ ∃ v v', t !! k = Some v ∧ pending name v ∧ forced c k v v'
                 ∧ t' !! k = Some v'.
Proof.
  induction order as [|job rest IH]; intros t r t' tr Hrun k.
  { go_done Hrun. by left. }
  apply rangePending_cons in Hrun
    as [[Hrest _]|[(-> & _)|(v & v' & tr1 & tr2 & Hv & Hp & Hf & Hrest & _)]];
    [by eapply IH|by left|].
  destruct (IH _ _ _ _ Hrest k) as [Heq|(w & w' & Hw & Hwp & Hwf & Hw')].
  - rewrite Heq. destruct (decide (job = k)) as [<-|Hne].
    + rewrite lookup_insert_eq. right. eauto 6.
    + rewrite lookup_insert_ne by done. by left.
  - destruct (decide (job = k)) as [<-|Hne].
    + rewrite lookup_insert_eq in Hw. injection Hw as <-.
      by apply (forced_not_pending _ name) in Hf.
    + rewrite lookup_insert_ne in Hw by done. right. eauto 6.
Qed.

(** The pass asks the cluster for pods and events and does nothing else. *)
Lemma rangePending_trace order : ∀ t r t' tr,
  rangePending c name order t = (r, t', tr) →
  Forall (λ e, listing e = true) tr.
Proof.
  induction order as [|job rest IH]; intros t r t' tr Hrun.
  { go_done Hrun. constructor. }
  apply rangePending_cons in Hrun
    as [[Hrest _]|[(_ & Htr & _)|(v & v' & tr1 & tr2 & _ & _ & _ & Hrest & -> & Htr)]];
    [by eapply IH|done|].
  apply Forall_app. split; [done|by eapply IH].
Qed.

(** After a pass that returned no error, no entry met by the loop is
    pending. *)
Lemma rangePending_resolved order : ∀ t t' tr,
  rangePending c name order t = (Val None, t', tr) →
  ∀ k v', k ∈ order → t' !! k = Some v' → ¬ pending name v'.
Proof.
  induction order as [|job rest IH]; intros t t' tr Hrun k v' Hk Hv'.
  { by apply elem_of_nil in Hk. }
  assert (Hkeep : ∀ t1 r tr1 w,
    rangePending c name rest t1 = (r, t', tr1) →
    t1 !! k = w → (∀ u, w = Some u → ¬ pending name u) → ¬ pending name v').
  { intros t1 r tr1 w Hrest Hw Hnp.
    destruct (rangePending_lookup _ _ _ _ _ Hrest k)
      as [Heq|(u & u' & Hu & Hup & Hf & Hu')].
    - apply Hnp. congruence.
    - assert (u' = v') as <- by congruence.
      by eapply forced_not_pending. }
  apply rangePending_cons in Hrun
    as [[Hrest Hnp]|[(_ & _ & v & _ & [[err [=]]|[[=] _]])
                    |(v & w & tr1 & tr2 & Hv & Hp & Hf & Hrest & _)]].
  - apply elem_of_cons in Hk as [->|Hk]; [|by eapply IH].
    by eapply Hkeep.
  - apply elem_of_cons in Hk as [->|Hk]; [|by eapply IH].
    eapply Hkeep; [done|apply lookup_insert_eq|].
    intros u [= <-]. by eapply forced_not_pending.
Qed.

End Pending.

(** [updatePendingImageWorkResults] is its loop between [Lock] and the
    deferred [Unlock]. *)
Lemma updatePending_inv c name order t r t' tr :
  updatePendingImageWorkResults c name order t = (r, t', tr) →
  ∃ tr1, rangePending c name order t = (r, t', tr1)
         ∧ tr = (Lock :: tr1 ++ [Unlock])%list.
Proof.
  unfold updatePendingImageWorkResults. intros Hrun. go_step Hrun.
  apply defer_emit_inv in Hrun as (tr1 & Hrun & ->). by exists tr1.
Qed.

(** ** The poll *)

Section Poll.

Variable name : string.

(** The condition reads the table and leaves it alone; it panics only on
    an entry without image cache. *)
Lemma rangePoll_silent order : ∀ t,
  ∃ r, rangePoll name order t = (r, t, [])
       ∧ (r = Panic → ∃ k v, t !! k = Some v
            ∧ iwr_Imagecache (iwres_ImageWorkRequest v) = None).
Proof.
  induction order as [|job rest IH]; intros t; [by eexists|].
  cbn [rangePoll]. rewrite bind_getTable.
  destruct (t !! job) as [iwres|] eqn:Hjob; [|done].
  unfold imagecacheName.
  destruct (iwr_Imagecache (iwres_ImageWorkRequest iwres)) eqn:Hic;
    [rewrite bind_ret|eexists; eauto].
  repeat case_decide; try done. by eexists.
Qed.

Lemma pollCondition_silent order t :
  ∃ r, pollCondition name order t = (r, t, [RLock; RUnlock])
       ∧ (r = Panic → ∃ k v, t !! k = Some v
            ∧ iwr_Imagecache (iwres_ImageWorkRequest v) = None).
Proof.
  destruct (rangePoll_silent order t) as (r & Hr & Hp). exists r.
  unfold pollCondition, bind, defer, emit. by rewrite Hr.
Qed.

Lemma waitPoll_silent (orders : nat → list string) ticks : ∀ t,
  ∃ r n, waitPoll ticks (λ i, pollCondition name (orders i)) t
         = (r, t, pollTrace n)
       ∧ (r = Panic → ∃ k v, t !! k = Some v
            ∧ iwr_Imagecache (iwres_ImageWorkRequest v) = None).
Proof.
  induction ticks as [|ticks IH]; intros t; [by exists (Val tt), 0|].
  cbn [waitPoll].
  destruct (pollCondition_silent (orders ticks) t) as ([[|]|] & Hr & Hp).
  - exists (Val tt), 1. unfold bind, emit. by rewrite Hr.
  - destruct (IH t) as (r & n & Hn & Hpn). exists r, (S n).
    unfold bind, emit. rewrite Hr.
    fold (bind (A:=unit) (B:=unit)). by rewrite Hn.
  - exists Panic, 1. unfold bind, emit. rewrite Hr. eauto.
Qed.

End Poll.

(** ** The loop that copies, removes and deletes *)

Section Clear.

Variable c : Cluster.
Variable name : string.

(** One turn of the loop: the entry is passed over, or reading it panics, or
    it is copied and removed and the loop goes on, or it is copied and
    removed and the deletion of its job fails. *)
Lemma rangeClear_cons job rest snap ic t r t' tr :
  rangeClear c name (job :: rest) snap ic t = (r, t', tr) →
  (rangeClear c name rest snap ic t = (r, t', tr)
   ∧ ∀ v, t !! job = Some v → ¬ belongs name v)
  ∨ (r = Panic ∧ t' = t ∧ tr = []
     ∧ ∃ v, t !! job = Some v
            ∧ iwr_Imagecache (iwres_ImageWorkRequest v) = None)
  ∨ (∃ v tr2,
       t !! job = Some v ∧ belongs name v
       ∧ rangeClear c name rest (<[job:=v]> snap)
           (iwr_Imagecache (iwres_ImageWorkRequest v)) (delete job t)
         = (r, t', tr2)
       ∧ ((fake job ∧ tr = tr2)
          ∨ (¬ fake job ∧ jobsDelete c job = None ∧ tr = JobsDelete job :: tr2)))
  ∨ (∃ v err,
       t !! job = Some v ∧ belongs name v ∧ ¬ fake job
       ∧ jobsDelete c job = Some err
       ∧ r = Val (<[job:=v]> snap, iwr_Imagecache (iwres_ImageWorkRequest v),
                  Some err)
       ∧ t' = delete job t ∧ tr = [JobsDelete job]).
Proof.
  intros Hrun. cbn [rangeClear] in Hrun. go_step Hrun.
  destruct (t !! job) as [iwres|] eqn:Hjob; [|left; by split].
  unfold imagecacheName in Hrun.
  destruct (iwr_Imagecache (iwres_ImageWorkRequest iwres)) as [i|] eqn:Hic;
    go_step Hrun.
  2:{ go_done Hrun. right; left. eauto 8. }
  destruct (decide (ic_Name i = name)) as [Hname|Hname].
  2:{ left. split; [done|].
      intros v [= <-] (i' & Hi' & ?)%belongs_iff. congruence. }
  assert (Hb : belongs name iwres) by (apply belongs_iff; by exists i).
  repeat go_step Hrun. unfold fake.
  destruct (String.prefix fakeJobPrefix job) eqn:Hfake; cbn [negb] in Hrun.
  { right; right; left. exists iwres, tr. rewrite Hic. eauto 8. }
  go_step Hrun.
  destruct (jobsDelete c job) as [err|] eqn:Hdel.
  - go_done Hrun. right; right; right. exists iwres, err. rewrite Hic.
    split_and!; try done.
  - right; right; left. exists iwres, tr0. rewrite Hic.
    split_and!; try done. right. split_and!; done.
Qed.

(** The loop changes the table only by removing entries of the cache. *)
Lemma rangeClear_lookup order : ∀ snap ic t r t' tr,
  rangeClear c name order snap ic t = (r, t', tr) →
  ∀ k, t' !! k = t !! k
       ∨ ∃ v, t !! k = Some v ∧ belongs name v ∧ t' !! k = None.
Proof.
  induction order as [|job rest IH]; intros snap ic t r t' tr Hrun k.
  { go_done Hrun. by left. }
  apply rangeClear_cons in Hrun
    as [[Hrest _]|[(_ & -> & _)|[(v & tr2 & Hv & Hb & Hrest & _)
                                |(v & err & Hv & Hb & _ & _ & _ & -> & _)]]].
  - by eapply IH.
  - by left.
  - destruct (decide (job = k)) as [<-|Hne].
    + right. exists v. split_and!; [done|done|].
      destruct (IH _ _ _ _ _ _ Hrest job) as [->|(? & _ & _ & ?)]; [|done].
      apply lookup_delete_eq.
    + destruct (IH _ _ _ _ _ _ Hrest k) as [->|(w & Hw & Hwb & ?)].
      * left. by apply lookup_delete_ne.
      * right. exists w. by rewrite lookup_delete_ne in Hw.
  - destruct (decide (job = k)) as [<-|Hne].
    + right. exists v. by rewrite lookup_delete_eq.
    + left. by apply lookup_delete_ne.
Qed.

(** What the loop removes from the table is what it copies. *)
Lemma rangeClear_snapshot order : ∀ snap ic t snap' ic' err t' tr,
  rangeClear c name order snap ic t = (Val (snap', ic', err), t', tr) →
  ∀ k, (t' !! k = t !! k ∧ snap' !! k = snap !! k)
       ∨ ∃ v, t !! k = Some v ∧ belongs name v ∧ t' !! k = None
              ∧ snap' !! k = Some v.
Proof.
  induction order as [|job rest IH]; intros snap ic t snap' ic' err t' tr Hrun k.
  { go_done Hrun. by left. }
  apply rangeClear_cons in Hrun
    as [[Hrest _]|[([=] & _)|[(v & tr2 & Hv & Hb & Hrest & _)
                             |(v & e & Hv & Hb & _ & _ & [= -> -> ->] & -> & _)]]].
  - by eapply IH.
  - destruct (decide (job = k)) as [<-|Hne].
    + right. exists v. split_and!; [done|done| |].
      * destruct (rangeClear_lookup _ _ _ _ _ _ _ Hrest job)
          as [->|(? & _ & _ & ?)]; [|done].
        apply lookup_delete_eq.
      * destruct (IH _ _ _ _ _ _ _ _ Hrest job)
          as [[_ ->]|(w & Hw & _)]; [apply lookup_insert_eq|].
        by rewrite lookup_delete_eq in Hw.
    + destruct (IH _ _ _ _ _ _ _ _ Hrest k)
        as [[-> ->]|(w & Hw & Hwb & ? & ?)].
      * left. by rewrite lookup_delete_ne, lookup_insert_ne.
      * right. exists w. by rewrite lookup_delete_ne in Hw.
  - destruct (decide (job = k)) as [<-|Hne].
    + right. exists v. by rewrite lookup_delete_eq, lookup_insert_eq.
    + left. by rewrite lookup_delete_ne, lookup_insert_ne.
Qed.

(** After a loop that ended without error, no entry met by the loop is one
    of the cache. *)
Lemma rangeClear_cleared order : ∀ snap ic t snap' ic' t' tr,
  rangeClear c name order snap ic t = (Val (snap', ic', None), t', tr) →
  ∀ k v, k ∈ order → t' !! k = Some v → ¬ belongs name v.
Proof.
  induction order as [|job rest IH]; intros snap ic t snap' ic' t' tr Hrun k v Hk Hv.
  { by apply elem_of_nil in Hk. }
  apply rangeClear_cons in Hrun
    as [[Hrest Hnb]|[([=] & _)|[(w & tr2 & Hw & Hb & Hrest & _)
                               |(w & e & _ & _ & _ & _ & [=] & _)]]].
  - apply elem_of_cons in Hk as [->|Hk]; [|by eapply IH].
    destruct (rangeClear_lookup _ _ _ _ _ _ _ Hrest job) as [Heq|(? & _ & _ & ?)];
      [|congruence].
    apply Hnb. congruence.
  - apply elem_of_cons in Hk as [->|Hk]; [|by eapply IH].
    destruct (rangeClear_lookup _ _ _ _ _ _ _ Hrest job) as [Heq|(? & _ & _ & ?)];
      [|congruence].
    rewrite lookup_delete_eq in Heq. congruence.
Qed.

(** The loop asks for deletions and does nothing else. *)
Lemma rangeClear_trace order : ∀ snap ic t r t' tr,
  rangeClear c name order snap ic t = (r, t', tr) →
  Forall (λ e, deleting e = true) tr.
Proof.
  induction order as [|job rest IH]; intros snap ic t r t' tr Hrun.
  { go_done Hrun. constructor. }
  apply rangeClear_cons in Hrun
    as [[Hrest _]|[(_ & _ & -> & _)
       |[(v & tr2 & _ & _ & Hrest & [[_ ->]|(_ & _ & ->)])
        |(v & err & _ & _ & _ & _ & _ & _ & ->)]]].
  - by eapply IH.
  - constructor.
  - by eapply IH.
  - constructor; [done|by eapply IH].
  - by repeat constructor.
Qed.

(** The loop leaves [imageCache] alone only when it removes nothing; what it
    puts there is the cache of an entry it removed. *)
Lemma rangeClear_imageCache order : ∀ snap ic t snap' ic' err t' tr,
  rangeClear c name order snap ic t = (Val (snap', ic', err), t', tr) →
  (ic' = ic ∧ snap' = snap ∧ t' = t ∧ tr = [] ∧ err = None)
  ∨ ∃ i, ic' = Some i ∧ ic_Name i = name.
Proof.
  induction order as [|job rest IH]; intros snap ic t snap' ic' err t' tr Hrun.
  { go_done Hrun. by left. }
  apply rangeClear_cons in Hrun
    as [[Hrest _]|[([=] & _)
       |[(v & tr2 & Hv & (i & Hi & Hn)%belongs_iff & Hrest & _)
        |(v & e & Hv & (i & Hi & Hn)%belongs_iff & _ & _ & [= -> -> ->] & _)]]].
  - by eapply IH.
  - destruct (IH _ _ _ _ _ _ _ _ Hrest) as [(-> & _)|?]; [|by right].
    right. by exists i.
  - right. by exists i.
Qed.

End Clear.

(** ** A run of the deadline reconciler *)

Lemma bind_inv {A B} (x : M A) (f : A → M B) t r t' tr :
  bind x f t = (r, t', tr) →
  (∃ a t1 tr1 tr2, x t = (Val a, t1, tr1) ∧ f a t1 = (r, t', tr2)
                   ∧ tr = (tr1 ++ tr2)%list)
  ∨ (x t = (Panic, t', tr) ∧ r = Panic).
Proof.
  unfold bind. destruct (x t) as [[[a|] t1] tr1].
  - destruct (f a t1) as [[r2 t2] tr2] eqn:Hf. intros [= <- <- <-].
    left. by exists a, t1, tr1, tr2.
  - intros [= <- <- <-]. by right.
Qed.

(** Equal traces up to the bracketing of [++]. *)
Ltac trace_eq :=
  repeat (simpl; rewrite <- ?app_assoc); try done; repeat f_equal.

Section Run.

Variable c : Cluster.
Variable m : ImageManager.
Variable name : string.
Variable o : MapOrders.

(** The ways a run can go: the poll panics; or the forced-resolution pass
    panics or returns an error, which is sent; or the removal loop panics or
    stops on a failed deletion, which is sent; or no image cache was found or
    its key cannot be made, which is sent; or the snapshot is added to the
    work queue and [nil] is sent. *)
Lemma updateImageCacheStatus_inv t r t' tr :
  updateImageCacheStatus c m name o t = (r, t', tr) →
  ∃ n,
    (r = Panic ∧ t' = t ∧ tr = pollTrace n
     ∧ ∃ k v, t !! k = Some v
              ∧ iwr_Imagecache (iwres_ImageWorkRequest v) = None)
    ∨ ∃ rp t1 tr1,
        rangePending c name (pendingOrder o) t = (rp, t1, tr1)
        ∧ match rp with
          | Panic =>
              r = Panic ∧ t' = t1
              ∧ tr = (pollTrace n ++ Lock :: tr1 ++ [Unlock])%list
          | Val (Some err) =>
              r = Val tt ∧ t' = t1
              ∧ tr = (pollTrace n ++ Lock :: tr1
                        ++ [Unlock; ChanSend (Some err)])%list
          | Val None =>
              ∃ rc tr2,
                rangeClear c name (clearOrder o) ∅ None t1 = (rc, t', tr2)
                ∧ match rc with
                  | Panic =>
                      r = Panic
                      ∧ tr = (pollTrace n ++ Lock :: tr1
                                ++ Unlock :: Lock :: tr2)%list
                  | Val (snap, ic, err) =>
                      r = Val tt
                      ∧ ∃ tail,
                          tr = (pollTrace n ++ Lock :: tr1
                                  ++ Unlock :: Lock :: tr2
                                  ++ Unlock :: tail)%list
                          ∧ match err, ic with
                            | Some err, _ => tail = [ChanSend (Some err)]
                            | None, None =>
                                tail = [ChanSend (Some
                                  "unable to obtain reference to image cache")]
                            | None, Some ic =>
                                match MetaNamespaceKeyFunc c ic with
                                | inr err => tail = [ChanSend (Some err)]
                                | inl objKey =>
                                    tail =
                                      [WorkqueueAddRateLimited
                                         {| wqk_WorkType := ImageCacheStatusUpdate;
                                            wqk_ObjKey := objKey;
                                            wqk_Status := Some snap;
                                            wqk_OldImageCache := None |};
                                       ChanSend None]
                                end
                            end
                  end
          end.
Proof.
  unfold updateImageCacheStatus. intros Hrun.
  destruct (waitPoll_silent name (pollOrder o)
              (S (imagePullDeadlineDuration m)) t)
    as (rw & n & Hpoll & Hnil).
  exists n.
  apply bind_inv in Hrun
    as [(u & t0 & tr0 & trA & Hw & Hrun & ->)|[Hw ->]];
    rewrite Hpoll in Hw.
  2:{ injection Hw as -> <- <-. left. eauto. }
  injection Hw as -> <- <-. right.
  apply bind_inv in Hrun
    as [(err & t1 & trB & trC & Hp & Hrun & ->)|[Hp ->]];
    apply updatePending_inv in Hp as (tr1 & Hp & ->).
  2:{ exists Panic, t', tr1. by split. }
  exists (Val err), t1, tr1. split; [done|].
  destruct err as [err|].
  { injection Hrun as <- <- <-. split_and!; [done|done|]. trace_eq. }
  go_step Hrun.
  apply bind_inv in Hrun
    as [([[snap ic] err] & t2 & tr2 & trD & Hc & Hrun & ->)|[Hc ->]].
  2:{ exists Panic, tr. split; [done|]. split; [done|]. trace_eq. }
  exists (Val (snap, ic, err)), tr2.
  assert (t' = t2 ∧ r = Val tt ∧ ∃ tail, trD = Unlock :: tail ∧
    match err, ic with
    | Some err, _ => tail = [ChanSend (Some err)]
    | None, None =>
        tail = [ChanSend (Some "unable to obtain reference to image cache")]
    | None, Some ic =>
        match MetaNamespaceKeyFunc c ic with
        | inr err => tail = [ChanSend (Some err)]
        | inl objKey =>
            tail = [WorkqueueAddRateLimited
                      {| wqk_WorkType := ImageCacheStatusUpdate;
                         wqk_ObjKey := objKey;
                         wqk_Status := Some snap;
                         wqk_OldImageCache := None |};
                    ChanSend None]
        end
    end) as (-> & -> & tail & -> & Htail).
  { destruct err as [err|].
    - go_step Hrun. injection Hrun as <- <- <-. eauto.
    - go_step Hrun. destruct ic as [ic|].
      + destruct (MetaNamespaceKeyFunc c ic) as [objKey|err] eqn:Hkey.
        * go_step Hrun. injection Hrun as <- <- <-.
          split_and!; [done|done|]. eexists. by split.
        * injection Hrun as <- <- <-.
          split_and!; [done|done|]. eexists. by split.
      + injection Hrun as <- <- <-. eauto. }
  split; [done|]. split; [done|]. exists tail. split; [|done].
  trace_eq.
Qed.

End Run.

(** ** Reading traces *)

Lemma sent_app tr1 tr2 : sent (tr1 ++ tr2) = (sent tr1 ++ sent tr2)%list.
Proof. apply omap_app. Qed.

Lemma emitted_app tr1 tr2 :
  emitted (tr1 ++ tr2) = (emitted tr1 ++ emitted tr2)%list.
Proof. apply omap_app. Qed.

Lemma deleted_app tr1 tr2 :
  deleted (tr1 ++ tr2) = (deleted tr1 ++ deleted tr2)%list.
Proof. apply omap_app. Qed.

Lemma pollTrace_quiet n :
  sent (pollTrace n) = [] ∧ emitted (pollTrace n) = []
  ∧ deleted (pollTrace n) = []
  ∧ List.filter (λ e, listing e || deleting e) (pollTrace n) = [].
Proof.
  induction n as [|n (IH1 & IH2 & IH3 & IH4)]; [done|].
  change (pollTrace (S n)) with ([Sleep; RLock; RUnlock] ++ pollTrace n)%list.
  rewrite sent_app, emitted_app, deleted_app, List.filter_app.
  by rewrite IH1, IH2, IH3, IH4.
Qed.

Lemma pollTrace_lock n tr :
  underLock false (pollTrace n ++ tr) = underLock false tr.
Proof.
  induction n as [|n IH]; [done|].
  change (pollTrace (S n)) with ([Sleep; RLock; RUnlock] ++ pollTrace n)%list.
  by rewrite <- app_assoc.
Qed.

Lemma listing_quiet tr :
  Forall (λ e, listing e = true) tr →
  sent tr = [] ∧ emitted tr = [] ∧ deleted tr = []
  ∧ List.filter (λ e, listing e || deleting e) tr = tr.
Proof.
  induction 1 as [|e tr He _ (IH1 & IH2 & IH3 & IH4)]; [done|].
  destruct e; try discriminate; simpl; by rewrite ?IH4.
Qed.

Lemma deleting_quiet tr :
  Forall (λ e, deleting e = true) tr →
  sent tr = [] ∧ emitted tr = []
  ∧ List.filter (λ e, listing e || deleting e) tr = tr.
Proof.
  induction 1 as [|e tr He _ (IH1 & IH2 & IH4)]; [done|].
  destruct e; try discriminate; simpl; by rewrite ?IH4.
Qed.

(** A stretch of listings or deletions made with the lock held is under the
    lock as a whole. *)
Lemma underLock_calls tr rest :
  Forall (λ e, listing e || deleting e = true) tr →
  underLock true (tr ++ rest) = (tr ++ underLock true rest)%list.
Proof.
  induction 1 as [|e tr He _ IH]; [done|].
  destruct e; try discriminate; simpl; by rewrite IH.
Qed.

Lemma Forall_listing_calls tr :
  Forall (λ e, listing e = true) tr →
  Forall (λ e, listing e || deleting e = true) tr.
Proof. intros H. eapply Forall_impl; [done|]. by intros e ->. Qed.

Lemma Forall_deleting_calls tr :
  Forall (λ e, deleting e = true) tr →
  Forall (λ e, listing e || deleting e = true) tr.
Proof.
  intros H. eapply Forall_impl; [done|]. intros e ->. apply orb_true_r.
Qed.

(** ** Forced resolution leaves resolved entries alone *)



(** ** The pod status observer *)

Lemma handlePodStatusChange_trace pod t :
  ∃ tr, trace (handlePodStatusChange pod t) = RLock :: tr.
Proof.
  unfold handlePodStatusChange, bind at 1, emit at 1.
  match goal with |- context [match ?x with _ => _ end] =>
    destruct x as [[r t'] tr] end.
  by exists tr.
Qed.

(** C8, as the code has it.  For a pod update notification the handler is
    called if and only if the resource version changed, the new phase is
    [Succeeded] or [Failed], and the old phase is neither [Succeeded] nor
    [Failed]; when it is called the update function does what the handler
    does on the new pod, and otherwise it does nothing. *)
Theorem update_fires_iff (old new : Pod) (t : gmap string ImageWorkResult) :
  (fires old new t
   ↔ pod_ResourceVersion new ≠ pod_ResourceVersion old
     ∧ (Phase (pod_Status new) = PodSucceeded
        ∨ Phase (pod_Status new) = PodFailed)
     ∧ Phase (pod_Status old) ≠ PodSucceeded
     ∧ Phase (pod_Status old) ≠ PodFailed)
  ∧ (fires old new t → UpdateFunc old new t = handlePodStatusChange new t)
  ∧ (¬ fires old new t → UpdateFunc old new t = (Val tt, t, [])).
Proof.
  unfold fires, UpdateFunc.
  destruct (handlePodStatusChange_trace new t) as [tr Htr].
  destruct (decide (pod_ResourceVersion new = pod_ResourceVersion old)) as [Hrv|Hrv].
  { split_and!; [|done|done]. split; [done|]. by intros [? _]. }
  case_decide as Hph.
  - assert (Hfire : trace (handlePodStatusChange new t) ≠ [])
      by (by rewrite Htr).
    split_and!; [|done|done].
    split; [|done]. intros _. by destruct Hph as [? [? ?]].
  - split_and!; [|done|done]. split; [done|].
    intros (_ & ? & ? & ?). by destruct Hph.
Qed.

(** C8 as stated does not hold: the pod went from [Succeeded] to [Failed]
    under a new resource version, so the new phase is [Failed] and the prior
    phase is a different one, and the handler is not called. *)
Lemma update_fires_counterexample :
  pod_ResourceVersion podAfter ≠ pod_ResourceVersion podBefore
  ∧ Phase (pod_Status podAfter) = PodFailed
  ∧ Phase (pod_Status podBefore) ≠ Phase (pod_Status podAfter)
  ∧ ¬ fires podBefore podAfter t0.
Proof.
  split_and!; [done|done|done|]. intros H. by apply H.
Qed.

(** C9, where the code breaks it.  A [Failed] pod that reports no container
    status, for a job that has an entry: the handler indexes
    [ContainerStatuses[0]] and panics, and the table is left as it was.  A
    [Failed] pod that reports two container statuses, the first of them
    terminated: the handler copies that reason and message although more
    than one status is reported. *)
Theorem failed_pod_statuses :
  handlePodStatusChange (podOf "job1" PodFailed []) t0
  = (Panic, t0, [RLock; RUnlock])
  ∧ table (handlePodStatusChange
             (podOf "job1" PodFailed
                [terminatedWith "Error" "exit status 1";
                 terminatedWith "OOMKilled" "out of memory"]) t0) !! "job1"
    = Some {| iwres_ImageWorkRequest := request ImageCacheCreate;
              iwres_Status := ImageWorkResultStatusFailed;
              iwres_Reason := "Error";
              iwres_Message := "exit status 1" |}.
Proof. split; reflexivity. Qed.

(** ** The dispatcher *)

Section Dispatcher.

Variable c : Cluster.
Variable m : ImageManager.

(** Whatever the item, the dispatcher does nothing while it holds the lock
    but write the table, puts nothing back on its queue and receives
    nothing. *)
Lemma processNextWorkItem_trace got t :
  underLock false (trace (processNextWorkItem c m got t)) = []
  ∧ requeued (trace (processNextWorkItem c m got t)) = []
  ∧ received (trace (processNextWorkItem c m got t)) = 0.
Proof.
  destruct got as [obj [|]]; [done|].
  unfold processNextWorkItem, processItem, record, deleteImage, pullImage,
    hostname, imagecacheName.
  destruct obj as [iwr|description]; [|done].
  destruct (iwr_Imagecache iwr), (iwr_Node iwr),
    (newImageDeleteJob c _ _ _ _ _) as [?|?],
    (newImagePullJob c _ _ _ _) as [?|?],
    (checkIfImageNeedsToBePulled c _ _ _) as [[|]|?];
    repeat case_decide;
    try (destruct (jobsCreate c _) as [?|?]); done.
Qed.

End Dispatcher.

(** C3, where the code breaks it.  A purge item whose job cannot be created,
    a pull item whose job cannot be created and a pull item whose
    pull-necessity check fails: the dispatcher records no entry, marks the
    item done and hands the error to [HandleError]; it does not add the item
    to the queue again, so the queue has nothing to deliver later. *)
Theorem failed_dispatch_is_not_requeued :
  processNextWorkItem clusterNoCreate m0
    (ItemImageWorkRequest (request ImageCachePurge), false) t0
  = (Val true, t0,
     [JobsCreate {| job_Name := "del-1" |};
      ImageworkqueueDone (ItemImageWorkRequest (request ImageCachePurge));
      HandleError
        "error deleting image 'nginx:1.25' from node 'node1': the server is currently unable to handle the request"])
  ∧ processNextWorkItem clusterNoCreate m0
      (ItemImageWorkRequest (request ImageCacheCreate), false) t0
    = (Val true, t0,
       [JobsCreate {| job_Name := "pull-1" |};
        ImageworkqueueDone (ItemImageWorkRequest (request ImageCacheCreate));
        HandleError
          "error pulling image 'nginx:1.25' to node 'node1': the server is currently unable to handle the request"])
  ∧ processNextWorkItem clusterNoCheck m0
      (ItemImageWorkRequest (request ImageCacheCreate), false) t0
    = (Val true, t0,
       [ImageworkqueueDone (ItemImageWorkRequest (request ImageCacheCreate));
        HandleError
          "error from checkIfImageNeedsToBePulled(): invalid image reference"])
  ∧ ∀ c m got t, requeued (trace (processNextWorkItem c m got t)) = [].
Proof.
  split_and!; [reflexivity..|].
  intros c m got t. apply processNextWorkItem_trace.
Qed.

(** ** Locks and sends of a run *)

Lemma lock_segment tr rest :
  Forall (λ e, listing e || deleting e = true) tr →
  underLock false (Lock :: tr ++ Unlock :: rest)
  = (tr ++ underLock false rest)%list
  ∧ List.filter (λ e, listing e || deleting e) (Lock :: tr ++ Unlock :: rest)
    = (tr ++ List.filter (λ e, listing e || deleting e) rest)%list.
Proof.
  intros Htr. split.
  - cbn [underLock]. by rewrite underLock_calls.
  - cbn [List.filter listing deleting orb]. rewrite List.filter_app.
    f_equal. clear rest.
    induction Htr as [|e tr He _ IH]; [done|]. simpl. by rewrite He, IH.
Qed.

Lemma lock_open tr :
  Forall (λ e, listing e || deleting e = true) tr →
  underLock false (Lock :: tr) = tr
  ∧ List.filter (λ e, listing e || deleting e) (Lock :: tr) = tr.
Proof.
  intros Htr. split.
  - cbn [underLock]. rewrite <- (app_nil_r tr) at 1.
    rewrite underLock_calls by done. apply app_nil_r.
  - cbn [List.filter listing deleting orb].
    induction Htr as [|e tr He _ IH]; [done|]. simpl. by rewrite He, IH.
Qed.






Section RunTraces.

Variable c : Cluster.
Variable m : ImageManager.
Variable name : string.
Variable o : MapOrders.

(** In a run, what is done with the lock held is the listings of forced
    resolution and the deletions of the removal loop, all of them, and
    nothing else. *)
Lemma updateImageCacheStatus_lock t :
  underLock false (trace (updateImageCacheStatus c m name o t))
  = List.filter (λ e, listing e || deleting e)
      (trace (updateImageCacheStatus c m name o t)).
Proof.
  destruct (updateImageCacheStatus c m name o t) as [[r t'] tr] eqn:Hrun.
  apply updateImageCacheStatus_inv in Hrun
    as (n & [(_ & _ & -> & _)|(rp & t1 & tr1 & Hp & Hrun)]); unfold trace; simpl.
  { rewrite <- (app_nil_r (pollTrace n)) at 1. rewrite pollTrace_lock.
    by destruct (pollTrace_quiet n) as (_ & _ & _ & ->). }
  pose proof (Forall_listing_calls _ (rangePending_trace _ _ _ _ _ _ _ Hp)) as H1.
  assert (Hpoll : ∀ rest,
    underLock false (pollTrace n ++ rest) = underLock false rest
    ∧ List.filter (λ e, listing e || deleting e) (pollTrace n ++ rest)
      = List.filter (λ e, listing e || deleting e) rest).
  { intros rest. rewrite pollTrace_lock, List.filter_app.
    by destruct (pollTrace_quiet n) as (_ & _ & _ & ->). }
  destruct rp as [[err|]|].
  - destruct Hrun as (_ & _ & ->).
    destruct (Hpoll (Lock :: tr1 ++ [Unlock; ChanSend (Some err)])%list) as [-> ->].
    by destruct (lock_segment tr1 [ChanSend (Some err)] H1) as [-> ->].
  - destruct Hrun as (rc & tr2 & Hc & Hrun).
    pose proof (Forall_deleting_calls _ (rangeClear_trace _ _ _ _ _ _ _ _ _ Hc))
      as H2.
    destruct rc as [[[snap ic] err]|].
    + destruct Hrun as (_ & tail & -> & Htail).
      destruct (Hpoll (Lock :: tr1 ++ Unlock :: Lock :: tr2 ++ Unlock :: tail)%list)
        as [-> ->].
      destruct (lock_segment tr1 (Lock :: tr2 ++ Unlock :: tail)%list H1)
        as [-> ->].
      destruct (lock_segment tr2 tail H2) as [-> ->].
      do 2 f_equal.
      destruct err; [by subst|]. destruct ic; [|by subst].
      by destruct (MetaNamespaceKeyFunc c _); subst.
    + destruct Hrun as (_ & ->).
      destruct (Hpoll (Lock :: tr1 ++ Unlock :: Lock :: tr2)%list) as [-> ->].
      destruct (lock_segment tr1 (Lock :: tr2)%list H1) as [-> ->].
      by destruct (lock_open tr2 H2) as [-> ->].
  - destruct Hrun as (_ & _ & ->).
    destruct (Hpoll (Lock :: tr1 ++ [Unlock])%list) as [-> ->].
    by destruct (lock_segment tr1 [] H1) as [-> ->].
Qed.


End RunTraces.

(** ** The lock *)

(** The observer holds the lock for the lookup and for the write and for
    nothing else. *)
Lemma handlePodStatusChange_lock pod t :
  underLock false (trace (handlePodStatusChange pod t)) = [].
Proof.
  unfold handlePodStatusChange, hostname.
  unfold bind at 1, emit at 1. rewrite bind_getTable.
  unfold bind at 1, emit at 1.
  destruct (t !! label (pod_Labels pod) "job-name") as [iwres|]; [|done].
  cbn [setStatus iwres_ImageWorkRequest].
  repeat case_decide;
    try (exfalso; unfold PodSucceeded, PodFailed in *; congruence);
    destruct (iwr_Node (iwres_ImageWorkRequest iwres)),
      (ContainerStatuses (pod_Status pod)) as [|cs0 ?]; try done.
  all: cbn [lookup list_lookup]; rewrite bind_ret;
    destruct (Terminated (State cs0)); cbn [setStatus setReason setMessage
      iwres_ImageWorkRequest]; by destruct (iwr_Node _).
Qed.

(** C5, as the code has it.  The pod status observer and the dispatcher do
    nothing while they hold the lock of the work status table except read or
    write the table.  In a run of the deadline reconciler the sleeps of the
    poll, the send on the completion channel and the addition to the work
    queue are made without the lock, but every listing of pods, every query
    of events and every deletion of a job is made with the exclusive lock
    held, and nothing else is. *)
Theorem lock_scope (c : Cluster) (m : ImageManager) :
  (∀ pod t, underLock false (trace (handlePodStatusChange pod t)) = [])
  ∧ (∀ got t, underLock false (trace (processNextWorkItem c m got t)) = [])
  ∧ (∀ name o t,
       underLock false (trace (updateImageCacheStatus c m name o t))
       = List.filter (λ e, listing e || deleting e)
           (trace (updateImageCacheStatus c m name o t))).
Proof.
  split_and!.
  - apply handlePodStatusChange_lock.
  - intros got t. apply processNextWorkItem_trace.
  - apply updateImageCacheStatus_lock.
Qed.

(** C5 as stated does not hold: in this run the events of the pod of [job1]
    are queried and the jobs [job1] and [job2] are deleted, through the
    client of the API server, between [Lock] and [Unlock]. *)
Lemma lock_scope_counterexample :
  underLock false
    (trace (updateImageCacheStatus cluster0 m0 "ic1" (orders ["job1"; "job2"]) t0))
  = [PodsList "job1"; EventsList "job1-pod"; JobsDelete "job1"; JobsDelete "job2"]
  ∧ ¬ lockScoped
        (trace (updateImageCacheStatus cluster0 m0 "ic1"
                  (orders ["job1"; "job2"]) t0)).
Proof.
  split; [reflexivity|]. unfold lockScoped.
  change (underLock false _) with
    [PodsList "job1"; EventsList "job1-pod"; JobsDelete "job1"; JobsDelete "job2"].
  intros H. apply Forall_cons in H as [_ H]. by apply Forall_cons in H as [? _].
Qed.

(** ** Tables without nil pointers, and tables without entries of the cache *)

Lemma wellFormed_lookup t k v :
  wellFormed t → t !! k = Some v →
  is_Some (iwr_Imagecache (iwres_ImageWorkRequest v))
  ∧ is_Some (iwr_Node (iwres_ImageWorkRequest v)).
Proof. intros Hwf Hv. by apply (Hwf k v). Qed.

Lemma wellFormed_forced c t job v v' :
  wellFormed t → t !! job = Some v → forced c job v v' →
  wellFormed (<[job:=v']> t).
Proof.
  intros Hwf Hv Hf. apply map_Forall_insert_2; [|done].
  rewrite (forced_request _ _ _ _ Hf). by eapply wellFormed_lookup.
Qed.

Section Foreign.

Variable c : Cluster.
Variable name : string.

(** Without entries of the cache both loops do nothing. *)
Lemma rangePending_foreign order t :
  foreign name t → rangePending c name order t = (Val None, t, []).
Proof.
  intros Hf. induction order as [|job rest IH]; [done|].
  cbn [rangePending]. rewrite bind_getTable.
  destruct (t !! job) as [iwres|] eqn:Hjob; [|done].
  destruct (Hf job iwres Hjob) as [[ic Hic] Hnb].
  unfold imagecacheName. rewrite Hic, bind_ret.
  case_decide as Hn; [|done]. destruct Hnb. apply belongs_iff. eauto.
Qed.

Lemma rangeClear_foreign order snap ic t :
  foreign name t →
  rangeClear c name order snap ic t = (Val (snap, ic, None), t, []).
Proof.
  intros Hf. induction order as [|job rest IH]; [done|].
  cbn [rangeClear]. rewrite bind_getTable.
  destruct (t !! job) as [iwres|] eqn:Hjob; [|done].
  destruct (Hf job iwres Hjob) as [[i Hi] Hnb].
  unfold imagecacheName. rewrite Hi, bind_ret.
  case_decide as Hn; [|done]. destruct Hnb. apply belongs_iff. eauto.
Qed.

End Foreign.

(** ** A run that finds no entry of its cache *)

(** C10. When no entry of the table is of the cache of the flush item (every
    entry being of some other cache), the run leaves the table as it is,
    requests no deletion, adds nothing to the work queue of the
    reconciliation loop, and sends the error [unable to obtain reference to
    image cache] on its channel. *)
Theorem missing_cache_reference
    (c : Cluster) (m : ImageManager) (name : string) (o : MapOrders)
    (t : gmap string ImageWorkResult) :
  foreign name t →
  result (updateImageCacheStatus c m name o t) = Val tt
  ∧ table (updateImageCacheStatus c m name o t) = t
  ∧ sent (trace (updateImageCacheStatus c m name o t))
    = [Some "unable to obtain reference to image cache"]
  ∧ emitted (trace (updateImageCacheStatus c m name o t)) = []
  ∧ deleted (trace (updateImageCacheStatus c m name o t)) = [].
Proof.
  intros Hf.
  destruct (updateImageCacheStatus c m name o t) as [[r t'] tr] eqn:Hrun.
  unfold result, table, trace; simpl.
  apply updateImageCacheStatus_inv in Hrun
    as (n & [(_ & _ & _ & k & v & Hv & Hnil)|(rp & t1 & tr1 & Hp & Hrun)]).
  { destruct (Hf k v Hv) as [[ic Hic] _]. congruence. }
  rewrite (rangePending_foreign c name _ t Hf) in Hp.
  injection Hp as <- <- <-.
  destruct Hrun as (rc & tr2 & Hc & Hrun).
  rewrite (rangeClear_foreign c name _ _ _ t Hf) in Hc.
  injection Hc as <- <- <-.
  destruct Hrun as (-> & tail & -> & ->).
  destruct (pollTrace_quiet n) as (Hs & He & Hd & _).
  by rewrite sent_app, emitted_app, deleted_app, Hs, He, Hd.
Qed.

Lemma missing_cache_reference_witness :
  foreign "ic2" t0
  ∧ sent (trace (updateImageCacheStatus cluster0 m0 "ic2"
                   (orders ["job1"; "job2"]) t0))
    = [Some "unable to obtain reference to image cache"].
Proof.
  split; [compute_done|].
  apply (missing_cache_reference cluster0 m0 "ic2" (orders ["job1"; "job2"]) t0).
  compute_done.
Defined.

(** ** A job with no pod or with several pods *)

Section Ambiguous.

Variable c : Cluster.
Variable name : string.


End Ambiguous.

(** What shows of a run after the forced-resolution pass is what shows of
    the steps after the pass. *)
Lemma observe_after_pass n tr1 tail :
  Forall (λ e, listing e = true) tr1 →
  sent (pollTrace n ++ Lock :: tr1 ++ Unlock :: tail) = sent tail
  ∧ emitted (pollTrace n ++ Lock :: tr1 ++ Unlock :: tail) = emitted tail
  ∧ deleted (pollTrace n ++ Lock :: tr1 ++ Unlock :: tail) = deleted tail.
Proof.
  intros (Hs1 & He1 & Hd1 & _)%listing_quiet.
  destruct (pollTrace_quiet n) as (Hs0 & He0 & Hd0 & _).
  change (Lock :: tr1 ++ Unlock :: tail)%list
    with ([Lock] ++ tr1 ++ [Unlock] ++ tail)%list.
  rewrite !sent_app, !emitted_app, !deleted_app.
  by rewrite Hs0, He0, Hd0, Hs1, He1, Hd1.
Qed.




(** ** A run that sends nil *)

Lemma observe_after_clear tr2 tail :
  Forall (λ e, deleting e = true) tr2 →
  sent (Lock :: tr2 ++ Unlock :: tail) = sent tail
  ∧ emitted (Lock :: tr2 ++ Unlock :: tail) = emitted tail.
Proof.
  intros (Hs & He & _)%deleting_quiet.
  change (Lock :: tr2 ++ Unlock :: tail)%list
    with ([Lock] ++ tr2 ++ [Unlock] ++ tail)%list.
  by rewrite !sent_app, !emitted_app, Hs, He.
Qed.

Section Success.

Variable c : Cluster.
Variable m : ImageManager.
Variable name : string.
Variable o : MapOrders.

(** A run sends [nil] only after a forced-resolution pass without error, a
    removal loop without failed deletion that found an image cache, and the
    making of its key; it has then added the snapshot of the loop to the
    work queue. *)
Lemma updateImageCacheStatus_success t r t' tr :
  updateImageCacheStatus c m name o t = (r, t', tr) →
  sent tr = [None] →
  ∃ t1 tr1 snap ic tr2 objKey,
    rangePending c name (pendingOrder o) t = (Val None, t1, tr1)
    ∧ rangeClear c name (clearOrder o) ∅ None t1
      = (Val (snap, Some ic, None), t', tr2)
    ∧ MetaNamespaceKeyFunc c ic = inl objKey
    ∧ emitted tr = [statusUpdate objKey snap]
    ∧ r = Val tt.
Proof.
  intros Hrun Hsent.
  apply updateImageCacheStatus_inv in Hrun
    as (n & [(_ & _ & -> & _)|(rp & t1 & tr1 & Hp & Hrun)]).
  { destruct (pollTrace_quiet n) as (Hs & _). by rewrite Hs in Hsent. }
  pose proof (rangePending_trace _ _ _ _ _ _ _ Hp) as H1.
  destruct rp as [[err|]|].
  - destruct Hrun as (_ & _ & ->).
    destruct (observe_after_pass n tr1 [ChanSend (Some err)] H1) as (Hs & _).
    by rewrite Hs in Hsent.
  - destruct Hrun as (rc & tr2 & Hc & Hrun).
    pose proof (rangeClear_trace _ _ _ _ _ _ _ _ _ Hc) as H2.
    destruct rc as [[[snap ic] err]|].
    + destruct Hrun as (-> & tail & -> & Htail).
      destruct (observe_after_pass n tr1 (Lock :: tr2 ++ Unlock :: tail)%list H1)
        as (Hs & He & _).
      destruct (observe_after_clear tr2 tail H2) as (Hs' & He').
      rewrite Hs, Hs' in Hsent. rewrite He, He'.
      destruct err as [err|]; [by subst|]. destruct ic as [ic|]; [|by subst].
      destruct (MetaNamespaceKeyFunc c ic) as [objKey|err] eqn:Hkey;
        [|by subst].
      subst tail. by exists t1, tr1, snap, ic, tr2, objKey.
    + destruct Hrun as (_ & ->).
      destruct (observe_after_pass n tr1 (Lock :: tr2)%list H1) as (Hs & _).
      destruct (deleting_quiet _ H2) as (Hs2 & _).
      rewrite Hs in Hsent. change (sent (Lock :: tr2)) with (sent tr2) in Hsent.
      by rewrite Hs2 in Hsent.
  - destruct Hrun as (_ & _ & ->).
    destruct (observe_after_pass n tr1 [] H1) as (Hs & _).
    by rewrite Hs in Hsent.
Qed.

(** The table after a forced-resolution pass that met every key and returned
    no error. *)
Lemma rangePending_success order t t1 tr1 :
  rangePending c name order t = (Val None, t1, tr1) →
  covers order t →
  (∀ k v, t !! k = Some v →
     (pending name v → ∃ v', forced c k v v' ∧ t1 !! k = Some v')
     ∧ (¬ pending name v → t1 !! k = Some v))
  ∧ (∀ k, t !! k = None → t1 !! k = None).
Proof.
  intros Hp Hcov.
  pose proof (rangePending_lookup _ _ _ _ _ _ _ Hp) as Hlook.
  split.
  - intros k v Hv. split.
    + intros Hpend.
      destruct (Hlook k) as [Heq|(w & w' & Hw & _ & Hf & Hw')].
      * rewrite Hv in Heq.
        destruct (rangePending_resolved _ _ _ _ _ _ Hp k v); try done.
        by apply (Hcov k v).
      * assert (w = v) as -> by congruence. eauto.
    + intros Hnp.
      destruct (Hlook k) as [->|(w & w' & Hw & Hwp & _)]; [done|].
      assert (w = v) as -> by congruence. by destruct Hnp.
  - intros k Hk. destruct (Hlook k) as [->|(w & w' & Hw & _)]; congruence.
Qed.

(** The table and the snapshot after a removal loop that met every key and
    ended without error. *)
Lemma rangeClear_success order t t' snap ic tr2 :
  rangeClear c name order ∅ None t = (Val (snap, ic, None), t', tr2) →
  covers order t →
  (∀ k v, t !! k = Some v →
     (belongs name v → t' !! k = None ∧ snap !! k = Some v)
     ∧ (¬ belongs name v → t' !! k = Some v ∧ snap !! k = None))
  ∧ (∀ k, t !! k = None → t' !! k = None ∧ snap !! k = None).
Proof.
  intros Hc Hcov.
  pose proof (rangeClear_snapshot _ _ _ _ _ _ _ _ _ _ _ Hc) as Hsnap.
  split.
  - intros k v Hv. split.
    + intros Hb.
      destruct (Hsnap k) as [[Heq _]|(w & Hw & _ & ? & ?)].
      * rewrite Hv in Heq.
        destruct (rangeClear_cleared _ _ _ _ _ _ _ _ _ _ Hc k v); try done.
        by apply (Hcov k v).
      * assert (w = v) as -> by congruence. done.
    + intros Hnb.
      destruct (Hsnap k) as [[-> ->]|(w & Hw & Hwb & _)]; [done|].
      assert (w = v) as -> by congruence. by destruct Hnb.
  - intros k Hk.
    destruct (Hsnap k) as [[-> ->]|(w & Hw & _)]; [done|congruence].
Qed.

End Success.

(** ** What forced resolution writes *)

Lemma pendingReason_fields pod0 v :
  iwres_Reason (pendingReason pod0 v) = resolvedReason pod0 (iwres_Reason v)
  ∧ iwres_Message (pendingReason pod0 v)
    = resolvedMessage pod0 (iwres_Message v).
Proof.
  unfold pendingReason, resolvedReason, resolvedMessage.
  case_decide; [|done].
  destruct (ContainerStatuses (pod_Status pod0)) as [|cs0 [|]]; try done.
  by destruct (Terminated (State cs0)), (Waiting (State cs0)).
Qed.

Lemma appendEventMessages_message items : ∀ v,
  iwres_Message (appendEventMessages items v)
  = withEvents (iwres_Message v) items.
Proof.
  unfold appendEventMessages, withEvents.
  induction items as [|ev items IH]; intros v; [done|]. simpl. by rewrite IH.
Qed.

(** The entry written by forced resolution: failed, for the same request,
    with the reason and the message taken from the one pod of the job, and,
    unless the work is a purge, the messages of the events of that pod. *)
Lemma forced_fields c job v v' :
  forced c job v v' →
  ∃ pod0,
    podsList c job = inl [pod0]
    ∧ iwres_Status v' = ImageWorkResultStatusFailed
    ∧ iwres_ImageWorkRequest v' = iwres_ImageWorkRequest v
    ∧ iwres_Reason v' = resolvedReason pod0 (iwres_Reason v)
    ∧ (iwr_WorkType (iwres_ImageWorkRequest v) = ImageCachePurge →
       iwres_Message v' = resolvedMessage pod0 (iwres_Message v))
    ∧ (iwr_WorkType (iwres_ImageWorkRequest v) ≠ ImageCachePurge →
       ∃ items, eventsList c (pod_Name pod0) = inl items
         ∧ iwres_Message v'
           = withEvents (resolvedMessage pod0 (iwres_Message v)) items).
Proof.
  intros Hf. pose proof (forced_status _ _ _ _ Hf) as Hst.
  pose proof (forced_request _ _ _ _ Hf) as Hreq.
  destruct Hf as [pod0 Hpods Hwt|pod0 items Hpods Hwt Hev]; exists pod0.
  - destruct (pendingReason_fields pod0 (setStatus ImageWorkResultStatusFailed v))
      as [Hr Hm].
    split_and!; try done.
  - destruct (pendingReason_fields pod0 (setStatus ImageWorkResultStatusFailed v))
      as [Hr Hm].
    destruct (appendEventMessages_fields items
      (pendingReason pod0 (setStatus ImageWorkResultStatusFailed v)))
      as (_ & _ & Hr').
    split_and!; try done.
    + by rewrite Hr'.
    + intros _. exists items. split; [done|].
      by rewrite appendEventMessages_message, Hm.
Qed.

(** C7, as the code has it.  When the run ends by sending [nil], the snapshot
    it has added to the work queue holds every entry of the cache: an entry
    that was already resolved is there as it was, and an entry that still
    had status [jobcreated] is there with status [failed], for the same
    request, with the reason and message of the one pod of its job: for a
    [Pending] pod with exactly one container status those of the terminated
    state, else of the waiting state; for a [Pending] pod with another number
    of container statuses [Pending] and [Check if node is ready]; for a pod
    in any other phase, and for a single status neither waiting nor
    terminated, the reason and message the entry had.  Unless the work is a
    purge, the messages of the events of the pod follow the message. *)
Theorem deadline_forces_failed
    (c : Cluster) (m : ImageManager) (name : string) (o : MapOrders)
    (t : gmap string ImageWorkResult) :
  covers (pendingOrder o) t →
  covers (clearOrder o) t →
  sent (trace (updateImageCacheStatus c m name o t)) = [None] →
  ∃ objKey snap,
    emitted (trace (updateImageCacheStatus c m name o t))
    = [statusUpdate objKey snap]
    ∧ ∀ k v, t !! k = Some v → belongs name v →
        (iwres_Status v ≠ ImageWorkResultStatusJobCreated → snap !! k = Some v)
        ∧ (iwres_Status v = ImageWorkResultStatusJobCreated →
           ∃ pod0 v',
             podsList c k = inl [pod0]
             ∧ snap !! k = Some v'
             ∧ iwres_Status v' = ImageWorkResultStatusFailed
             ∧ iwres_ImageWorkRequest v' = iwres_ImageWorkRequest v
             ∧ iwres_Reason v' = resolvedReason pod0 (iwres_Reason v)
             ∧ (iwr_WorkType (iwres_ImageWorkRequest v) = ImageCachePurge →
                iwres_Message v' = resolvedMessage pod0 (iwres_Message v))
             ∧ (iwr_WorkType (iwres_ImageWorkRequest v) ≠ ImageCachePurge →
                ∃ items, eventsList c (pod_Name pod0) = inl items
                  ∧ iwres_Message v'
                    = withEvents (resolvedMessage pod0 (iwres_Message v))
                        items)).
Proof.
  intros Hcov1 Hcov2 Hsent.
  destruct (updateImageCacheStatus c m name o t) as [[r t'] tr] eqn:Hrun.
  unfold trace in *; simpl in *.
  destruct (updateImageCacheStatus_success _ _ _ _ _ _ _ _ Hrun Hsent)
    as (t1 & tr1 & snap & ic & tr2 & objKey & Hp & Hc & _ & Hemit & _).
  exists objKey, snap. split; [done|].
  destruct (rangePending_success _ _ _ _ _ _ Hp Hcov1) as [Hpass Hpass0].
  assert (Hcov : covers (clearOrder o) t1).
  { intros k w Hw. destruct (t !! k) as [v|] eqn:Hv; [by apply (Hcov2 k v)|].
    rewrite (Hpass0 k Hv) in Hw. done. }
  destruct (rangeClear_success _ _ _ _ _ _ _ _ Hc Hcov) as [Hclear _].
  intros k v Hv Hb.
  destruct (Hpass k v Hv) as [Hforced Hkept]. split.
  - intros Hst.
    destruct (Hclear k v) as [[_ ?] _]; [|done..].
    apply Hkept. by intros [_ ?].
  - intros Hst.
    destruct Hforced as (v' & Hf & Hv'); [done|].
    destruct (forced_fields _ _ _ _ Hf)
      as (pod0 & Hpods & Hst' & Hreq & Hreason & Hpurge & Hpull).
    exists pod0, v'.
    destruct (Hclear k v' Hv') as [[_ ?] _];
      [by eapply belongs_request|].
    split_and!; done.
Qed.

Lemma deadline_forces_failed_witness :
  ∃ objKey snap v',
    emitted (trace (updateImageCacheStatus clusterPending m0 "ic1"
                      (orders ["job1"; "job2"]) t0))
    = [statusUpdate objKey snap]
    ∧ snap !! "job1" = Some v'
    ∧ iwres_Status v' = ImageWorkResultStatusFailed
    ∧ iwres_Reason v' = "ImagePullBackOff"
    ∧ snap !! "job2"
      = Some (entry ImageCachePurge ImageWorkResultStatusSucceeded).
Proof.
  assert (Hcov : covers ["job1"; "job2"] t0) by compute_done.
  destruct (deadline_forces_failed clusterPending m0 "ic1"
              (orders ["job1"; "job2"]) t0 Hcov Hcov eq_refl)
    as (objKey & snap & Hemit & Hsnap).
  destruct (Hsnap "job1"
              (entry ImageCacheCreate ImageWorkResultStatusJobCreated)
              eq_refl eq_refl) as [_ Hforced].
  destruct (Hforced eq_refl) as (pod0 & v' & Hpods & Hv' & Hst & _ & Hr & _).
  destruct (Hsnap "job2"
              (entry ImageCachePurge ImageWorkResultStatusSucceeded)
              eq_refl eq_refl) as [Hkept _].
  exists objKey, snap, v'. split_and!; [done|done|done| |].
  - injection Hpods as <-. exact Hr.
  - apply Hkept. vm_compute. discriminate.
Defined.

(** C7 as stated does not hold: the one pod of [job1] is [Running] when the
    deadline elapses, so the entry is resolved to [failed] with the empty
    reason and message it had. *)
Lemma deadline_forces_failed_counterexample :
  t0 !! "job1" = Some (entry ImageCacheCreate ImageWorkResultStatusJobCreated)
  ∧ podsList cluster0 "job1" = inl [podOf "job1" PodRunning []]
  ∧ sent (trace (updateImageCacheStatus cluster0 m0 "ic1"
                   (orders ["job1"; "job2"]) t0)) = [None]
  ∧ ∃ snap,
      emitted (trace (updateImageCacheStatus cluster0 m0 "ic1"
                        (orders ["job1"; "job2"]) t0))
      = [statusUpdate "kube-fledged/ic1" snap]
      ∧ snap !! "job1"
        = Some {| iwres_ImageWorkRequest := request ImageCacheCreate;
                  iwres_Status := ImageWorkResultStatusFailed;
                  iwres_Reason := "";
                  iwres_Message := "" |}.
Proof.
  split_and!; [reflexivity..|].
  eexists. split; reflexivity.
Qed.

(** ** A run stopped by a failed deletion *)

Section FailedDeletion.

Variable c : Cluster.
Variable name : string.


End FailedDeletion.

(** ** The round trip of the entries of a cache *)

Section RoundTrip.

Variable c : Cluster.
Variable m : ImageManager.
Variable name : string.
Variable o : MapOrders.



End RoundTrip.




(** ** The completion channel *)




(** * Further properties of the image manager *)

(** ** The pod status observer, case by case *)

(** The handler finds no entry and returns; or it panics before it writes,
    on a failed pod without container status or on an entry without node; or
    it writes the resolved entry under the job of the pod. *)
Lemma handlePodStatusChange_inv pod t r t' tr :
  handlePodStatusChange pod t = (r, t', tr) →
  match t !! label (pod_Labels pod) "job-name" with
  | None => r = Val tt ∧ t' = t ∧ tr = [RLock; RUnlock]
  | Some v =>
    (r = Panic ∧ t' = t ∧ tr = [RLock; RUnlock]
     ∧ ((Phase (pod_Status pod) = PodFailed
         ∧ ContainerStatuses (pod_Status pod) = [])
        ∨ ((Phase (pod_Status pod) = PodSucceeded
            ∨ Phase (pod_Status pod) = PodFailed)
           ∧ iwr_Node (iwres_ImageWorkRequest v) = None)))
    ∨ (∃ v',
         r = Val tt
         ∧ t' = <[label (pod_Labels pod) "job-name" := v']> t
         ∧ tr = [RLock; RUnlock; Lock; Unlock]
         ∧ observed pod v v'
         ∧ ((Phase (pod_Status pod) = PodSucceeded
             ∨ Phase (pod_Status pod) = PodFailed) →
            is_Some (iwr_Node (iwres_ImageWorkRequest v))))
  end.
Proof.
  unfold handlePodStatusChange, hostname. intros Hrun.
  do 3 go_step Hrun.
  destruct (t !! label (pod_Labels pod) "job-name") as [v|];
    [|by go_done Hrun].
  cbn [setStatus iwres_ImageWorkRequest] in Hrun.
  destruct (decide (Phase (pod_Status pod) = PodSucceeded)) as [Hs|Hs];
    destruct (decide (Phase (pod_Status pod) = PodFailed)) as [Hf|Hf];
    try (exfalso; unfold PodSucceeded, PodFailed in *; congruence).
  - destruct (iwr_Node (iwres_ImageWorkRequest v)) eqn:Hn;
      rewrite bind_assoc in Hrun; repeat go_step Hrun; go_done Hrun.
    + right. eexists. split_and!; [done..|by constructor|done].
    + left. split_and!; [done..|]. right. eauto.
  - go_step Hrun.
    destruct (ContainerStatuses (pod_Status pod)) as [|cs0 rest] eqn:Hcs;
      cbn [lookup list_lookup] in Hrun.
    { go_step Hrun. go_done Hrun. left. split_and!; [done..|]. left. eauto. }
    rewrite bind_assoc in Hrun.
    destruct (Terminated (State cs0)) as [term|] eqn:Hterm;
      cbn [setStatus setReason setMessage iwres_ImageWorkRequest] in Hrun;
      destruct (iwr_Node (iwres_ImageWorkRequest v)) eqn:Hn;
      repeat go_step Hrun; go_done Hrun.
    + right. eexists. split_and!; [done..| |done].
      eapply observed_terminated; [done|by rewrite Hcs|done].
    + left. split_and!; [done..|]. right. eauto.
    + right. eexists. split_and!; [done..| |done].
      eapply observed_failed; [done|by rewrite Hcs|done].
    + left. split_and!; [done..|]. right. eauto.
  - repeat go_step Hrun. go_done Hrun.
    right. exists v. split_and!; [done..|by constructor|].
    by intros [?|?].
Qed.

Lemma observed_request pod v v' :
  observed pod v v' → iwres_ImageWorkRequest v' = iwres_ImageWorkRequest v.
Proof. by destruct 1. Qed.


(** X2. When the handler returns for a pod whose job has an entry, whatever
    the status of that entry, the entry is there for the same request: with
    status [succeeded] and its reason and message as they were for a
    [Succeeded] pod; with status [failed] for a [Failed] pod, with the reason
    and message of the terminated state of the first container status when
    it has one, and as they were otherwise; and unchanged for a pod in any
    other phase. *)
Theorem observer_resolves (pod : Pod) (t : gmap string ImageWorkResult)
    (v : ImageWorkResult) :
  t !! label (pod_Labels pod) "job-name" = Some v →
  result (handlePodStatusChange pod t) = Val tt →
  ∃ v',
    table (handlePodStatusChange pod t) !! label (pod_Labels pod) "job-name"
    = Some v'
    ∧ iwres_ImageWorkRequest v' = iwres_ImageWorkRequest v
    ∧ (Phase (pod_Status pod) = PodSucceeded →
       iwres_Status v' = ImageWorkResultStatusSucceeded
       ∧ iwres_Reason v' = iwres_Reason v
       ∧ iwres_Message v' = iwres_Message v)
    ∧ (Phase (pod_Status pod) = PodFailed →
       iwres_Status v' = ImageWorkResultStatusFailed
       ∧ ∃ cs0,
           ContainerStatuses (pod_Status pod) !! 0%nat = Some cs0
           ∧ match Terminated (State cs0) with
             | Some term =>
                 iwres_Reason v' = terminated_Reason term
                 ∧ iwres_Message v' = terminated_Message term
             | None =>
                 iwres_Reason v' = iwres_Reason v
                 ∧ iwres_Message v' = iwres_Message v
             end)
    ∧ (Phase (pod_Status pod) ≠ PodSucceeded →
       Phase (pod_Status pod) ≠ PodFailed → v' = v).
Proof.
  intros Hv Hres.
  destruct (handlePodStatusChange pod t) as [[r t'] tr] eqn:Hrun.
  apply handlePodStatusChange_inv in Hrun. rewrite Hv in Hrun.
  unfold result, table in *; simpl in *.
  destruct Hrun as [(-> & _)|(v' & _ & -> & _ & Hobs & _)]; [done|].
  exists v'. rewrite lookup_insert_eq.
  split; [done|]. split; [by eapply observed_request|].
  destruct Hobs as [Hs|cs0 term Hf Hcs Hterm|cs0 Hf Hcs Hterm|Hs Hf].
  - split_and!; [done| |done].
    intros Hf. unfold PodSucceeded, PodFailed in *. congruence.
  - split_and!; [|intros _; split; [done|]|done].
    + intros Hs. unfold PodSucceeded, PodFailed in *. congruence.
    + exists cs0. by rewrite Hterm.
  - split_and!; [|intros _; split; [done|]|done].
    + intros Hs. unfold PodSucceeded, PodFailed in *. congruence.
    + exists cs0. by rewrite Hterm.
  - done.
Qed.

Lemma observer_resolves_witness :
  ∃ v',
    table (handlePodStatusChange
             (podOf "job1" PodFailed [terminatedWith "Error" "exit status 1"])
             t0) !! "job1" = Some v'
    ∧ iwres_ImageWorkRequest v' = request ImageCacheCreate
    ∧ iwres_Status v' = ImageWorkResultStatusFailed
    ∧ iwres_Reason v' = "Error".
Proof.
  destruct (observer_resolves
              (podOf "job1" PodFailed [terminatedWith "Error" "exit status 1"])
              t0 (entry ImageCacheCreate ImageWorkResultStatusJobCreated)
              eq_refl eq_refl)
    as (v' & Hv' & Hreq & _ & Hfailed & _).
  destruct (Hfailed eq_refl) as (Hst & cs0 & [= <-] & Hr & _).
  by exists v'.
Defined.

(** X3. The handler panics exactly when the job of the pod has an entry and
    either the pod is [Failed] and reports no container status, or the pod
    is [Succeeded] or [Failed] and the entry has no node; it then has
    written nothing and holds no lock. *)
Theorem observer_panics_iff (pod : Pod) (t : gmap string ImageWorkResult) :
  (result (handlePodStatusChange pod t) = Panic
   ↔ ∃ v, t !! label (pod_Labels pod) "job-name" = Some v
          ∧ ((Phase (pod_Status pod) = PodFailed
              ∧ ContainerStatuses (pod_Status pod) = [])
             ∨ ((Phase (pod_Status pod) = PodSucceeded
                 ∨ Phase (pod_Status pod) = PodFailed)
                ∧ iwr_Node (iwres_ImageWorkRequest v) = None)))
  ∧ (result (handlePodStatusChange pod t) = Panic →
     handlePodStatusChange pod t = (Panic, t, [RLock; RUnlock])).
Proof.
  destruct (handlePodStatusChange pod t) as [[r t'] tr] eqn:Hrun.
  apply handlePodStatusChange_inv in Hrun. unfold result; simpl.
  destruct (t !! label (pod_Labels pod) "job-name") as [v|] eqn:Hjob.
  - destruct Hrun as [(-> & -> & -> & Hwhy)|(v' & -> & -> & -> & Hobs & Hnode)].
    + split; [|done]. split; [eauto|done].
    + split; [|done]. split; [done|].
      intros (w & [= <-] & [[Hf Hcs]|[Hph Hn]]).
      * destruct Hobs as [Hs|cs0 term _ Hcs0 _|cs0 _ Hcs0 _|_ Hnf];
          [unfold PodSucceeded, PodFailed in *; congruence
          |by rewrite Hcs in Hcs0..|done].
      * destruct (Hnode Hph) as [n Hsome]. congruence.
  - destruct Hrun as (-> & -> & ->). split; [|done].
    split; [done|]. by intros (w & [=] & _).
Qed.

(** ** The dispatcher, case by case *)

Ltac dispatch_cases c iwr :=
  unfold processNextWorkItem, processItem, record, deleteImage, pullImage,
    hostname, imagecacheName;
  destruct (iwr_Imagecache iwr) eqn:?, (iwr_Node iwr) eqn:?,
    (newImageDeleteJob c _ _ _ _ _) as [?|?] eqn:?,
    (newImagePullJob c _ _ _ _) as [?|?] eqn:?,
    (checkIfImageNeedsToBePulled c _ _ _) as [[|]|?] eqn:?;
    repeat case_decide;
    try (destruct (jobsCreate c _) as [?|?] eqn:?).

(** A run given as a hypothesis, once the answers of the cluster are
    known. *)
Ltac go_eval H :=
  cbv beta iota zeta delta
    [bind emit ret defer getTable setTable panic orb negb] in H;
  simpl in H.

(** What the dispatcher does to the table. *)
Lemma processNextWorkItem_table c m obj t :
  table (processNextWorkItem c m (obj, false) t) = t
  ∨ ∃ iwr key status,
      obj = ItemImageWorkRequest iwr
      ∧ table (processNextWorkItem c m (obj, false) t)
        = <[key := {| iwres_ImageWorkRequest := iwr;
                      iwres_Status := status;
                      iwres_Reason := "";
                      iwres_Message := "" |}]> t
      ∧ result (processNextWorkItem c m (obj, false) t) = Val true
      ∧ handled (trace (processNextWorkItem c m (obj, false) t)) = []
      ∧ started (trace (processNextWorkItem c m (obj, false) t)) = []
      ∧ is_Some (iwr_Node iwr)
      ∧ ((status = ImageWorkResultStatusJobCreated
          ∧ ∃ newjob job,
              created (trace (processNextWorkItem c m (obj, false) t))
              = [newjob]
              ∧ jobsCreate c newjob = inl job ∧ key = job_Name job)
         ∨ (status = ImageWorkResultStatusAlreadyPulled
            ∧ iwr_WorkType iwr ≠ ImageCachePurge
            ∧ created (trace (processNextWorkItem c m (obj, false) t)) = []
            ∧ key = GenerateName c fakeJobPrefix)).
Proof.
  destruct obj as [iwr|description]; [|by left].
  destruct (processNextWorkItem c m (ItemImageWorkRequest iwr, false) t)
    as [[r t'] tr] eqn:Hrun.
  unfold result, table, trace; simpl.
  revert Hrun. dispatch_cases c iwr; intros Hrun.
  all: go_eval Hrun; injection Hrun as <- <- <-.
  all: try (by left).
  all: right; eexists _, _, _; split; [reflexivity|]; split; [reflexivity|];
    split_and!; try done; eauto 10.
Qed.

(** What the dispatcher does to its queue. *)
Lemma processNextWorkItem_queue c m obj t :
  doneItems (trace (processNextWorkItem c m (obj, false) t)) = [obj]
  ∧ (result (processNextWorkItem c m (obj, false) t) = Val true
     ∨ result (processNextWorkItem c m (obj, false) t) = Panic)
  ∧ (forgotten (trace (processNextWorkItem c m (obj, false) t)) = []
     ∨ forgotten (trace (processNextWorkItem c m (obj, false) t)) = [obj])
  ∧ (∀ iwr, obj = ItemImageWorkRequest iwr →
       result (processNextWorkItem c m (obj, false) t) = Val true →
       (forgotten (trace (processNextWorkItem c m (obj, false) t)) = [obj]
        ↔ handled (trace (processNextWorkItem c m (obj, false) t)) = []))
  ∧ (result (processNextWorkItem c m (obj, false) t) = Panic →
     table (processNextWorkItem c m (obj, false) t) = t
     ∧ handled (trace (processNextWorkItem c m (obj, false) t)) = []
     ∧ ∃ iwr, obj = ItemImageWorkRequest iwr
              ∧ (iwr_Node iwr = None ∨ iwr_Imagecache iwr = None)).
Proof.
  destruct obj as [iwr|description].
  2:{ split_and!; [done|by left|by right|done|done]. }
  destruct (processNextWorkItem c m (ItemImageWorkRequest iwr, false) t)
    as [[r t'] tr] eqn:Hrun.
  unfold result, table, trace; simpl.
  revert Hrun. dispatch_cases c iwr; intros Hrun.
  all: go_eval Hrun; injection Hrun as <- <- <-.
  all: split_and!; [done|eauto|eauto| |];
    [intros ? _ Hr; first [discriminate Hr|by split]|].
  all: try done.
  all: intros _; split_and!; eauto.
Qed.

(** X4. The dispatcher changes the table only by adding the entry of the
    item it processed, and only when it reports no error; every other key
    reads as before.  The entry holds the request as it came off the queue,
    with empty reason and message, either under the name of the job that the
    API server returned, with status [jobcreated], or, when the image needs
    no pull, under the name that the name generator makes from the fake-job
    prefix, with status [alreadypulled] and without any job sent to the API
    server.  The node of a recorded request is never nil, and no run of the
    deadline reconciler is started. *)
Theorem dispatch_records (c : Cluster) (m : ImageManager) (obj : QueueItem)
    (t : gmap string ImageWorkResult) :
  table (processNextWorkItem c m (obj, false) t) = t
  ∨ ∃ iwr key status,
      obj = ItemImageWorkRequest iwr
      ∧ table (processNextWorkItem c m (obj, false) t) !! key
        = Some {| iwres_ImageWorkRequest := iwr;
                  iwres_Status := status;
                  iwres_Reason := "";
                  iwres_Message := "" |}
      ∧ (∀ k, k ≠ key →
           table (processNextWorkItem c m (obj, false) t) !! k = t !! k)
      ∧ result (processNextWorkItem c m (obj, false) t) = Val true
      ∧ handled (trace (processNextWorkItem c m (obj, false) t)) = []
      ∧ started (trace (processNextWorkItem c m (obj, false) t)) = []
      ∧ is_Some (iwr_Node iwr)
      ∧ ((status = ImageWorkResultStatusJobCreated
          ∧ ∃ newjob job,
              created (trace (processNextWorkItem c m (obj, false) t))
              = [newjob]
              ∧ jobsCreate c newjob = inl job ∧ key = job_Name job)
         ∨ (status = ImageWorkResultStatusAlreadyPulled
            ∧ iwr_WorkType iwr ≠ ImageCachePurge
            ∧ created (trace (processNextWorkItem c m (obj, false) t)) = []
            ∧ key = GenerateName c fakeJobPrefix)).
Proof.
  destruct (processNextWorkItem_table c m obj t)
    as [Hsame|(iwr & key & status & Hobj & Ht & Hr & Hh & Hs & Hn & Hkey)].
  { by left. }
  right. exists iwr, key, status. rewrite Ht.
  split_and!; try done.
  - apply lookup_insert_eq.
  - intros k Hk. by apply lookup_insert_ne.
Qed.

(** X5. Every item taken from the image work queue is marked done exactly
    once, also when processing it panics.  It is forgotten at most once,
    and a work request whose processing returns is forgotten exactly when
    no error is handed to [HandleError].  Processing returns [true]
    whatever the error.  A panic comes only from a nil node or a nil image
    cache of the request, and leaves the table as it was.  When the queue is
    shut down nothing is done and [false] is returned. *)
Theorem queue_protocol (c : Cluster) (m : ImageManager) (obj : QueueItem)
    (t : gmap string ImageWorkResult) :
  doneItems (trace (processNextWorkItem c m (obj, false) t)) = [obj]
  ∧ (result (processNextWorkItem c m (obj, false) t) = Val true
     ∨ result (processNextWorkItem c m (obj, false) t) = Panic)
  ∧ (forgotten (trace (processNextWorkItem c m (obj, false) t)) = []
     ∨ forgotten (trace (processNextWorkItem c m (obj, false) t)) = [obj])
  ∧ (∀ iwr, obj = ItemImageWorkRequest iwr →
       result (processNextWorkItem c m (obj, false) t) = Val true →
       (forgotten (trace (processNextWorkItem c m (obj, false) t)) = [obj]
        ↔ handled (trace (processNextWorkItem c m (obj, false) t)) = []))
  ∧ (result (processNextWorkItem c m (obj, false) t) = Panic →
     table (processNextWorkItem c m (obj, false) t) = t
     ∧ handled (trace (processNextWorkItem c m (obj, false) t)) = []
     ∧ ∃ iwr, obj = ItemImageWorkRequest iwr
              ∧ (iwr_Node iwr = None ∨ iwr_Imagecache iwr = None))
  ∧ processNextWorkItem c m (obj, true) t = (Val false, t, []).
Proof.
  destruct (processNextWorkItem_queue c m obj t) as (H1 & H2 & H3 & H4 & H5).
  by split_and!.
Qed.

(** ** The worker *)

Lemma doneItems_app tr1 tr2 :
  doneItems (tr1 ++ tr2) = (doneItems tr1 ++ doneItems tr2)%list.
Proof. apply omap_app. Qed.

(** The worker on items none of which is the shutdown of the queue. *)
Lemma runWorker_app c m pre : ∀ t,
  Forall (λ got : QueueItem * bool, got.2 = false) pre →
  result (runWorker c m pre t) ≠ Panic →
  result (runWorker c m pre t) = Val WorkerWaiting
  ∧ doneItems (trace (runWorker c m pre t)) = pre.*1
  ∧ ∀ rest,
      runWorker c m (pre ++ rest) t
      = (result (runWorker c m rest (table (runWorker c m pre t))),
         table (runWorker c m rest (table (runWorker c m pre t))),
         (trace (runWorker c m pre t)
            ++ trace (runWorker c m rest (table (runWorker c m pre t))))%list).
Proof.
  induction pre as [|[obj shutdown] pre IH]; intros t Hpre Hres.
  { split_and!; [done|done|]. intros rest.
    change (runWorker c m [] t) with (Val WorkerWaiting, t, @nil Effect).
    unfold result, table, trace. simpl.
    by destruct (runWorker c m rest t) as [[? ?] ?]. }
  apply Forall_cons in Hpre as [Hobj Hpre]. simpl in Hobj. subst shutdown.
  destruct (processNextWorkItem_queue c m obj t) as (Hdone & Hr & _).
  cbn [runWorker app] in *. unfold bind in *.
  destruct (processNextWorkItem c m (obj, false) t) as [[r1 t1] tr1].
  unfold result, table, trace in *; simpl in *.
  destruct Hr as [->| ->]; [|done].
  destruct (IH t1 Hpre) as (IH1 & IH2 & IH3).
  { by destruct (runWorker c m pre t1) as [[? ?] ?]. }
  split_and!.
  - by destruct (runWorker c m pre t1) as [[? ?] ?].
  - destruct (runWorker c m pre t1) as [[r2 t2] tr2]; simpl in *.
    by rewrite doneItems_app, Hdone, IH2.
  - intros rest. rewrite (IH3 rest).
    destruct (runWorker c m pre t1) as [[r2 t2] tr2]; simpl.
    destruct (runWorker c m rest t2) as [[r3 t3] tr3]; simpl.
    by rewrite app_assoc.
Qed.

(** X6. A worker that does not panic marks done every item it gets from
    the queue, once each and in the order of the queue, whether or not the
    item is processed with an error, and then waits for the next one.  When
    the queue reports its shutdown the worker returns at once: it marks
    nothing more done and what the queue would deliver afterwards is not
    processed. *)
Theorem worker_until_shutdown (c : Cluster) (m : ImageManager)
    (pre : list (QueueItem * bool)) (t : gmap string ImageWorkResult) :
  Forall (λ got : QueueItem * bool, got.2 = false) pre →
  result (runWorker c m pre t) ≠ Panic →
  result (runWorker c m pre t) = Val WorkerWaiting
  ∧ doneItems (trace (runWorker c m pre t)) = pre.*1
  ∧ ∀ obj post,
      runWorker c m (pre ++ (obj, true) :: post) t
      = (Val WorkerReturned, table (runWorker c m pre t),
         trace (runWorker c m pre t)).
Proof.
  intros Hpre Hres.
  destruct (runWorker_app c m pre t Hpre Hres) as (H1 & H2 & H3).
  split_and!; [done|done|].
  intros obj post. rewrite H3. simpl. by rewrite app_nil_r.
Qed.

Lemma worker_until_shutdown_witness :
  doneItems
    (trace (runWorker clusterNoCreate m0
              [(ItemImageWorkRequest (request ImageCachePurge), false);
               (ItemOther "42", false);
               (flushItem, false)] t0))
  = [ItemImageWorkRequest (request ImageCachePurge); ItemOther "42"; flushItem]
  ∧ runWorker clusterNoCreate m0
      [(ItemImageWorkRequest (request ImageCachePurge), false);
       (ItemOther "42", false);
       (flushItem, false);
       (ItemOther "", true);
       (ItemImageWorkRequest (request ImageCacheCreate), false)] t0
    = (Val WorkerReturned, t0,
       trace (runWorker clusterNoCreate m0
                [(ItemImageWorkRequest (request ImageCachePurge), false);
                 (ItemOther "42", false);
                 (flushItem, false)] t0)).
Proof.
  assert (Hpre : Forall (λ got : QueueItem * bool, got.2 = false)
            [(ItemImageWorkRequest (request ImageCachePurge), false);
             (ItemOther "42", false);
             (flushItem, false)]) by (by repeat constructor).
  assert (Hres : result (runWorker clusterNoCreate m0
            [(ItemImageWorkRequest (request ImageCachePurge), false);
             (ItemOther "42", false);
             (flushItem, false)] t0) ≠ Panic) by (vm_compute; discriminate).
  destruct (worker_until_shutdown clusterNoCreate m0 _ t0 Hpre Hres)
    as (_ & Hdone & Hstop).
  split; [exact Hdone|].
  exact (Hstop (ItemOther "") [(ItemImageWorkRequest (request ImageCacheCreate), false)]).
Defined.

(** ** The forced-resolution pass, step by step *)

Section PendingSteps.

Variable c : Cluster.
Variable name : string.

(** One turn of the loop of [updatePendingImageWorkResults], with what it
    asks the cluster: the entry is passed over; or reading it panics; or the
    pass stops there with an error; or the entry is resolved and the loop
    goes on. *)
Lemma rangePending_step job rest t r t' tr :
  rangePending c name (job :: rest) t = (r, t', tr) →
  (rangePending c name rest t = (r, t', tr)
   ∧ ∀ v, t !! job = Some v →
       is_Some (iwr_Imagecache (iwres_ImageWorkRequest v)) ∧ ¬ pending name v)
  ∨ (∃ v, t !! job = Some v ∧ r = Panic ∧ t' = t
       ∧ ((iwr_Imagecache (iwres_ImageWorkRequest v) = None ∧ tr = [])
          ∨ (pending name v
             ∧ iwr_Node (iwres_ImageWorkRequest v) = None
             ∧ tr = [PodsList job])))
  ∨ (∃ v err, t !! job = Some v ∧ pending name v ∧ stops c job v err
       ∧ r = Val (Some err) ∧ t' = t
       ∧ (tr = [PodsList job]
          ∨ ∃ pod0, podsList c job = inl [pod0]
                    ∧ tr = [PodsList job; EventsList (pod_Name pod0)]))
  ∨ (∃ v v' tr2 pod0,
       t !! job = Some v ∧ pending name v ∧ forced c job v v'
       ∧ is_Some (iwr_Node (iwres_ImageWorkRequest v))
       ∧ rangePending c name rest (<[job:=v']> t) = (r, t', tr2)
       ∧ podsList c job = inl [pod0]
       ∧ ((iwr_WorkType (iwres_ImageWorkRequest v) = ImageCachePurge
           ∧ tr = PodsList job :: tr2)
          ∨ (iwr_WorkType (iwres_ImageWorkRequest v) ≠ ImageCachePurge
             ∧ tr = PodsList job :: EventsList (pod_Name pod0) :: tr2))).
Proof.
  intros Hrun. cbn [rangePending] in Hrun. go_step Hrun.
  destruct (t !! job) as [iwres|] eqn:Hjob; [|left; by split].
  unfold imagecacheName in Hrun.
  destruct (iwr_Imagecache (iwres_ImageWorkRequest iwres)) as [ic|] eqn:Hic;
    go_step Hrun.
  2:{ go_done Hrun. right; left. exists iwres. eauto 8. }
  destruct (decide (ic_Name ic = name)) as [Hname|Hname].
  2:{ left. split; [done|]. intros v [= <-]. rewrite Hic. split; [done|].
      intros [(ic' & Hic' & ?)%belongs_iff _]. congruence. }
  destruct (decide (iwres_Status iwres = ImageWorkResultStatusJobCreated))
    as [Hst|Hst].
  2:{ left. split; [done|]. intros v [= <-]. rewrite Hic. split; [done|].
      by intros [_ ?]. }
  assert (Hpend : pending name iwres)
    by (split; [apply belongs_iff; by exists ic|done]).
  go_step Hrun.
  destruct (podsList c job) as [[|pod0 [|pod1 pods]]|err] eqn:Hpods.
  - go_done Hrun. right; right; left. eexists iwres, _.
    split_and!; [done|done|by apply stops_none|done|done|by left].
  - unfold hostname in Hrun. cbn [setStatus iwres_ImageWorkRequest] in Hrun.
    destruct (iwr_Node (iwres_ImageWorkRequest iwres)) eqn:Hnode;
      go_step Hrun.
    2:{ go_done Hrun. right; left. exists iwres. eauto 10. }
    rewrite pendingReason_request in Hrun.
    cbn [setStatus iwres_ImageWorkRequest] in Hrun.
    destruct (decide (iwr_WorkType (iwres_ImageWorkRequest iwres)
                      ≠ ImageCachePurge)) as [Hwt|Hwt].
    + rewrite bind_assoc in Hrun. go_step Hrun.
      destruct (eventsList c (pod_Name pod0)) as [items|err] eqn:Hev;
        repeat go_step Hrun.
      * right; right; right.
        exists iwres, (appendEventMessages items
          (pendingReason pod0 (setStatus ImageWorkResultStatusFailed iwres))),
          tr, pod0.
        split_and!; [done|done|by eapply forced_pull|done|done|done|by right].
      * go_done Hrun. right; right; left. exists iwres, err.
        split_and!; [done|done|by eapply stops_events|done|done|].
        right. by exists pod0.
    + repeat go_step Hrun. right; right; right.
      assert (Hpurge : iwr_WorkType (iwres_ImageWorkRequest iwres)
                       = ImageCachePurge)
        by (by destruct (decide (iwr_WorkType (iwres_ImageWorkRequest iwres)
                                 = ImageCachePurge))).
      exists iwres,
        (pendingReason pod0 (setStatus ImageWorkResultStatusFailed iwres)),
        tr0, pod0.
      split_and!; [done|done|by eapply forced_purge|done|done|done|by left].
  - go_done Hrun. right; right; left. eexists iwres, _.
    split_and!; [done|done|by eapply stops_many|done|done|by left].
  - go_done Hrun. right; right; left. exists iwres, err.
    split_and!; [done|done|by apply stops_list|done|done|by left].
Qed.

End PendingSteps.

Lemma podQueries_app tr1 tr2 :
  podQueries (tr1 ++ tr2) = (podQueries tr1 ++ podQueries tr2)%list.
Proof. apply omap_app. Qed.

Lemma eventQueries_app tr1 tr2 :
  eventQueries (tr1 ++ tr2) = (eventQueries tr1 ++ eventQueries tr2)%list.
Proof. apply omap_app. Qed.

Lemma stops_one_pod c job v err pod0 :
  stops c job v err → podsList c job = inl [pod0] →
  iwr_WorkType (iwres_ImageWorkRequest v) ≠ ImageCachePurge
  ∧ eventsList c (pod_Name pod0) = inr err.
Proof.
  intros Hstop Hpods.
  destruct Hstop as [e He|He|p0 p1 ps He|p0 e He Hwt Hev];
    rewrite Hpods in He; try discriminate.
  by injection He as <-.
Qed.

Section PendingFacts.

Variable c : Cluster.
Variable name : string.

(** An error of the pass is the error of a pending entry of the cache,
    which is in the table as it was. *)
Lemma rangePending_error order : ∀ t t' tr err,
  rangePending c name order t = (Val (Some err), t', tr) →
  ∃ k v, k ∈ order ∧ t' !! k = Some v ∧ pending name v ∧ stops c k v err.
Proof.
  induction order as [|job rest IH]; intros t t' tr err Hrun; [by go_done Hrun|].
  apply rangePending_step in Hrun
    as [[Hrest _]|[(v & _ & [=] & _)
       |[(v & e & Hv & Hp & Hstop & [= ->] & -> & _)
        |(v & v' & tr2 & pod0 & _ & _ & _ & _ & Hrest & _)]]].
  - destruct (IH _ _ _ _ Hrest) as (k & w & Hk & Hw).
    exists k, w. split; [by apply elem_of_cons; right|done].
  - exists job, v. split; [by apply elem_of_cons; left|done].
  - destruct (IH _ _ _ _ Hrest) as (k & w & Hk & Hw).
    exists k, w. split; [by apply elem_of_cons; right|done].
Qed.

(** What the pass asks the cluster: the pods of pending entries of the
    cache, once each, and the events of the one pod of such an entry when
    its work is not a purge. *)
Lemma rangePending_queries order : ∀ t r t' tr,
  rangePending c name order t = (r, t', tr) →
  NoDup (podQueries tr)
  ∧ (∀ j, j ∈ podQueries tr → ∃ v, t !! j = Some v ∧ pending name v)
  ∧ (∀ p, p ∈ eventQueries tr →
       ∃ j v pod0, t !! j = Some v ∧ pending name v
                   ∧ iwr_WorkType (iwres_ImageWorkRequest v) ≠ ImageCachePurge
                   ∧ podsList c j = inl [pod0] ∧ p = pod_Name pod0).
Proof.
  induction order as [|job rest IH]; intros t r t' tr Hrun.
  { go_done Hrun. split_and!; [constructor|by intros j ?%elem_of_nil
                              |by intros p ?%elem_of_nil]. }
  apply rangePending_step in Hrun
    as [[Hrest _]|[(v & Hv & _ & _ & [[_ ->]|(Hp & _ & ->)])
       |[(v & e & Hv & Hp & Hstop & _ & _ & [->|(pod0 & Hpods & ->)])
        |(v & v' & tr2 & pod0 & Hv & Hp & Hf & _ & Hrest & Hpods & Htr)]]].
  - by eapply IH.
  - split_and!; [constructor|by intros j ?%elem_of_nil
                |by intros p ?%elem_of_nil].
  - split_and!; [apply NoDup_singleton| |by intros p ?%elem_of_nil].
    intros j ->%list_elem_of_singleton. eauto.
  - split_and!; [apply NoDup_singleton| |by intros p ?%elem_of_nil].
    intros j ->%list_elem_of_singleton. eauto.
  - destruct (stops_one_pod _ _ _ _ _ Hstop Hpods) as [Hwt _].
    split_and!; [apply NoDup_singleton| |].
    + intros j ->%list_elem_of_singleton. eauto.
    + intros p ->%list_elem_of_singleton. exists job, v, pod0. eauto.
  - destruct (IH _ _ _ _ Hrest) as (IH1 & IH2 & IH3).
    assert (Hother : ∀ j w, <[job:=v']> t !! j = Some w → pending name w →
                            j ≠ job ∧ t !! j = Some w).
    { intros j w Hw Hwp. destruct (decide (job = j)) as [<-|Hne].
      - rewrite lookup_insert_eq in Hw. injection Hw as <-.
        by apply (forced_not_pending _ name) in Hf.
      - by rewrite lookup_insert_ne in Hw. }
    assert (Hq : podQueries tr = job :: podQueries tr2
                 ∧ (eventQueries tr = eventQueries tr2
                    ∨ (iwr_WorkType (iwres_ImageWorkRequest v) ≠ ImageCachePurge
                       ∧ eventQueries tr = pod_Name pod0 :: eventQueries tr2))).
    { destruct Htr as [[_ ->]|[Hwt ->]]; [by split; [|left]|].
      split; [done|]. by right. }
    destruct Hq as [-> Hev]. split_and!.
    + constructor; [|done]. intros (w & Hw & Hwp)%IH2.
      by destruct (Hother _ _ Hw Hwp).
    + intros j [->|Hj]%elem_of_cons; [eauto|].
      destruct (IH2 j Hj) as (w & Hw & Hwp).
      destruct (Hother _ _ Hw Hwp). eauto.
    + assert (Hrest3 : ∀ p, p ∈ eventQueries tr2 →
        ∃ j w pod1, t !! j = Some w ∧ pending name w
          ∧ iwr_WorkType (iwres_ImageWorkRequest w) ≠ ImageCachePurge
          ∧ podsList c j = inl [pod1] ∧ p = pod_Name pod1).
      { intros p Hp'. destruct (IH3 p Hp') as (j & w & pod1 & Hw & Hwp & ?).
        destruct (Hother _ _ Hw Hwp). exists j, w, pod1. eauto. }
      destruct Hev as [->|[Hwt ->]]; [done|].
      intros p [->|Hp']%elem_of_cons; [|by apply Hrest3].
      exists job, v, pod0. eauto.
Qed.

(** On a table without nil pointers the pass does not panic. *)
Lemma rangePending_safe order : ∀ t,
  wellFormed t → result (rangePending c name order t) ≠ Panic.
Proof.
  induction order as [|job rest IH]; intros t Hwf; [done|].
  destruct (rangePending c name (job :: rest) t) as [[r t'] tr] eqn:Hrun.
  unfold result; simpl.
  apply rangePending_step in Hrun
    as [[Hrest _]|[(v & Hv & _ & _ & Hnil)
       |[(v & e & _ & _ & _ & -> & _)
        |(v & v' & tr2 & pod0 & Hv & _ & Hf & _ & Hrest & _)]]].
  - specialize (IH t Hwf). by rewrite Hrest in IH.
  - destruct (wellFormed_lookup _ _ _ Hwf Hv) as [[? ?] [? ?]].
    destruct Hnil as [[? _]|(_ & ? & _)]; congruence.
  - done.
  - specialize (IH _ (wellFormed_forced _ _ _ _ _ Hwf Hv Hf)).
    by rewrite Hrest in IH.
Qed.

(** Without pending entry of the cache the pass does nothing. *)
Lemma rangePending_settled order t :
  hasCache t → settled name t →
  rangePending c name order t = (Val None, t, []).
Proof.
  intros Hc Hs. induction order as [|job rest IH]; [done|].
  destruct (rangePending c name (job :: rest) t) as [[r t'] tr] eqn:Hrun.
  apply rangePending_step in Hrun
    as [[Hrest _]|[(v & Hv & _ & _ & [[Hnil _]|(Hp & _)])
       |[(v & e & Hv & Hp & _)
        |(v & v' & tr2 & pod0 & Hv & Hp & _)]]].
  - congruence.
  - destruct (Hc _ _ Hv). congruence.
  - by destruct (Hs _ _ Hv).
  - by destruct (Hs _ _ Hv).
  - by destruct (Hs _ _ Hv).
Qed.


End PendingFacts.

(** ** The poll, turn by turn *)

Lemma sleeps_app tr1 tr2 : sleeps (tr1 ++ tr2) = sleeps tr1 + sleeps tr2.
Proof. unfold sleeps. by rewrite omap_app, length_app. Qed.

Lemma sleeps_pollTrace n : sleeps (pollTrace n) = n.
Proof.
  induction n as [|n IH]; [done|].
  change (pollTrace (S n)) with ([Sleep; RLock; RUnlock] ++ pollTrace n)%list.
  by rewrite sleeps_app, IH.
Qed.

Lemma sleeps_calls tr :
  Forall (λ e, listing e || deleting e = true) tr → sleeps tr = 0.
Proof.
  induction 1 as [|e tr He _ IH]; [done|].
  destruct e; try discriminate; exact IH.
Qed.

Lemma pollTrace_first_lock n : ∀ n0 x y,
  (pollTrace n ++ Lock :: x = pollTrace n0 ++ y)%list →
  y = [] ∨ (∃ y', y = Lock :: y') →
  n = n0.
Proof.
  induction n as [|n IH]; intros [|n0] x y Heq Hy.
  - done.
  - discriminate.
  - destruct Hy as [->|[y' ->]]; discriminate.
  - f_equal. injection Heq as Heq. by eapply IH.
Qed.

Section PollFacts.

Variable name : string.

(** The loop of the condition answers whether no entry it meets is a pending
    entry of the cache. *)
Lemma rangePoll_spec order : ∀ t,
  hasCache t →
  ∃ b, rangePoll name order t = (Val b, t, [])
       ∧ (b = true
          ↔ ∀ k v, k ∈ order → t !! k = Some v → ¬ pending name v).
Proof.
  intros t Hc. induction order as [|job rest (b & IH & Hb)].
  { exists true. split; [done|]. split; [|done].
    by intros _ k v ?%elem_of_nil. }
  cbn [rangePoll]. rewrite bind_getTable.
  destruct (t !! job) as [iwres|] eqn:Hjob.
  2:{ exists b. split; [done|]. rewrite Hb. split.
      - intros H k v [->|Hk]%elem_of_cons Hv; [congruence|by eapply H].
      - intros H k v Hk. apply H. by apply elem_of_cons; right. }
  destruct (Hc _ _ Hjob) as [ic Hic].
  unfold imagecacheName. rewrite Hic, bind_ret.
  assert (Hskip : ¬ pending name iwres →
    ∃ b0, rangePoll name rest t = (Val b0, t, [])
          ∧ (b0 = true
             ↔ ∀ k v, k ∈ job :: rest → t !! k = Some v → ¬ pending name v)).
  { intros Hnp. exists b. split; [done|]. rewrite Hb. split.
    - intros H k v [->|Hk]%elem_of_cons Hv; [congruence|by eapply H].
    - intros H k v Hk. apply H. by apply elem_of_cons; right. }
  destruct (decide (ic_Name ic = name)) as [Hname|Hname].
  2:{ apply Hskip. intros [(ic' & Hic' & ?)%belongs_iff _]. congruence. }
  destruct (decide (iwres_Status iwres = ImageWorkResultStatusJobCreated))
    as [Hst|Hst].
  2:{ apply Hskip. by intros [_ ?]. }
  exists false. split; [done|]. split; [done|].
  intros H. destruct (H job iwres); [by apply elem_of_cons; left|done|].
  split; [apply belongs_iff; by exists ic|done].
Qed.

(** The condition of the poll, when the range meets every key: it holds
    exactly when no entry of the cache is pending. *)
Lemma pollCondition_spec order t :
  hasCache t → covers order t →
  pollCondition name order t
  = (Val (bool_decide (settled name t)), t, [RLock; RUnlock]).
Proof.
  intros Hc Hcov. destruct (rangePoll_spec order t Hc) as (b & Hr & Hb).
  unfold pollCondition, bind, defer, emit. rewrite Hr. simpl.
  do 3 f_equal. destruct b.
  - symmetry. apply bool_decide_eq_true. intros k v Hv.
    apply (proj1 Hb eq_refl k v); [by apply (Hcov k v)|done].
  - symmetry. apply bool_decide_eq_false. intros Hs.
    assert (false = true); [|done]. apply Hb. intros k v _ Hv. by apply (Hs k v).
Qed.

(** The poll on a condition that always answers the same. *)
Lemma waitPoll_const (condition : nat → M bool) b t : ∀ ticks,
  (∀ i, condition i t = (Val b, t, [RLock; RUnlock])) →
  waitPoll ticks condition t
  = (Val tt, t, pollTrace (if b then Nat.min 1 ticks else ticks)).
Proof.
  intros ticks Hcond. induction ticks as [|ticks IH]; [by destruct b|].
  cbn [waitPoll]. unfold bind at 1, emit at 1. unfold bind at 1.
  rewrite Hcond. destruct b; [done|]. rewrite IH. done.
Qed.

(** The poll makes at least one turn and at most as many as it has
    ticks. *)
Lemma waitPoll_turns (orders : nat → list string) ticks : ∀ t,
  ∃ r n, waitPoll ticks (λ i, pollCondition name (orders i)) t
         = (r, t, pollTrace n)
       ∧ (n ≤ ticks)%nat ∧ (0 < ticks → 0 < n)%nat.
Proof.
  induction ticks as [|ticks IH]; intros t.
  { exists (Val tt), 0. split; [done|]. lia. }
  cbn [waitPoll].
  destruct (pollCondition_silent name (orders ticks) t) as ([[|]|] & Hr & _).
  - exists (Val tt), 1. unfold bind, emit. rewrite Hr. split; [done|]. lia.
  - destruct (IH t) as (r & n & Hn & Hle & _). exists r, (S n).
    unfold bind, emit. rewrite Hr.
    fold (bind (A:=unit) (B:=unit)). rewrite Hn. split; [done|]. lia.
  - exists Panic, 1. unfold bind, emit. rewrite Hr. split; [done|]. lia.
Qed.

End PollFacts.

(** ** The removal loop, job by job *)

Section ClearFacts.

Variable c : Cluster.
Variable name : string.

(** The deletions the loop asks for: of jobs of the cache that are not fake
    and that it has removed from the table, once each. *)
Lemma rangeClear_deleted order : ∀ snap ic t r t' tr,
  rangeClear c name order snap ic t = (r, t', tr) →
  NoDup (deleted tr)
  ∧ ∀ j, j ∈ deleted tr →
      ¬ fake j ∧ t' !! j = None ∧ ∃ v, t !! j = Some v ∧ belongs name v.
Proof.
  induction order as [|job rest IH]; intros snap ic t r t' tr Hrun.
  { go_done Hrun. split; [constructor|]. by intros j ?%elem_of_nil. }
  apply rangeClear_cons in Hrun
    as [[Hrest _]|[(_ & _ & -> & _)
       |[(v & tr2 & Hv & Hb & Hrest & Htr)
        |(v & err & Hv & Hb & Hfake & _ & _ & -> & ->)]]].
  - by eapply IH.
  - split; [constructor|]. by intros j ?%elem_of_nil.
  - destruct (IH _ _ _ _ _ _ Hrest) as [IH1 IH2].
    assert (Hin : ∀ j, j ∈ deleted tr2 →
      j ≠ job ∧ ¬ fake j ∧ t' !! j = None
      ∧ ∃ w, t !! j = Some w ∧ belongs name w).
    { intros j Hj. destruct (IH2 j Hj) as (? & ? & w & Hw & ?).
      destruct (decide (job = j)) as [<-|Hne];
        [by rewrite lookup_delete_eq in Hw|].
      rewrite lookup_delete_ne in Hw by done. eauto 6. }
    destruct Htr as [[_ ->]|(Hfake & _ & ->)].
    + split; [done|]. intros j Hj. by destruct (Hin j Hj) as (_ & ?).
    + change (deleted (JobsDelete job :: tr2)) with (job :: deleted tr2).
      split.
      * constructor; [|done]. intros Hj. by destruct (Hin job Hj).
      * intros j [->|Hj]%elem_of_cons; [|by destruct (Hin j Hj) as (_ & ?)].
        split_and!; [done| |eauto].
        destruct (rangeClear_lookup _ _ _ _ _ _ _ _ _ Hrest job)
          as [->|(? & _ & _ & ?)]; [apply lookup_delete_eq|done].
  - split; [apply NoDup_singleton|].
    intros j ->%list_elem_of_singleton.
    split_and!; [done|apply lookup_delete_eq|eauto].
Qed.

(** A loop that ends without error has asked for the deletion of every job
    of the cache that it met and that is not fake. *)
Lemma rangeClear_deleted_all order : ∀ snap ic t snap' ic' t' tr,
  rangeClear c name order snap ic t = (Val (snap', ic', None), t', tr) →
  ∀ k v, k ∈ order → t !! k = Some v → belongs name v → ¬ fake k →
         k ∈ deleted tr.
Proof.
  induction order as [|job rest IH];
    intros snap ic t snap' ic' t' tr Hrun k v Hk Hv Hb Hfake.
  { by apply elem_of_nil in Hk. }
  apply rangeClear_cons in Hrun
    as [[Hrest Hnb]|[([=] & _)
       |[(w & tr2 & Hw & Hwb & Hrest & Htr)
        |(w & err & _ & _ & _ & _ & [=] & _)]]].
  - apply elem_of_cons in Hk as [->|Hk]; [by destruct (Hnb v)|].
    by eapply IH.
  - destruct (decide (k = job)) as [->|Hne].
    + destruct Htr as [[? _]|(_ & _ & ->)]; [done|].
      by apply elem_of_cons; left.
    + apply elem_of_cons in Hk as [->|Hk]; [done|].
      assert (k ∈ deleted tr2).
      { eapply IH; [done|done| |done|done]. by rewrite lookup_delete_ne. }
      destruct Htr as [[_ ->]|(_ & _ & ->)]; [done|].
      by apply elem_of_cons; right.
Qed.

(** On a table without nil image cache the loop does not panic. *)
Lemma rangeClear_safe order : ∀ snap ic t,
  hasCache t → result (rangeClear c name order snap ic t) ≠ Panic.
Proof.
  induction order as [|job rest IH]; intros snap ic t Hc; [done|].
  destruct (rangeClear c name (job :: rest) snap ic t) as [[r t'] tr] eqn:Hrun.
  unfold result; simpl.
  apply rangeClear_cons in Hrun
    as [[Hrest _]|[(_ & _ & _ & v & Hv & Hnil)
       |[(v & tr2 & Hv & Hb & Hrest & _)
        |(v & err & _ & _ & _ & _ & -> & _)]]].
  - specialize (IH snap ic t Hc). by rewrite Hrest in IH.
  - destruct (Hc _ _ Hv). congruence.
  - assert (Hc' : hasCache (delete job t)) by (by apply map_Forall_delete).
    specialize (IH (<[job:=v]> snap)
                  (iwr_Imagecache (iwres_ImageWorkRequest v)) _ Hc').
    by rewrite Hrest in IH.
  - done.
Qed.

(** An error of the loop is the error of the deletion of a job of the
    cache. *)
Lemma rangeClear_error order : ∀ snap ic t snap' ic' err t' tr,
  rangeClear c name order snap ic t = (Val (snap', ic', Some err), t', tr) →
  ∃ k v, t !! k = Some v ∧ belongs name v ∧ ¬ fake k
         ∧ jobsDelete c k = Some err ∧ t' !! k = None.
Proof.
  induction order as [|job rest IH];
    intros snap ic t snap' ic' err t' tr Hrun; [by go_done Hrun|].
  apply rangeClear_cons in Hrun
    as [[Hrest _]|[([=] & _)
       |[(v & tr2 & Hv & Hb & Hrest & _)
        |(v & e & Hv & Hb & Hfake & Hdel & [= _ _ ->] & -> & _)]]].
  - by eapply IH.
  - destruct (IH _ _ _ _ _ _ _ _ Hrest) as (k & w & Hw & Hrestw).
    destruct (decide (job = k)) as [<-|Hne];
      [by rewrite lookup_delete_eq in Hw|].
    rewrite lookup_delete_ne in Hw by done. eauto.
  - exists job, v. split_and!; [done..|apply lookup_delete_eq].
Qed.


End ClearFacts.

(** ** The outcome of a run on a table without nil pointers *)

Lemma wellFormed_hasCache t : wellFormed t → hasCache t.
Proof. intros Hwf k v Hv. by destruct (Hwf k v Hv). Qed.

Lemma wellFormed_hasNode t : wellFormed t → hasNode t.
Proof. intros Hwf k v Hv. by destruct (Hwf k v Hv). Qed.

(** Entries of [t'] that are entries of [t] for the same request keep the
    table without nil pointers. *)
Lemma wellFormed_requests t t' :
  wellFormed t →
  (∀ k v', t' !! k = Some v' →
     ∃ v, t !! k = Some v
          ∧ iwres_ImageWorkRequest v' = iwres_ImageWorkRequest v) →
  wellFormed t'.
Proof.
  intros Hwf Hreq k v' Hv'. destruct (Hreq k v' Hv') as (v & Hv & ->).
  by apply (Hwf k v).
Qed.

Lemma rangePending_requests c name order t r t1 tr1 :
  rangePending c name order t = (r, t1, tr1) →
  ∀ k v', t1 !! k = Some v' →
    ∃ v, t !! k = Some v
         ∧ iwres_ImageWorkRequest v' = iwres_ImageWorkRequest v
         ∧ (v' = v ∨ (pending name v
                      ∧ iwres_Status v' = ImageWorkResultStatusFailed)).
Proof.
  intros Hp k v' Hv'.
  destruct (rangePending_lookup _ _ _ _ _ _ _ Hp k)
    as [Heq|(w & w' & Hw & Hwp & Hf & Hw')].
  - exists v'. split; [congruence|]. split; [done|by left].
  - assert (w' = v') as -> by congruence. exists w.
    split_and!; [done|by eapply forced_request|].
    right. split; [done|by eapply forced_status].
Qed.

Lemma rangeClear_requests c name order snap ic t r t' tr :
  rangeClear c name order snap ic t = (r, t', tr) →
  ∀ k v, t' !! k = Some v → t !! k = Some v.
Proof.
  intros Hc k v Hv.
  destruct (rangeClear_lookup _ _ _ _ _ _ _ _ _ Hc k) as [Heq|(w & _ & _ & ?)];
    congruence.
Qed.

Section Outcome.

Variable c : Cluster.
Variable m : ImageManager.
Variable name : string.
Variable o : MapOrders.

(** A run on a table without nil pointers does not panic: the pass returns
    an error, which is sent; or the removal loop ends with an error, which
    is sent; or no image cache was found or its key cannot be made, which is
    sent; or the snapshot is added to the work queue and [nil] is sent. *)
Lemma updateImageCacheStatus_outcome t r t' tr :
  wellFormed t →
  updateImageCacheStatus c m name o t = (r, t', tr) →
  r = Val tt
  ∧ ∃ rp t1 tr1,
      rangePending c name (pendingOrder o) t = (Val rp, t1, tr1)
      ∧ wellFormed t1
      ∧ podQueries tr = podQueries tr1
      ∧ eventQueries tr = eventQueries tr1
      ∧ match rp with
        | Some err =>
            t' = t1 ∧ sent tr = [Some err] ∧ emitted tr = []
            ∧ deleted tr = []
        | None =>
            ∃ snap ic err tr2,
              rangeClear c name (clearOrder o) ∅ None t1
              = (Val (snap, ic, err), t', tr2)
              ∧ deleted tr = deleted tr2
              ∧ match err, ic with
                | Some err, _ => sent tr = [Some err] ∧ emitted tr = []
                | None, None =>
                    sent tr
                    = [Some "unable to obtain reference to image cache"]
                    ∧ emitted tr = []
                | None, Some ic =>
                    match MetaNamespaceKeyFunc c ic with
                    | inr err => sent tr = [Some err] ∧ emitted tr = []
                    | inl objKey =>
                        sent tr = [None]
                        ∧ emitted tr = [statusUpdate objKey snap]
                    end
                end
        end.
Proof.
  intros Hwf Hrun.
  apply updateImageCacheStatus_inv in Hrun
    as (n & [(_ & _ & _ & k & v & Hv & Hnil)|(rp & t1 & tr1 & Hp & Hrun)]).
  { destruct (wellFormed_lookup _ _ _ Hwf Hv) as [[? ?] _]. congruence. }
  pose proof (rangePending_safe c name (pendingOrder o) t Hwf) as Hsafe.
  rewrite Hp in Hsafe. unfold result in Hsafe; simpl in Hsafe.
  destruct rp as [rp|]; [|done].
  assert (Hwf1 : wellFormed t1).
  { apply (wellFormed_requests t); [done|]. intros k v' Hv'.
    destruct (rangePending_requests _ _ _ _ _ _ _ Hp k v' Hv') as (v & ? & ? & _).
    eauto. }
  pose proof (rangePending_trace _ _ _ _ _ _ _ Hp) as H1.
  assert (Hq : ∀ tail, podQueries tail = [] → eventQueries tail = [] →
    podQueries (pollTrace n ++ Lock :: tr1 ++ tail) = podQueries tr1
    ∧ eventQueries (pollTrace n ++ Lock :: tr1 ++ tail) = eventQueries tr1).
  { intros tail Hp0 He0.
    assert (Hpoll : podQueries (pollTrace n) = []
                    ∧ eventQueries (pollTrace n) = []).
    { clear. induction n as [|n [IH1 IH2]]; [done|].
      change (pollTrace (S n))
        with ([Sleep; RLock; RUnlock] ++ pollTrace n)%list.
      by rewrite podQueries_app, eventQueries_app, IH1, IH2. }
    destruct Hpoll as [Hp1 He1].
    change (Lock :: tr1 ++ tail)%list with ([Lock] ++ tr1 ++ tail)%list.
    rewrite !podQueries_app, !eventQueries_app, Hp1, He1, Hp0, He0.
    simpl. by rewrite !app_nil_r. }
  assert (Hdq : ∀ tr2, Forall (λ e, deleting e = true) tr2 →
    podQueries tr2 = [] ∧ eventQueries tr2 = []).
  { clear. induction 1 as [|e tr2 He _ [IH1 IH2]]; [done|].
    by destruct e. }
  destruct rp as [err|].
  - destruct Hrun as (-> & -> & ->). split; [done|].
    exists (Some err), t1, tr1.
    destruct (observe_after_pass n tr1 [ChanSend (Some err)] H1)
      as (Hs & He & Hd).
    destruct (Hq [Unlock; ChanSend (Some err)]) as [Hq1 Hq2]; [done..|].
    by split_and!.
  - destruct Hrun as (rc & tr2 & Hc & Hrun).
    pose proof (rangeClear_safe c name (clearOrder o) ∅ None t1
                  (wellFormed_hasCache _ Hwf1)) as Hsafe2.
    rewrite Hc in Hsafe2. unfold result in Hsafe2; simpl in Hsafe2.
    destruct rc as [[[snap ic] err]|]; [|done].
    destruct Hrun as (-> & tail & -> & Htail). split; [done|].
    exists None, t1, tr1.
    pose proof (rangeClear_trace _ _ _ _ _ _ _ _ _ Hc) as H2.
    destruct (observe_after_pass n tr1 (Lock :: tr2 ++ Unlock :: tail)%list H1)
      as (Hs & He & Hd).
    destruct (observe_after_clear tr2 tail H2) as (Hs' & He').
    destruct (Hdq tr2 H2) as [Hp2 He2].
    assert (Htl : podQueries tail = [] ∧ eventQueries tail = []
                  ∧ deleted tail = []).
    { destruct err; [by subst|]. destruct ic; [|by subst].
      by destruct (MetaNamespaceKeyFunc c _); subst. }
    destruct Htl as (Hp3 & He3 & Hd3).
    destruct (Hq (Unlock :: Lock :: tr2 ++ Unlock :: tail)%list)
      as [Hq1 Hq2].
    { change (Unlock :: Lock :: tr2 ++ Unlock :: tail)%list
        with ([Unlock; Lock] ++ tr2 ++ [Unlock] ++ tail)%list.
      by rewrite !podQueries_app, Hp2, Hp3. }
    { change (Unlock :: Lock :: tr2 ++ Unlock :: tail)%list
        with ([Unlock; Lock] ++ tr2 ++ [Unlock] ++ tail)%list.
      by rewrite !eventQueries_app, He2, He3. }
    split_and!; [done..|].
    exists snap, ic, err, tr2. split; [done|]. split.
    { rewrite Hd.
      change (Lock :: tr2 ++ Unlock :: tail)%list
        with ([Lock] ++ tr2 ++ [Unlock] ++ tail)%list.
      rewrite !deleted_app, Hd3. simpl. by rewrite app_nil_r. }
    rewrite Hs, Hs', He, He'.
    destruct err as [err|]; [by subst|]. destruct ic as [ic|]; [|by subst].
    by destruct (MetaNamespaceKeyFunc c ic); subst.
Qed.

End Outcome.

(** ** What a run does to the table and which deletions it asks for *)

Section Structure.

Variable c : Cluster.
Variable m : ImageManager.
Variable name : string.
Variable o : MapOrders.

(** Whatever its outcome, the table a run leaves is the one it found, or
    the one the forced-resolution pass left, or the one the removal loop
    left after a pass without error; the deletions it asked for are those of
    the loop. *)
Lemma updateImageCacheStatus_tables t r t' tr :
  updateImageCacheStatus c m name o t = (r, t', tr) →
  (t' = t ∧ deleted tr = [] ∧ sent tr = [])
  ∨ ∃ r1 t1 tr1,
      rangePending c name (pendingOrder o) t = (r1, t1, tr1)
      ∧ ((t' = t1 ∧ deleted tr = [] ∧ sent tr ≠ [None])
         ∨ (r1 = Val None
            ∧ ∃ rc tr2,
                rangeClear c name (clearOrder o) ∅ None t1 = (rc, t', tr2)
                ∧ deleted tr = deleted tr2)).
Proof.
  intros Hrun.
  apply updateImageCacheStatus_inv in Hrun
    as (n & [(_ & -> & -> & _)|(rp & t1 & tr1 & Hp & Hrun)]).
  { left. split; [done|]. by destruct (pollTrace_quiet n) as (? & _ & ? & _). }
  right. exists rp, t1, tr1. split; [done|].
  pose proof (rangePending_trace _ _ _ _ _ _ _ Hp) as H1.
  destruct rp as [[err|]|].
  - destruct Hrun as (_ & -> & ->). left. split; [done|].
    destruct (observe_after_pass n tr1 [ChanSend (Some err)] H1)
      as (Hs & _ & Hd).
    split; [done|]. by rewrite Hs.
  - destruct Hrun as (rc & tr2 & Hc & Hrun). right. split; [done|].
    exists rc, tr2. split; [done|].
    pose proof (rangeClear_trace _ _ _ _ _ _ _ _ _ Hc) as H2.
    destruct rc as [[[snap ic] err]|].
    + destruct Hrun as (_ & tail & -> & Htail).
      destruct (observe_after_pass n tr1 (Lock :: tr2 ++ Unlock :: tail)%list H1)
        as (_ & _ & ->).
      change (Lock :: tr2 ++ Unlock :: tail)%list
        with ([Lock] ++ tr2 ++ [Unlock] ++ tail)%list.
      rewrite !deleted_app.
      assert (deleted tail = []) as ->.
      { destruct err; [by subst|]. destruct ic; [|by subst].
        by destruct (MetaNamespaceKeyFunc c _); subst. }
      simpl. by rewrite app_nil_r.
    + destruct Hrun as (_ & ->).
      by destruct (observe_after_pass n tr1 (Lock :: tr2)%list H1)
        as (_ & _ & ->).
  - destruct Hrun as (_ & -> & ->). left. split; [done|].
    destruct (observe_after_pass n tr1 [] H1) as (Hs & _ & Hd).
    split; [done|]. by rewrite Hs.
Qed.

(** A run leaves the entries of other caches alone, adds no entry and
    alters no request. *)
Lemma updateImageCacheStatus_frame t :
  (∀ k v, t !! k = Some v → ¬ belongs name v →
          table (updateImageCacheStatus c m name o t) !! k = Some v)
  ∧ (∀ k v', table (updateImageCacheStatus c m name o t) !! k = Some v' →
       ∃ v, t !! k = Some v
            ∧ iwres_ImageWorkRequest v' = iwres_ImageWorkRequest v
            ∧ (v' = v ∨ (pending name v
                         ∧ iwres_Status v' = ImageWorkResultStatusFailed))).
Proof.
  destruct (updateImageCacheStatus c m name o t) as [[r t'] tr] eqn:Hrun.
  unfold table; simpl.
  apply updateImageCacheStatus_tables in Hrun
    as [[-> _]|(r1 & t1 & tr1 & Hp & Hrun)].
  { split; [done|]. intros k v' Hv'. exists v'. split_and!; [done|done|by left]. }
  assert (Hkeep : ∀ k v, t !! k = Some v → ¬ belongs name v → t1 !! k = Some v).
  { intros k v Hv Hnb.
    destruct (rangePending_lookup _ _ _ _ _ _ _ Hp k)
      as [->|(w & w' & Hw & [Hwb _] & _)]; [done|].
    assert (w = v) as -> by congruence. done. }
  destruct Hrun as [[-> _]|(_ & rc & tr2 & Hc & _)].
  - split; [done|]. by eapply rangePending_requests.
  - split.
    + intros k v Hv Hnb.
      destruct (rangeClear_lookup _ _ _ _ _ _ _ _ _ Hc k)
        as [->|(w & Hw & Hwb & _)]; [by apply Hkeep|].
      rewrite (Hkeep k v Hv Hnb) in Hw. by injection Hw as ->.
    + intros k v' Hv'. eapply rangePending_requests; [done|].
      by eapply rangeClear_requests.
Qed.

End Structure.

(** X7. Whatever its outcome, a run of the deadline reconciler for a cache
    leaves every entry of another cache as it was, adds no key to the
    table, and alters the request of no entry: an entry still in the table
    is as it was, or it was a pending entry of the cache and is now
    [failed]. *)
Theorem reconciler_frame (c : Cluster) (m : ImageManager) (name : string)
    (o : MapOrders) (t : gmap string ImageWorkResult) :
  (∀ k v, t !! k = Some v → ¬ belongs name v →
          table (updateImageCacheStatus c m name o t) !! k = Some v)
  ∧ dom (table (updateImageCacheStatus c m name o t)) ⊆ dom t
  ∧ (∀ k v', table (updateImageCacheStatus c m name o t) !! k = Some v' →
       ∃ v, t !! k = Some v
            ∧ iwres_ImageWorkRequest v' = iwres_ImageWorkRequest v
            ∧ (v' = v ∨ (pending name v
                         ∧ iwres_Status v' = ImageWorkResultStatusFailed))).
Proof.
  destruct (updateImageCacheStatus_frame c m name o t) as [Hother Hreq].
  split_and!; [done| |done].
  intros k [v' Hv']%elem_of_dom.
  destruct (Hreq k v' Hv') as (v & Hv & _).
  apply elem_of_dom. by exists v.
Qed.

(** X8. A table without nil pointers stays so under every operation of the
    image manager: under the dispatcher, provided the item it processes is
    not a work request without image cache; under the update function and
    the handler of the pod status observer; and under a run of the deadline
    reconciler.  On such a table a run never panics, and the handler panics
    only on a [Failed] pod that reports no container status. *)
Theorem wellFormed_invariant (c : Cluster) (m : ImageManager)
    (t : gmap string ImageWorkResult) :
  wellFormed t →
  (∀ obj shutdown,
     (∀ iwr, obj = ItemImageWorkRequest iwr →
             is_Some (iwr_Imagecache iwr)) →
     wellFormed (table (processNextWorkItem c m (obj, shutdown) t)))
  ∧ (∀ pod, wellFormed (table (handlePodStatusChange pod t)))
  ∧ (∀ old new, wellFormed (table (UpdateFunc old new t)))
  ∧ (∀ name o,
       wellFormed (table (updateImageCacheStatus c m name o t))
       ∧ result (updateImageCacheStatus c m name o t) = Val tt)
  ∧ (∀ pod, result (handlePodStatusChange pod t) = Panic →
            Phase (pod_Status pod) = PodFailed
            ∧ ContainerStatuses (pod_Status pod) = []).
Proof.
  intros Hwf.
  assert (Hobs : ∀ pod, wellFormed (table (handlePodStatusChange pod t))).
  { intros pod.
    destruct (handlePodStatusChange pod t) as [[r t'] tr] eqn:Hrun.
    apply handlePodStatusChange_inv in Hrun. unfold table; simpl.
    destruct (t !! label (pod_Labels pod) "job-name") as [v|] eqn:Hv.
    - destruct Hrun as [(_ & -> & _)|(v' & _ & -> & _ & Hobs & _)]; [done|].
      apply map_Forall_insert_2; [|done].
      rewrite (observed_request _ _ _ Hobs). by apply (Hwf _ _ Hv).
    - by destruct Hrun as (_ & -> & _). }
  split_and!.
  - intros obj [|] Hcache; [done|].
    destruct (processNextWorkItem_table c m obj t)
      as [->|(iwr & key & status & -> & -> & _ & _ & _ & Hnode & _)]; [done|].
    apply map_Forall_insert_2; [|done]. split; [by apply Hcache|done].
  - done.
  - intros old new. unfold UpdateFunc. repeat case_decide; done.
  - intros name o. split.
    + apply (wellFormed_requests t); [done|]. intros k v' Hv'.
      destruct (updateImageCacheStatus_frame c m name o t) as [_ Hreq].
      destruct (Hreq k v' Hv') as (v & ? & ? & _). eauto.
    + destruct (updateImageCacheStatus c m name o t) as [[r t'] tr] eqn:Hrun.
      by destruct (updateImageCacheStatus_outcome _ _ _ _ _ _ _ _ Hwf Hrun).
  - intros pod Hpanic.
    destruct (handlePodStatusChange pod t) as [[r t'] tr] eqn:Hrun.
    apply handlePodStatusChange_inv in Hrun. unfold result in Hpanic; simpl in *.
    destruct (t !! label (pod_Labels pod) "job-name") as [v|] eqn:Hv.
    + destruct Hrun as [(_ & _ & _ & [?|[_ Hnil]])|(v' & -> & _)];
        [done| |done].
      destruct (wellFormed_lookup _ _ _ Hwf Hv) as [_ [? ?]]. congruence.
    + destruct Hrun as (-> & _). done.
Qed.

Lemma wellFormed_invariant_witness :
  wellFormed
    (table (processNextWorkItem cluster0 m0
              (ItemImageWorkRequest (request ImageCachePurge), false) t0))
  ∧ result (updateImageCacheStatus cluster0 m0 "ic1"
              (orders ["job1"; "job2"]) t0) = Val tt.
Proof.
  assert (Hwf : wellFormed t0) by compute_done.
  destruct (wellFormed_invariant cluster0 m0 t0 Hwf) as (Hd & _ & _ & Hr & _).
  split.
  - apply Hd. intros iwr [= <-]. by eexists.
  - apply (Hr "ic1" (orders ["job1"; "job2"])).
Defined.

(** ** How long a run waits *)

Lemma sleeps_after_pass n tr1 tail :
  Forall (λ e, listing e = true) tr1 →
  sleeps (pollTrace n ++ Lock :: tr1 ++ tail) = n + sleeps tail.
Proof.
  intros H1. change (Lock :: tr1 ++ tail)%list with ([Lock] ++ tr1 ++ tail)%list.
  rewrite !sleeps_app, sleeps_pollTrace,
    (sleeps_calls tr1 (Forall_listing_calls _ H1)).
  done.
Qed.

Lemma sleeps_after_clear tr2 tail :
  Forall (λ e, deleting e = true) tr2 →
  sleeps (Unlock :: Lock :: tr2 ++ tail) = sleeps tail.
Proof.
  intros H2.
  change (Unlock :: Lock :: tr2 ++ tail)%list
    with ([Unlock; Lock] ++ tr2 ++ tail)%list.
  rewrite !sleeps_app, (sleeps_calls tr2 (Forall_deleting_calls _ H2)).
  done.
Qed.

Section Sleeps.

Variable c : Cluster.
Variable m : ImageManager.
Variable name : string.
Variable o : MapOrders.

(** The waits of a run are the turns of its poll. *)
Lemma updateImageCacheStatus_sleeps t :
  ∃ r n,
    waitPoll (S (imagePullDeadlineDuration m))
      (λ i, pollCondition name (pollOrder o i)) t = (r, t, pollTrace n)
    ∧ (0 < n ≤ S (imagePullDeadlineDuration m))%nat
    ∧ sleeps (trace (updateImageCacheStatus c m name o t)) = n.
Proof.
  destruct (waitPoll_turns name (pollOrder o)
              (S (imagePullDeadlineDuration m)) t) as (rw & n & Hw & Hle & Hpos).
  exists rw, n. split; [done|]. split; [lia|].
  destruct (updateImageCacheStatus c m name o t) as [[r t'] tr] eqn:Hrun.
  unfold trace; simpl.
  pose proof Hrun as Hinv.
  unfold updateImageCacheStatus in Hrun.
  apply bind_inv in Hrun
    as [(u & t0 & tr0 & trA & Hw' & HK & ->)|[Hw' ->]];
    rewrite Hw in Hw'; injection Hw' as -> <- <-.
  2:{ apply sleeps_pollTrace. }
  assert (Hlock : ∃ y, trA = Lock :: y).
  { apply bind_inv in HK as [(err & t1 & trB & trC & Hp & _ & ->)|[Hp ->]];
      apply updatePending_inv in Hp as (tr1 & _ & ->); by eexists. }
  destruct Hlock as [y ->].
  apply updateImageCacheStatus_inv in Hinv
    as (n0 & [(_ & _ & Htr & _)|(rp & t1 & tr1 & Hp & Hcases)]).
  { rewrite <- (app_nil_r (pollTrace n0)) in Htr.
    assert (n = n0) as -> by (eapply pollTrace_first_lock; [done|by left]).
    by apply app_inv_head in Htr. }
  pose proof (rangePending_trace _ _ _ _ _ _ _ Hp) as H1.
  assert (Hn : ∀ R, (pollTrace n ++ Lock :: y = pollTrace n0 ++ Lock :: R)%list →
                    n = n0).
  { intros R HR. eapply pollTrace_first_lock; [done|]. right. by eexists. }
  destruct rp as [[err|]|].
  - destruct Hcases as (_ & _ & Htr). rewrite Htr, (Hn _ Htr).
    rewrite sleeps_after_pass by done. unfold sleeps. simpl. lia.
  - destruct Hcases as (rc & tr2 & Hc & Hcases).
    pose proof (rangeClear_trace _ _ _ _ _ _ _ _ _ Hc) as H2.
    destruct rc as [[[snap ic] e]|].
    + destruct Hcases as (_ & tail & Htr & Htail). rewrite Htr, (Hn _ Htr).
      rewrite sleeps_after_pass, sleeps_after_clear by done.
      assert (sleeps (Unlock :: tail) = 0%nat) as ->; [|lia].
      destruct e; [by subst|]. destruct ic; [|by subst].
      by destruct (MetaNamespaceKeyFunc c _); subst.
    + destruct Hcases as (_ & Htr). rewrite Htr, (Hn _ Htr).
      rewrite sleeps_after_pass by done.
      rewrite <- (app_nil_r tr2), sleeps_after_clear by done.
      unfold sleeps. simpl. lia.
  - destruct Hcases as (_ & _ & Htr). rewrite Htr, (Hn _ Htr).
    rewrite sleeps_after_pass by done. unfold sleeps. simpl. lia.
Qed.

End Sleeps.

(** X9. The condition of the poll, on a table without nil image cache,
    reads the table under the read lock, which it releases, and leaves the
    table alone; it holds exactly when no entry that its range meets is an
    entry of the cache with status [jobcreated], so, when the range meets
    every key, exactly when no entry of the cache is pending. *)
Theorem poll_condition (name : string) (order : list string)
    (t : gmap string ImageWorkResult) :
  hasCache t →
  (∃ b, pollCondition name order t = (Val b, t, [RLock; RUnlock])
        ∧ (b = true
           ↔ ∀ k v, k ∈ order → t !! k = Some v → ¬ pending name v))
  ∧ (covers order t →
     pollCondition name order t
     = (Val (bool_decide (settled name t)), t, [RLock; RUnlock])).
Proof.
  intros Hc. split.
  - destruct (rangePoll_spec name order t Hc) as (b & Hr & Hb).
    exists b. split; [|done].
    unfold pollCondition, bind, defer, emit. by rewrite Hr.
  - intros Hcov. by apply pollCondition_spec.
Qed.

Lemma poll_condition_witness :
  pollCondition "ic1" ["job1"; "job2"] t0 = (Val false, t0, [RLock; RUnlock])
  ∧ pollCondition "ic1" ["job2"] tDone = (Val true, tDone, [RLock; RUnlock]).
Proof.
  assert (H0 : hasCache t0) by compute_done.
  assert (H1 : hasCache tDone) by compute_done.
  assert (C0 : covers ["job1"; "job2"] t0) by compute_done.
  assert (C1 : covers ["job2"] tDone) by compute_done.
  split.
  - destruct (poll_condition "ic1" ["job1"; "job2"] t0 H0) as [_ H].
    exact (H C0).
  - destruct (poll_condition "ic1" ["job2"] tDone H1) as [_ H].
    exact (H C1).
Defined.



(** ** The jobs a run deletes *)

(** X11. Whatever its outcome, a run asks for no deletion twice and only
    for the deletion of jobs that had an entry of its cache, that do not
    carry the fake-job prefix, and whose entry it has removed from the
    table.  A run that sends [nil], its removal loop having met every key,
    has asked for the deletion of every such job. *)
Theorem run_deletions (c : Cluster) (m : ImageManager) (name : string)
    (o : MapOrders) (t : gmap string ImageWorkResult) :
  NoDup (deleted (trace (updateImageCacheStatus c m name o t)))
  ∧ (∀ j, j ∈ deleted (trace (updateImageCacheStatus c m name o t)) →
       ¬ fake j
       ∧ table (updateImageCacheStatus c m name o t) !! j = None
       ∧ ∃ v, t !! j = Some v ∧ belongs name v)
  ∧ (sent (trace (updateImageCacheStatus c m name o t)) = [None] →
     covers (clearOrder o) t →
     ∀ k v, t !! k = Some v → belongs name v → ¬ fake k →
            k ∈ deleted (trace (updateImageCacheStatus c m name o t))).
Proof.
  destruct (updateImageCacheStatus c m name o t) as [[r t'] tr] eqn:Hrun.
  unfold table, trace; simpl.
  pose proof Hrun as Hrun0.
  apply updateImageCacheStatus_tables in Hrun
    as [(_ & Hd & Hs)
       |(r1 & t1 & tr1 & Hp & [(_ & Hd & Hs)|(-> & rc & tr2 & Hc & Hd)])].
  - rewrite Hd, Hs. split_and!; [constructor|by intros j ?%elem_of_nil|done].
  - rewrite Hd. split_and!; [constructor|by intros j ?%elem_of_nil|done].
  - rewrite Hd.
    destruct (rangeClear_deleted _ _ _ _ _ _ _ _ _ Hc) as [Hnd Hin].
    split_and!; [done| |].
    + intros j Hj. destruct (Hin j Hj) as (Hfake & Hgone & v1 & Hv1 & Hb1).
      split_and!; [done|done|].
      destruct (rangePending_requests _ _ _ _ _ _ _ Hp j v1 Hv1)
        as (v & Hv & Hreq & _).
      exists v. split; [done|]. by eapply belongs_request.
    + intros Hsent Hcov k v Hv Hb Hfake.
      destruct (updateImageCacheStatus_success _ _ _ _ _ _ _ _ Hrun0 Hsent)
        as (t1' & tr1' & snap & ic & tr2' & objKey & Hp' & Hc' & _).
      rewrite Hp in Hp'. injection Hp' as <- <-.
      rewrite Hc in Hc'. injection Hc' as -> <-.
      assert (∃ v1, t1 !! k = Some v1 ∧ belongs name v1) as (v1 & Hv1 & Hb1).
      { destruct (rangePending_lookup _ _ _ _ _ _ _ Hp k)
          as [Heq|(w & w' & Hw & _ & Hf & Hw')].
        - exists v. split; [congruence|done].
        - exists w'. split; [done|].
          assert (w = v) as -> by congruence.
          eapply belongs_request; [by eapply forced_request|done]. }
      eapply rangeClear_deleted_all; [done| |done|done|done].
      by apply (Hcov k v).
Qed.

Lemma run_deletions_witness :
  deleted (trace (updateImageCacheStatus cluster0 m0 "ic1"
                    (orders ["job1"; "job2"]) t0)) = ["job1"; "job2"]
  ∧ "job1" ∈ deleted (trace (updateImageCacheStatus cluster0 m0 "ic1"
                                (orders ["job1"; "job2"]) t0)).
Proof.
  split; [reflexivity|].
  destruct (run_deletions cluster0 m0 "ic1" (orders ["job1"; "job2"]) t0)
    as (_ & _ & Hall).
  apply (Hall eq_refl) with (entry ImageCacheCreate ImageWorkResultStatusJobCreated);
    [compute_done|reflexivity|reflexivity|compute_done].
Defined.

(** ** Why a run sends an error, and when it sends none *)

(** X12. On a table without nil pointers, an error that a run sends has one
    of four causes.  A pending entry of the cache made forced resolution
    stop: its pods could not be listed, or it had no pod, or more than one,
    or, its work not being a purge, the events of its pod could not be
    listed; that entry is still in the table as it was.  Or the deletion of
    a job of the cache failed; its entry is gone from the table.  Or the
    removal loop met no entry of the cache.  Or the key of the image cache
    could not be made. *)
Theorem run_error_cause (c : Cluster) (m : ImageManager) (name : string)
    (o : MapOrders) (t : gmap string ImageWorkResult) (err : string) :
  wellFormed t →
  sent (trace (updateImageCacheStatus c m name o t)) = [Some err] →
  (∃ k v, t !! k = Some v ∧ pending name v ∧ stops c k v err
          ∧ table (updateImageCacheStatus c m name o t) !! k = Some v)
  ∨ (∃ k v, t !! k = Some v ∧ belongs name v ∧ ¬ fake k
            ∧ jobsDelete c k = Some err
            ∧ table (updateImageCacheStatus c m name o t) !! k = None)
  ∨ (err = "unable to obtain reference to image cache"
     ∧ ∀ k v, k ∈ clearOrder o → t !! k = Some v → ¬ belongs name v)
  ∨ (∃ ic, ic_Name ic = name ∧ MetaNamespaceKeyFunc c ic = inr err).
Proof.
  intros Hwf Hsent.
  destruct (updateImageCacheStatus c m name o t) as [[r t'] tr] eqn:Hrun.
  unfold table, trace in *; simpl in *.
  destruct (updateImageCacheStatus_outcome _ _ _ _ _ _ _ _ Hwf Hrun)
    as (_ & rp & t1 & tr1 & Hp & Hwf1 & _ & _ & Hout).
  assert (Hback : ∀ k v1, t1 !! k = Some v1 → belongs name v1 →
                          ∃ v, t !! k = Some v ∧ belongs name v).
  { intros k v1 Hv1 Hb1.
    destruct (rangePending_requests _ _ _ _ _ _ _ Hp k v1 Hv1)
      as (v & Hv & Hreq & _).
    exists v. split; [done|]. by eapply belongs_request. }
  assert (Hforth : ∀ k v, t !! k = Some v → belongs name v →
                          ∃ v1, t1 !! k = Some v1 ∧ belongs name v1).
  { intros k v Hv Hb.
    destruct (rangePending_lookup _ _ _ _ _ _ _ Hp k)
      as [Heq|(w & w' & Hw & _ & Hf & Hw')].
    - exists v. split; [congruence|done].
    - exists w'. split; [done|]. assert (w = v) as -> by congruence.
      eapply belongs_request; [by eapply forced_request|done]. }
  destruct rp as [e|].
  - destruct Hout as (-> & Hs & _). rewrite Hs in Hsent. injection Hsent as ->.
    left. destruct (rangePending_error _ _ _ _ _ _ _ Hp)
      as (k & v & _ & Hv & Hpend & Hstop).
    exists k, v. split_and!; [|done..].
    destruct (rangePending_lookup _ _ _ _ _ _ _ Hp k)
      as [Heq|(w & w' & _ & _ & Hf & Hw')]; [congruence|].
    assert (w' = v) as -> by congruence.
    by apply (forced_not_pending _ name) in Hf.
  - destruct Hout as (snap & ic & e & tr2 & Hc & _ & Hout).
    destruct e as [e|].
    + destruct Hout as [Hs _]. rewrite Hs in Hsent. injection Hsent as ->.
      right; left.
      destruct (rangeClear_error _ _ _ _ _ _ _ _ _ _ _ Hc)
        as (k & v1 & Hv1 & Hb1 & Hfake & Hdel & Hgone).
      destruct (Hback _ _ Hv1 Hb1) as (v & Hv & Hb).
      exists k, v. by split_and!.
    + destruct ic as [ic|].
      * destruct (MetaNamespaceKeyFunc c ic) as [objKey|e] eqn:Hkey;
          destruct Hout as [Hs _]; rewrite Hs in Hsent; [done|].
        injection Hsent as ->. right; right; right.
        apply rangeClear_imageCache in Hc as [([=] & _)|(i & [= ->] & Hi)].
        by exists i.
      * destruct Hout as [Hs _]. rewrite Hs in Hsent. injection Hsent as <-.
        right; right; left. split; [done|].
        intros k v Hk Hv Hb. destruct (Hforth _ _ Hv Hb) as (v1 & Hv1 & Hb1).
        pose proof (rangeClear_cleared _ _ _ _ _ _ _ _ _ _ Hc k) as Hcl.
        apply rangeClear_imageCache in Hc
          as [(_ & _ & -> & _)|(i & [=] & _)].
        by destruct (Hcl v1 Hk Hv1).
Qed.

Lemma run_error_cause_witness :
  ∃ k v, tPending !! k = Some v ∧ pending "ic1" v
         ∧ stops clusterNoPods k v "no pods matched job job2".
Proof.
  assert (Hwf : wellFormed tPending) by compute_done.
  destruct (run_error_cause clusterNoPods m0 "ic1" (orders ["job1"; "job2"])
              tPending "no pods matched job job2" Hwf eq_refl)
    as [(k & v & Hv & Hp & Hstop & _)
       |[(k & v & _ & _ & _ & Hdel & _)
        |[[Herr _]|(ic & _ & Hkey)]]].
  - by exists k, v.
  - discriminate Hdel.
  - discriminate Herr.
  - discriminate Hkey.
Defined.

(** X13. Under the exclusive lock, forced resolution asks the cluster only
    about pending entries of its cache: it lists the pods of such a job at
    most once, and it lists events only of the one pod of such a job whose
    work is not a purge.  It asks nothing about resolved entries, entries of
    other caches, or the pod of a purge. *)
Theorem forced_resolution_queries (c : Cluster) (name : string)
    (order : list string) (t : gmap string ImageWorkResult) :
  NoDup (podQueries (trace (updatePendingImageWorkResults c name order t)))
  ∧ (∀ j,
       j ∈ podQueries (trace (updatePendingImageWorkResults c name order t)) →
       ∃ v, t !! j = Some v ∧ pending name v)
  ∧ (∀ p,
       p ∈ eventQueries (trace (updatePendingImageWorkResults c name order t)) →
       ∃ j v pod0,
         t !! j = Some v ∧ pending name v
         ∧ iwr_WorkType (iwres_ImageWorkRequest v) ≠ ImageCachePurge
         ∧ podsList c j = inl [pod0] ∧ p = pod_Name pod0).
Proof.
  destruct (updatePendingImageWorkResults c name order t)
    as [[r t'] tr] eqn:Hrun.
  apply updatePending_inv in Hrun as (tr1 & Hp & ->). unfold trace; simpl.
  change (Lock :: tr1 ++ [Unlock])%list with ([Lock] ++ tr1 ++ [Unlock])%list.
  rewrite !podQueries_app, !eventQueries_app. simpl. rewrite !app_nil_r.
  by eapply rangePending_queries.
Qed.



(** ** A second run for the same cache *)

(** A run on a table without entry of its cache. *)
Lemma updateImageCacheStatus_foreign c m name o t :
  foreign name t →
  result (updateImageCacheStatus c m name o t) = Val tt
  ∧ table (updateImageCacheStatus c m name o t) = t
  ∧ sent (trace (updateImageCacheStatus c m name o t))
    = [Some "unable to obtain reference to image cache"]
  ∧ emitted (trace (updateImageCacheStatus c m name o t)) = []
  ∧ deleted (trace (updateImageCacheStatus c m name o t)) = []
  ∧ podQueries (trace (updateImageCacheStatus c m name o t)) = [].
Proof.
  intros Hf.
  destruct (updateImageCacheStatus c m name o t) as [[r t'] tr] eqn:Hrun.
  unfold result, table, trace; simpl.
  apply updateImageCacheStatus_inv in Hrun
    as (n & [(_ & _ & _ & k & v & Hv & Hnil)|(rp & t1 & tr1 & Hp & Hrun)]).
  { destruct (Hf k v Hv) as [[ic Hic] _]. congruence. }
  rewrite (rangePending_foreign c name _ t Hf) in Hp.
  injection Hp as <- <- <-.
  destruct Hrun as (rc & tr2 & Hc & Hrun).
  rewrite (rangeClear_foreign c name _ _ _ t Hf) in Hc.
  injection Hc as <- <- <-.
  destruct Hrun as (-> & tail & -> & ->).
  destruct (pollTrace_quiet n) as (Hs & He & Hd & _).
  assert (Hq : podQueries (pollTrace n) = []).
  { clear. induction n as [|n IH]; [done|].
    change (pollTrace (S n)) with ([Sleep; RLock; RUnlock] ++ pollTrace n)%list.
    by rewrite podQueries_app, IH. }
  rewrite sent_app, emitted_app, deleted_app, podQueries_app, Hs, He, Hd, Hq.
  by split_and!.
Qed.

(** X15. After a run that has sent [nil], on a table without nil pointers
    whose keys its removal loop all met, the table holds no entry of the
    cache; so a second run for the same cache, before the dispatcher has
    recorded anything new for it, asks the cluster nothing, adds nothing to
    the work queue, leaves the table as it is and sends the error [unable to
    obtain reference to image cache]. *)
Theorem second_run (c : Cluster) (m : ImageManager) (name : string)
    (o o' : MapOrders) (t : gmap string ImageWorkResult) :
  wellFormed t →
  covers (clearOrder o) t →
  sent (trace (updateImageCacheStatus c m name o t)) = [None] →
  foreign name (table (updateImageCacheStatus c m name o t))
  ∧ table (updateImageCacheStatus c m name o'
             (table (updateImageCacheStatus c m name o t)))
    = table (updateImageCacheStatus c m name o t)
  ∧ sent (trace (updateImageCacheStatus c m name o'
                   (table (updateImageCacheStatus c m name o t))))
    = [Some "unable to obtain reference to image cache"]
  ∧ emitted (trace (updateImageCacheStatus c m name o'
                      (table (updateImageCacheStatus c m name o t)))) = []
  ∧ deleted (trace (updateImageCacheStatus c m name o'
                      (table (updateImageCacheStatus c m name o t)))) = []
  ∧ podQueries (trace (updateImageCacheStatus c m name o'
                         (table (updateImageCacheStatus c m name o t)))) = [].
Proof.
  intros Hwf Hcov Hsent.
  assert (Hf : foreign name (table (updateImageCacheStatus c m name o t))).
  { destruct (updateImageCacheStatus c m name o t) as [[r t'] tr] eqn:Hrun.
    unfold table, trace in *; simpl in *.
    destruct (updateImageCacheStatus_success _ _ _ _ _ _ _ _ Hrun Hsent)
      as (t1 & tr1 & snap & ic & tr2 & objKey & Hp & Hc & _).
    intros k v' Hv'.
    pose proof (rangeClear_requests _ _ _ _ _ _ _ _ _ Hc k v' Hv') as Hv1.
    destruct (rangePending_requests _ _ _ _ _ _ _ Hp k v' Hv1)
      as (v & Hv & Hreq & _).
    split.
    - rewrite Hreq. by destruct (Hwf k v Hv).
    - apply (rangeClear_cleared _ _ _ _ _ _ _ _ _ _ Hc k v'); [|done].
      by apply (Hcov k v). }
  split; [done|].
  by destruct (updateImageCacheStatus_foreign c m name o' _ Hf)
    as (_ & ? & ? & ? & ? & ?).
Qed.

Lemma second_run_witness :
  sent (trace (updateImageCacheStatus cluster0 m0 "ic1"
                 (orders ["job2"; "job1"])
                 (table (updateImageCacheStatus cluster0 m0 "ic1"
                           (orders ["job1"; "job2"]) t0))))
  = [Some "unable to obtain reference to image cache"].
Proof.
  assert (Hwf : wellFormed t0) by compute_done.
  assert (Hcov : covers ["job1"; "job2"] t0) by compute_done.
  by destruct (second_run cluster0 m0 "ic1" (orders ["job1"; "job2"])
                 (orders ["job2"; "job1"]) t0 Hwf Hcov eq_refl)
    as (_ & _ & ? & _).
Defined.

(** ** The lock at the end of an operation *)

Lemma held_app tr1 : ∀ h tr2, held h (tr1 ++ tr2) = held (held h tr1) tr2.
Proof.
  induction tr1 as [|e tr1 IH]; intros h tr2; [done|].
  destruct e; simpl; apply IH.
Qed.

Lemma held_pollTrace n : held false (pollTrace n) = false.
Proof.
  induction n as [|n IH]; [done|].
  change (pollTrace (S n)) with ([Sleep; RLock; RUnlock] ++ pollTrace n)%list.
  by rewrite held_app.
Qed.

Lemma held_calls tr h :
  Forall (λ e, listing e || deleting e = true) tr → held h tr = h.
Proof.
  induction 1 as [|e tr He _ IH]; [done|].
  destruct e; try discriminate; exact IH.
Qed.

(** X16. No operation of the image manager ends with the lock of the work
    status table held, whether it returns or panics: not the handler of the
    pod status observer, not the dispatcher, not the condition of the poll
    nor forced resolution, whose unlock is deferred, and, on a table without
    nil image cache, not a run of the deadline reconciler. *)
Theorem lock_released (c : Cluster) (m : ImageManager) :
  (∀ pod t, held false (trace (handlePodStatusChange pod t)) = false)
  ∧ (∀ got t, held false (trace (processNextWorkItem c m got t)) = false)
  ∧ (∀ name order t,
       held false (trace (pollCondition name order t)) = false)
  ∧ (∀ name order t,
       held false (trace (updatePendingImageWorkResults c name order t))
       = false)
  ∧ (∀ name o t,
       hasCache t →
       held false (trace (updateImageCacheStatus c m name o t)) = false).
Proof.
  split_and!.
  - intros pod t.
    destruct (handlePodStatusChange pod t) as [[r t'] tr] eqn:Hrun.
    apply handlePodStatusChange_inv in Hrun. unfold trace; simpl.
    destruct (t !! label (pod_Labels pod) "job-name").
    + by destruct Hrun as [(_ & _ & -> & _)|(v' & _ & _ & -> & _)].
    + by destruct Hrun as (_ & _ & ->).
  - intros [obj [|]] t; [done|].
    destruct obj as [iwr|description]; [|done].
    dispatch_cases c iwr; done.
  - intros name order t.
    by destruct (pollCondition_silent name order t) as (r & -> & _).
  - intros name order t.
    destruct (updatePendingImageWorkResults c name order t)
      as [[r t'] tr] eqn:Hrun.
    apply updatePending_inv in Hrun as (tr1 & Hp & ->). unfold trace; simpl.
    rewrite held_app.
    by rewrite (held_calls tr1 true
                  (Forall_listing_calls _ (rangePending_trace _ _ _ _ _ _ _ Hp))).
  - intros name o t Hcache.
    destruct (updateImageCacheStatus c m name o t) as [[r t'] tr] eqn:Hrun.
    unfold trace; simpl.
    apply updateImageCacheStatus_inv in Hrun
      as (n & [(_ & _ & -> & _)|(rp & t1 & tr1 & Hp & Hrun)]).
    { apply held_pollTrace. }
    pose proof (Forall_listing_calls _ (rangePending_trace _ _ _ _ _ _ _ Hp))
      as H1.
    assert (Hpass : ∀ tail,
      held false (pollTrace n ++ Lock :: tr1 ++ Unlock :: tail)
      = held false tail).
    { intros tail. rewrite held_app, held_pollTrace. simpl.
      by rewrite held_app, (held_calls tr1 true H1). }
    destruct rp as [[err|]|].
    + destruct Hrun as (_ & _ & ->). by rewrite Hpass.
    + destruct Hrun as (rc & tr2 & Hc & Hrun).
      pose proof (Forall_deleting_calls _ (rangeClear_trace _ _ _ _ _ _ _ _ _ Hc))
        as H2.
      assert (Hc1 : hasCache t1).
      { intros k v' Hv'.
        destruct (rangePending_requests _ _ _ _ _ _ _ Hp k v' Hv')
          as (v & Hv & -> & _).
        by apply (Hcache k v). }
      pose proof (rangeClear_safe c name (clearOrder o) ∅ None t1 Hc1) as Hsafe.
      rewrite Hc in Hsafe. unfold result in Hsafe; simpl in Hsafe.
      destruct rc as [[[snap ic] e]|]; [|done].
      destruct Hrun as (_ & tail & -> & Htail). rewrite Hpass. simpl.
      rewrite held_app, (held_calls tr2 true H2). simpl.
      destruct e; [by subst|]. destruct ic; [|by subst].
      by destruct (MetaNamespaceKeyFunc c _); subst.
    + destruct Hrun as (_ & _ & ->).
      change [Unlock] with (Unlock :: @nil Effect). by rewrite Hpass.
Qed.

Lemma lock_released_witness :
  held false (trace (updateImageCacheStatus cluster0 m0 "ic1"
                       (orders ["job1"; "job2"]) t0)) = false.
Proof.
  destruct (lock_released cluster0 m0) as (_ & _ & _ & _ & Hrun).
  apply Hrun. compute_done.
Defined.

(** ** From the dispatch of an item to the snapshot of its cache *)

(** The dispatcher on a work request for which a job is created. *)
Lemma processNextWorkItem_created c m iwr n newjob job t :
  iwr_Node iwr = Some n →
  (iwr_WorkType iwr = ImageCachePurge
   ∧ newImageDeleteJob c (iwr_Imagecache iwr) (iwr_Image iwr) (iwr_Node iwr)
       (iwr_ContainerRuntimeVersion iwr) (dockerClientImage m) = inl newjob)
  ∨ (iwr_WorkType iwr ≠ ImageCachePurge
     ∧ checkIfImageNeedsToBePulled c (imagePullPolicy m) (iwr_Image iwr)
         (iwr_Node iwr) = inl true
     ∧ newImagePullJob c (iwr_Imagecache iwr) (iwr_Image iwr) (iwr_Node iwr)
         (imagePullPolicy m) = inl newjob) →
  jobsCreate c newjob = inl job →
  processNextWorkItem c m (ItemImageWorkRequest iwr, false) t
  = (Val true,
     <[job_Name job := {| iwres_ImageWorkRequest := iwr;
                          iwres_Status := ImageWorkResultStatusJobCreated;
                          iwres_Reason := "";
                          iwres_Message := "" |}]> t,
     [JobsCreate newjob; Lock; Unlock;
      ImageworkqueueForget (ItemImageWorkRequest iwr);
      ImageworkqueueDone (ItemImageWorkRequest iwr)]).
Proof.
  intros Hn Hjob Hcreate.
  unfold processNextWorkItem, processItem, record, deleteImage, pullImage,
    hostname.
  destruct Hjob as [[Hwt Hnew]|(Hwt & Hcheck & Hnew)].
  - rewrite Hnew. rewrite Hn.
    case_decide as Hflush; [by destruct Hflush|].
    case_decide; [|done].
    unfold defer, bind, emit, ret, getTable, setTable. by rewrite Hcreate.
  - rewrite Hcheck, Hnew. rewrite Hn.
    case_decide as Hflush; [by destruct Hflush|].
    case_decide; [done|].
    unfold defer, bind, emit, ret, getTable, setTable. by rewrite Hcreate.
Qed.

(** The dispatcher on a work request whose image is on the node. *)
Lemma processNextWorkItem_present c m iwr n t :
  iwr_Node iwr = Some n →
  iwr_WorkType iwr ≠ ImageCachePurge →
  checkIfImageNeedsToBePulled c (imagePullPolicy m) (iwr_Image iwr)
    (iwr_Node iwr) = inl false →
  processNextWorkItem c m (ItemImageWorkRequest iwr, false) t
  = (Val true,
     <[GenerateName c fakeJobPrefix :=
         {| iwres_ImageWorkRequest := iwr;
            iwres_Status := ImageWorkResultStatusAlreadyPulled;
            iwres_Reason := "";
            iwres_Message := "" |}]> t,
     [Lock; Unlock;
      ImageworkqueueForget (ItemImageWorkRequest iwr);
      ImageworkqueueDone (ItemImageWorkRequest iwr)]).
Proof.
  intros Hn Hwt Hcheck.
  unfold processNextWorkItem, processItem, record, hostname.
  rewrite Hcheck. rewrite Hn.
  case_decide as Hflush; [by destruct Hflush|].
  case_decide; [done|]. reflexivity.
Qed.

Section Singleton.

Variable c : Cluster.
Variable name : string.

Lemma rangeClear_empty order snap ic :
  rangeClear c name order snap ic ∅ = (Val (snap, ic, None), ∅, []).
Proof.
  induction order as [|job rest IH]; [done|].
  cbn [rangeClear]. by rewrite bind_getTable, lookup_empty.
Qed.

(** The removal loop on a table whose one entry is of the cache. *)
Lemma rangeClear_singleton job v order : ∀ snap ic,
  job ∈ order → belongs name v →
  (¬ fake job → jobsDelete c job = None) →
  rangeClear c name order snap ic {[job := v]}
  = (Val (<[job:=v]> snap, iwr_Imagecache (iwres_ImageWorkRequest v), None),
     ∅, if decide (fake job) then [] else [JobsDelete job]).
Proof.
  intros snap ic Hin Hb Hdel.
  induction order as [|k rest IH]; [by apply elem_of_nil in Hin|].
  cbn [rangeClear]. rewrite bind_getTable.
  destruct (decide (k = job)) as [->|Hne].
  - rewrite lookup_singleton_eq.
    apply belongs_iff in Hb as (i & Hi & Hname).
    unfold imagecacheName. rewrite Hi, bind_ret.
    rewrite decide_True by done.
    rewrite bind_getTable, bind_setTable, delete_singleton_eq.
    destruct (decide (fake job)) as [Hfake|Hfake].
    + unfold fake in Hfake. rewrite Hfake. cbn [negb]. apply rangeClear_empty.
    + rewrite (Hdel Hfake). unfold fake in Hfake.
      apply not_true_is_false in Hfake. rewrite Hfake. cbn [negb].
      unfold bind, emit. by rewrite rangeClear_empty.
  - rewrite lookup_singleton_ne by done. apply IH.
    by apply elem_of_cons in Hin as [->|?].
Qed.

End Singleton.

Section SettledRun.

Variable c : Cluster.
Variable m : ImageManager.
Variable name : string.
Variable o : MapOrders.

(** A run on a table whose one entry is of the cache and resolved. *)
Lemma updateImageCacheStatus_singleton job v ic objKey :
  iwr_Imagecache (iwres_ImageWorkRequest v) = Some ic →
  ic_Name ic = name →
  is_Some (iwr_Node (iwres_ImageWorkRequest v)) →
  iwres_Status v ≠ ImageWorkResultStatusJobCreated →
  (∀ i, job ∈ pollOrder o i) →
  job ∈ clearOrder o →
  (¬ fake job → jobsDelete c job = None) →
  MetaNamespaceKeyFunc c ic = inl objKey →
  result (updateImageCacheStatus c m name o {[job := v]}) = Val tt
  ∧ table (updateImageCacheStatus c m name o {[job := v]}) = ∅
  ∧ sent (trace (updateImageCacheStatus c m name o {[job := v]})) = [None]
  ∧ emitted (trace (updateImageCacheStatus c m name o {[job := v]}))
    = [statusUpdate objKey {[job := v]}]
  ∧ deleted (trace (updateImageCacheStatus c m name o {[job := v]}))
    = (if decide (fake job) then [] else [job])
  ∧ podQueries (trace (updateImageCacheStatus c m name o {[job := v]})) = []
  ∧ sleeps (trace (updateImageCacheStatus c m name o {[job := v]})) = 1%nat.
Proof.
  intros Hic Hname Hnode Hst Hpoll Hclear Hdel Hkey.
  assert (Hb : belongs name v) by (apply belongs_iff; eauto).
  assert (Hwf : wellFormed {[job := v]}).
  { apply map_Forall_singleton. by rewrite Hic. }
  assert (Hset : settled name {[job := v]}).
  { apply map_Forall_singleton. by intros [_ ?]. }
  assert (Hsleep : sleeps (trace (updateImageCacheStatus c m name o {[job := v]}))
                   = 1%nat).
  { destruct (updateImageCacheStatus_sleeps c m name o {[job := v]})
      as (r & n & Hw & _ & ->).
    rewrite (waitPoll_const _ true {[job := v]}) in Hw.
    - injection Hw as _ Hw. apply (f_equal sleeps) in Hw.
      by rewrite !sleeps_pollTrace in Hw.
    - intros i. rewrite (pollCondition_spec name _ _
        (wellFormed_hasCache _ Hwf)).
      + by rewrite bool_decide_eq_true_2.
      + apply map_Forall_singleton. apply Hpoll. }
  destruct (updateImageCacheStatus c m name o {[job := v]})
    as [[r t'] tr] eqn:Hrun.
  unfold result, table, trace in *; simpl in *.
  destruct (updateImageCacheStatus_outcome _ _ _ _ _ _ _ _ Hwf Hrun)
    as (-> & rp & t1 & tr1 & Hp & _ & Hq & _ & Hout).
  rewrite (rangePending_settled c name _ _ (wellFormed_hasCache _ Hwf) Hset)
    in Hp.
  injection Hp as <- <- <-.
  destruct Hout as (snap & i & e & tr2 & Hc & Hd & Hout).
  rewrite (rangeClear_singleton c name job v _ ∅ None Hclear Hb Hdel) in Hc.
  injection Hc as <- <- <- <- <-.
  rewrite Hic, Hkey in Hout. destruct Hout as [Hs He].
  rewrite insert_empty in He.
  split_and!; try done.
  rewrite Hd. by case_decide.
Qed.

End SettledRun.

(** X17. From the empty table of a new image manager: the dispatcher
    processes a work request, a purge or a pull that is needed, for which
    the API server creates a job; the pod of that job is then reported
    [Succeeded] by an update from a phase that was neither [Succeeded] nor
    [Failed]; then a run for the cache of the request, whose ranges meet the
    job, is made.  The table holds the one entry of the job, first with
    status [jobcreated], then with status [succeeded]; the poll of the run
    makes one turn; the run asks for no pod, deletes the job, adds to the
    work queue the snapshot that holds exactly that entry, with status
    [succeeded] and the request as dispatched, sends [nil] and leaves the
    table empty. *)
Theorem job_life_cycle (c : Cluster) (namespace : string) (deadline : nat)
    (docker policy : string) (iwr : ImageWorkRequest) (n : Node)
    (ic : ImageCache) (newjob job : Job) (old new : Pod) (o : MapOrders)
    (objKey : string) :
  let m := (NewImageManager namespace deadline docker policy).1 in
  let t1 :=
    table (processNextWorkItem c m (ItemImageWorkRequest iwr, false)
             (NewImageManager namespace deadline docker policy).2) in
  let t2 := table (UpdateFunc old new t1) in
  let resolved :=
    {| iwres_ImageWorkRequest := iwr;
       iwres_Status := ImageWorkResultStatusSucceeded;
       iwres_Reason := "";
       iwres_Message := "" |} in
  iwr_Node iwr = Some n →
  iwr_Imagecache iwr = Some ic →
  (iwr_WorkType iwr = ImageCachePurge
   ∧ newImageDeleteJob c (iwr_Imagecache iwr) (iwr_Image iwr) (iwr_Node iwr)
       (iwr_ContainerRuntimeVersion iwr) docker = inl newjob)
  ∨ (iwr_WorkType iwr ≠ ImageCachePurge
     ∧ checkIfImageNeedsToBePulled c policy (iwr_Image iwr) (iwr_Node iwr)
       = inl true
     ∧ newImagePullJob c (iwr_Imagecache iwr) (iwr_Image iwr) (iwr_Node iwr)
         policy = inl newjob) →
  jobsCreate c newjob = inl job →
  ¬ fake (job_Name job) →
  label (pod_Labels new) "job-name" = job_Name job →
  pod_ResourceVersion new ≠ pod_ResourceVersion old →
  Phase (pod_Status new) = PodSucceeded →
  Phase (pod_Status old) ≠ PodSucceeded →
  Phase (pod_Status old) ≠ PodFailed →
  (∀ i, job_Name job ∈ pollOrder o i) →
  job_Name job ∈ clearOrder o →
  jobsDelete c (job_Name job) = None →
  MetaNamespaceKeyFunc c ic = inl objKey →
  t1 = {[job_Name job := {| iwres_ImageWorkRequest := iwr;
                            iwres_Status := ImageWorkResultStatusJobCreated;
                            iwres_Reason := "";
                            iwres_Message := "" |}]}
  ∧ t2 = {[job_Name job := resolved]}
  ∧ result (updateImageCacheStatus c m (ic_Name ic) o t2) = Val tt
  ∧ table (updateImageCacheStatus c m (ic_Name ic) o t2) = ∅
  ∧ sent (trace (updateImageCacheStatus c m (ic_Name ic) o t2)) = [None]
  ∧ emitted (trace (updateImageCacheStatus c m (ic_Name ic) o t2))
    = [statusUpdate objKey {[job_Name job := resolved]}]
  ∧ deleted (trace (updateImageCacheStatus c m (ic_Name ic) o t2))
    = [job_Name job]
  ∧ podQueries (trace (updateImageCacheStatus c m (ic_Name ic) o t2)) = []
  ∧ sleeps (trace (updateImageCacheStatus c m (ic_Name ic) o t2)) = 1%nat.
Proof.
  intros m t1 t2 resolved Hn Hic Hjob Hcreate Hfake Hlabel Hrv Hnew Hold1 Hold2
    Hpoll Hclear Hdel Hkey.
  assert (Ht1 : t1 = {[job_Name job :=
                         {| iwres_ImageWorkRequest := iwr;
                            iwres_Status := ImageWorkResultStatusJobCreated;
                            iwres_Reason := "";
                            iwres_Message := "" |}]}).
  { subst t1.
    rewrite (processNextWorkItem_created c m iwr n newjob job _ Hn Hjob Hcreate).
    unfold table, NewImageManager; simpl. apply insert_empty. }
  assert (Ht2 : t2 = {[job_Name job := resolved]}).
  { subst t2. rewrite Ht1. unfold UpdateFunc.
    rewrite decide_False by done.
    rewrite decide_True by (split; [by left|done]).
    destruct (handlePodStatusChange new _) as [[r t'] tr] eqn:Hrun.
    apply handlePodStatusChange_inv in Hrun. unfold table; simpl.
    rewrite Hlabel, lookup_singleton_eq in Hrun.
    destruct Hrun as [(_ & _ & _ & [[Hf _]|[_ Hnil]])
                     |(v' & _ & -> & _ & Hobs & _)].
    - unfold PodSucceeded, PodFailed in *. congruence.
    - simpl in Hnil. congruence.
    - rewrite insert_singleton_eq. f_equal.
      destruct Hobs as [_|? ? Hf _ _|? Hf _ _|Hs _]; [done| | |done];
        unfold PodSucceeded, PodFailed in *; congruence. }
  split; [done|]. split; [done|]. rewrite Ht2.
  assert (Hnode : is_Some (iwr_Node (iwres_ImageWorkRequest resolved)))
    by (simpl; rewrite Hn; by eexists).
  assert (Hst : iwres_Status resolved ≠ ImageWorkResultStatusJobCreated)
    by discriminate.
  destruct (updateImageCacheStatus_singleton c m (ic_Name ic) o (job_Name job)
              resolved ic objKey Hic eq_refl Hnode Hst Hpoll Hclear
              (λ _, Hdel) Hkey)
    as (H1 & H2 & H3 & H4 & H5 & H6 & H7).
  split_and!; try done. by rewrite H5, decide_False.
Qed.

Lemma job_life_cycle_witness :
  emitted
    (trace (updateImageCacheStatus cluster0
              (NewImageManager "kube-fledged" 2 "docker" "IfNotPresent").1
              "ic1" (orders ["pull-1"])
              (table (UpdateFunc podPulling podPulled
                        (table (processNextWorkItem cluster0
                                  (NewImageManager "kube-fledged" 2 "docker"
                                     "IfNotPresent").1
                                  (ItemImageWorkRequest
                                     (request ImageCacheCreate), false)
                                  (NewImageManager "kube-fledged" 2 "docker"
                                     "IfNotPresent").2))))))
  = [statusUpdate "kube-fledged/ic1"
       {["pull-1" := entry ImageCacheCreate ImageWorkResultStatusSucceeded]}].
Proof.
  assert (Hfake : ¬ fake "pull-1") by compute_done.
  assert (Hin : ∀ i : nat, "pull-1" ∈ pollOrder (orders ["pull-1"]) i)
    by (intros i; apply list_elem_of_here).
  assert (Hrv : pod_ResourceVersion podPulled ≠ pod_ResourceVersion podPulling)
    by discriminate.
  assert (Hs : Phase (pod_Status podPulling) ≠ PodSucceeded) by discriminate.
  assert (Hf : Phase (pod_Status podPulling) ≠ PodFailed) by discriminate.
  assert (Hwt : iwr_WorkType (request ImageCacheCreate) ≠ ImageCachePurge)
    by discriminate.
  destruct (job_life_cycle cluster0 "kube-fledged" 2 "docker" "IfNotPresent"
              (request ImageCacheCreate) node1 cache1
              {| job_Name := "pull-1" |} {| job_Name := "pull-1" |}
              podPulling podPulled (orders ["pull-1"]) "kube-fledged/ic1"
              eq_refl eq_refl
              (or_intror (conj Hwt (conj eq_refl eq_refl)))
              eq_refl Hfake eq_refl Hrv eq_refl Hs Hf Hin
              (list_elem_of_here _ _) eq_refl eq_refl)
    as (_ & _ & _ & _ & _ & Hemit & _).
  exact Hemit.
Defined.

(** X18. From the empty table of a new image manager: the dispatcher
    processes a pull request whose image is on the node already, the name
    generator giving a name that carries the fake-job prefix; then a run for
    the cache of the request, whose ranges meet that name, is made.  No job
    is sent to the API server; the table holds the one entry, with status
    [alreadypulled], under the generated name; the poll of the run makes
    one turn; the run asks for no pod and for no deletion, adds to the work
    queue the snapshot that holds exactly that entry, sends [nil] and leaves
    the table empty. *)
Theorem present_life_cycle (c : Cluster) (namespace : string) (deadline : nat)
    (docker policy : string) (iwr : ImageWorkRequest) (n : Node)
    (ic : ImageCache) (o : MapOrders) (objKey : string) :
  let m := (NewImageManager namespace deadline docker policy).1 in
  let dispatch :=
    processNextWorkItem c m (ItemImageWorkRequest iwr, false)
      (NewImageManager namespace deadline docker policy).2 in
  let present :=
    {| iwres_ImageWorkRequest := iwr;
       iwres_Status := ImageWorkResultStatusAlreadyPulled;
       iwres_Reason := "";
       iwres_Message := "" |} in
  iwr_Node iwr = Some n →
  iwr_Imagecache iwr = Some ic →
  iwr_WorkType iwr ≠ ImageCachePurge →
  checkIfImageNeedsToBePulled c policy (iwr_Image iwr) (iwr_Node iwr)
  = inl false →
  fake (GenerateName c fakeJobPrefix) →
  (∀ i, GenerateName c fakeJobPrefix ∈ pollOrder o i) →
  GenerateName c fakeJobPrefix ∈ clearOrder o →
  MetaNamespaceKeyFunc c ic = inl objKey →
  created (trace dispatch) = []
  ∧ table dispatch = {[GenerateName c fakeJobPrefix := present]}
  ∧ result (updateImageCacheStatus c m (ic_Name ic) o (table dispatch))
    = Val tt
  ∧ table (updateImageCacheStatus c m (ic_Name ic) o (table dispatch)) = ∅
  ∧ sent (trace (updateImageCacheStatus c m (ic_Name ic) o (table dispatch)))
    = [None]
  ∧ emitted (trace (updateImageCacheStatus c m (ic_Name ic) o (table dispatch)))
    = [statusUpdate objKey {[GenerateName c fakeJobPrefix := present]}]
  ∧ deleted (trace (updateImageCacheStatus c m (ic_Name ic) o (table dispatch)))
    = []
  ∧ podQueries
      (trace (updateImageCacheStatus c m (ic_Name ic) o (table dispatch))) = []
  ∧ sleeps (trace (updateImageCacheStatus c m (ic_Name ic) o (table dispatch)))
    = 1%nat.
Proof.
  intros m dispatch present Hn Hic Hwt Hcheck Hfake Hpoll Hclear Hkey.
  assert (Hd : created (trace dispatch) = []
               ∧ table dispatch = {[GenerateName c fakeJobPrefix := present]}).
  { subst dispatch.
    rewrite (processNextWorkItem_present c m iwr n _ Hn Hwt Hcheck).
    unfold table, trace, NewImageManager; simpl. split; [done|].
    apply insert_empty. }
  destruct Hd as [Hcr Ht]. rewrite Ht.
  assert (Hnode : is_Some (iwr_Node (iwres_ImageWorkRequest present)))
    by (simpl; rewrite Hn; by eexists).
  assert (Hst : iwres_Status present ≠ ImageWorkResultStatusJobCreated)
    by discriminate.
  destruct (updateImageCacheStatus_singleton c m (ic_Name ic) o
              (GenerateName c fakeJobPrefix) present ic objKey Hic eq_refl
              Hnode Hst Hpoll Hclear (λ Hnf, False_ind _ (Hnf Hfake)) Hkey)
    as (H1 & H2 & H3 & H4 & H5 & H6 & H7).
  split_and!; try done. by rewrite H5, decide_True.
Qed.

Lemma present_life_cycle_witness :
  emitted
    (trace (updateImageCacheStatus clusterPresent
              (NewImageManager "kube-fledged" 2 "docker" "IfNotPresent").1
              "ic1" (orders ["fakejob-x7k2q"])
              (table (processNextWorkItem clusterPresent
                        (NewImageManager "kube-fledged" 2 "docker"
                           "IfNotPresent").1
                        (ItemImageWorkRequest (request ImageCacheCreate), false)
                        (NewImageManager "kube-fledged" 2 "docker"
                           "IfNotPresent").2))))
  = [statusUpdate "kube-fledged/ic1"
       {["fakejob-x7k2q" :=
           entry ImageCacheCreate ImageWorkResultStatusAlreadyPulled]}].
Proof.
  assert (Hfake : fake (GenerateName clusterPresent fakeJobPrefix))
    by compute_done.
  assert (Hin : ∀ i : nat,
            GenerateName clusterPresent fakeJobPrefix
            ∈ pollOrder (orders ["fakejob-x7k2q"]) i)
    by (intros i; apply list_elem_of_here).
  assert (Hwt : iwr_WorkType (request ImageCacheCreate) ≠ ImageCachePurge)
    by discriminate.
  destruct (present_life_cycle clusterPresent "kube-fledged" 2 "docker"
              "IfNotPresent" (request ImageCacheCreate) node1 cache1
              (orders ["fakejob-x7k2q"]) "kube-fledged/ic1"
              eq_refl eq_refl Hwt eq_refl Hfake Hin
              (list_elem_of_here _ _) eq_refl)
    as (_ & _ & _ & _ & _ & Hemit & _).
  exact Hemit.
Defined.

(** ** Jobs created and runs started by the dispatcher *)

(** X19. For one item the dispatcher sends at most one job to the API
    server.  When the server returns the job and the dispatcher returns,
    the entry of the request is in the table under the name of that job,
    with status [jobcreated], and no error is reported.  When the server
    refuses the job, the table is as it was, and a dispatcher that returns
    has reported one error. *)
Theorem created_jobs_are_recorded (c : Cluster) (m : ImageManager)
    (obj : QueueItem) (t : gmap string ImageWorkResult) :
  (created (trace (processNextWorkItem c m (obj, false) t)) = []
   ∨ ∃ newjob, created (trace (processNextWorkItem c m (obj, false) t))
               = [newjob])
  ∧ (∀ newjob job,
       created (trace (processNextWorkItem c m (obj, false) t)) = [newjob] →
       jobsCreate c newjob = inl job →
       result (processNextWorkItem c m (obj, false) t) = Val true →
       ∃ iwr,
         obj = ItemImageWorkRequest iwr
         ∧ table (processNextWorkItem c m (obj, false) t)
           = <[job_Name job :=
                 {| iwres_ImageWorkRequest := iwr;
                    iwres_Status := ImageWorkResultStatusJobCreated;
                    iwres_Reason := "";
                    iwres_Message := "" |}]> t
         ∧ handled (trace (processNextWorkItem c m (obj, false) t)) = [])
  ∧ (∀ newjob err,
       created (trace (processNextWorkItem c m (obj, false) t)) = [newjob] →
       jobsCreate c newjob = inr err →
       table (processNextWorkItem c m (obj, false) t) = t
       ∧ (result (processNextWorkItem c m (obj, false) t) = Val true →
          ∃ msg, handled (trace (processNextWorkItem c m (obj, false) t))
                 = [msg])).
Proof.
  destruct obj as [iwr|description].
  2:{ split_and!; [by left|done|done]. }
  destruct (processNextWorkItem c m (ItemImageWorkRequest iwr, false) t)
    as [[r t'] tr] eqn:Hrun.
  unfold result, table, trace; simpl.
  revert Hrun. dispatch_cases c iwr; intros Hrun.
  all: go_eval Hrun; injection Hrun as <- <- <-.
  all: split_and!; [simpl; eauto|simpl|simpl].
  all: intros; simplify_eq; try congruence.
  all: repeat match goal with
       | H1 : ?a = inl ?x, H2 : ?a = inl ?y |- _ =>
           assert (y = x) as -> by congruence; clear H2
       end.
  all: try done; try (eexists; by split_and!);
    try (split; [done|]; intros; by eexists).
Qed.

(** X20. The dispatcher starts a run of the deadline reconciler exactly for
    an item with an empty image and a nil node that has an image cache, and
    for the name of that cache, whatever the work type of the item.  For an
    item with an empty image and a nil node nothing is sent to the API
    server and nothing is recorded; the item is forgotten and no error is
    reported, and when it has no image cache the dispatcher panics after
    having forgotten it. *)
Theorem flush_starts_run (c : Cluster) (m : ImageManager) (obj : QueueItem)
    (t : gmap string ImageWorkResult) :
  (∀ name,
     started (trace (processNextWorkItem c m (obj, false) t)) = [name]
     ↔ ∃ iwr ic, obj = ItemImageWorkRequest iwr
                 ∧ iwr_Image iwr = "" ∧ iwr_Node iwr = None
                 ∧ iwr_Imagecache iwr = Some ic ∧ ic_Name ic = name)
  ∧ (started (trace (processNextWorkItem c m (obj, false) t)) = []
     ∨ ∃ name, started (trace (processNextWorkItem c m (obj, false) t))
               = [name])
  ∧ (∀ iwr, obj = ItemImageWorkRequest iwr →
       iwr_Image iwr = "" → iwr_Node iwr = None →
       table (processNextWorkItem c m (obj, false) t) = t
       ∧ created (trace (processNextWorkItem c m (obj, false) t)) = []
       ∧ forgotten (trace (processNextWorkItem c m (obj, false) t)) = [obj]
       ∧ handled (trace (processNextWorkItem c m (obj, false) t)) = []
       ∧ (iwr_Imagecache iwr = None →
          result (processNextWorkItem c m (obj, false) t) = Panic)).
Proof.
  destruct obj as [iwr|description].
  2:{ split_and!; [|by left|done]. intros name. split; [done|].
      by intros (? & ? & [=] & _). }
  destruct (processNextWorkItem c m (ItemImageWorkRequest iwr, false) t)
    as [[r t'] tr] eqn:Hrun.
  unfold result, table, trace; simpl.
  revert Hrun. dispatch_cases c iwr; intros Hrun.
  all: go_eval Hrun; injection Hrun as <- <- <-.
  all: split_and!; [intros name; split|simpl; eauto|].
  all: simpl; intros;
    repeat match goal with H : ∃ _, _ |- _ => destruct H end;
    destruct_and?; simplify_eq; try congruence.
  all: try (eexists _, _; by split_and!).
  all: try (by split_and!).
  all: try (exfalso; eauto; fail).
  all: split_and!; try done; intros; congruence.
Qed.

(** ** The order of the ranges *)

Lemma forced_functional c job v v1 v2 :
  forced c job v v1 → forced c job v v2 → v1 = v2.
Proof.
  intros [pod1 Hp1 Hw1|pod1 items1 Hp1 Hw1 He1]
         [pod2 Hp2 Hw2|pod2 items2 Hp2 Hw2 He2];
    rewrite Hp1 in Hp2; injection Hp2 as <-; try done.
  rewrite He1 in He2. by injection He2 as <-.
Qed.

(** X21. Go leaves the order of a range over the table unspecified.  Two
    runs for the same cache from the same table, under any two orders that
    meet every key, that both send [nil], leave the same table and add the
    same snapshot to the work queue.  (The key of the item is that of the
    image cache of the entry the removal loop met last.) *)
Theorem order_independence (c : Cluster) (m : ImageManager) (name : string)
    (o o' : MapOrders) (t : gmap string ImageWorkResult) :
  covers (pendingOrder o) t → covers (clearOrder o) t →
  covers (pendingOrder o') t → covers (clearOrder o') t →
  sent (trace (updateImageCacheStatus c m name o t)) = [None] →
  sent (trace (updateImageCacheStatus c m name o' t)) = [None] →
  table (updateImageCacheStatus c m name o t)
  = table (updateImageCacheStatus c m name o' t)
  ∧ ∃ objKey objKey' snap,
      emitted (trace (updateImageCacheStatus c m name o t))
      = [statusUpdate objKey snap]
      ∧ emitted (trace (updateImageCacheStatus c m name o' t))
        = [statusUpdate objKey' snap].
Proof.
  intros Hcp Hcc Hcp' Hcc' Hsent Hsent'.
  destruct (updateImageCacheStatus c m name o t) as [[r t2] tr] eqn:Hrun.
  destruct (updateImageCacheStatus c m name o' t) as [[r' t2'] tr'] eqn:Hrun'.
  unfold table, trace in *; simpl in *.
  destruct (updateImageCacheStatus_success _ _ _ _ _ _ _ _ Hrun Hsent)
    as (t1 & tr1 & snap & ic & tr2 & objKey & Hp & Hc & _ & Hemit & _).
  destruct (updateImageCacheStatus_success _ _ _ _ _ _ _ _ Hrun' Hsent')
    as (t1' & tr1' & snap' & ic' & tr2' & objKey' & Hp' & Hc' & _ & Hemit' & _).
  destruct (rangePending_success _ _ _ _ _ _ Hp Hcp) as [Hps Hp0].
  destruct (rangePending_success _ _ _ _ _ _ Hp' Hcp') as [Hps' Hp0'].
  assert (Ht1 : t1 = t1').
  { apply map_eq. intros k. destruct (t !! k) as [v|] eqn:Hv.
    - destruct (Hps k v Hv) as [Hf Hk]. destruct (Hps' k v Hv) as [Hf' Hk'].
      destruct (decide (pending name v)) as [Hpend|Hpend].
      + destruct (Hf Hpend) as (w & Hw & ->).
        destruct (Hf' Hpend) as (w' & Hw' & ->).
        f_equal. by eapply forced_functional.
      + by rewrite Hk, Hk'.
    - by rewrite Hp0, Hp0'. }
  subst t1'.
  assert (Hcov : ∀ order, covers order t → covers order t1).
  { intros order Hcover k w Hw.
    destruct (t !! k) as [v|] eqn:Hv; [by apply (Hcover k v)|].
    by rewrite (Hp0 k Hv) in Hw. }
  destruct (rangeClear_success _ _ _ _ _ _ _ _ Hc (Hcov _ Hcc)) as [Hcs Hc0].
  destruct (rangeClear_success _ _ _ _ _ _ _ _ Hc' (Hcov _ Hcc')) as [Hcs' Hc0'].
  assert (Heq : t2 = t2' ∧ snap = snap').
  { split; apply map_eq; intros k; destruct (t1 !! k) as [v|] eqn:Hv.
    - destruct (Hcs k v Hv) as [Hb Hnb]. destruct (Hcs' k v Hv) as [Hb' Hnb'].
      destruct (decide (belongs name v)) as [Hbel|Hbel].
      + destruct (Hb Hbel) as [-> _]. by destruct (Hb' Hbel) as [-> _].
      + destruct (Hnb Hbel) as [-> _]. by destruct (Hnb' Hbel) as [-> _].
    - destruct (Hc0 k Hv) as [-> _]. by destruct (Hc0' k Hv) as [-> _].
    - destruct (Hcs k v Hv) as [Hb Hnb]. destruct (Hcs' k v Hv) as [Hb' Hnb'].
      destruct (decide (belongs name v)) as [Hbel|Hbel].
      + destruct (Hb Hbel) as [_ ->]. by destruct (Hb' Hbel) as [_ ->].
      + destruct (Hnb Hbel) as [_ ->]. by destruct (Hnb' Hbel) as [_ ->].
    - destruct (Hc0 k Hv) as [_ ->]. by destruct (Hc0' k Hv) as [_ ->]. }
  destruct Heq as [-> ->]. split; [done|].
  by exists objKey, objKey', snap'.
Qed.

Lemma order_independence_witness :
  table (updateImageCacheStatus clusterPending m0 "ic1"
           (orders ["job1"; "job2"]) t0)
  = table (updateImageCacheStatus clusterPending m0 "ic1"
             (orders ["job2"; "job1"; "job2"]) t0).
Proof.
  assert (H1 : covers ["job1"; "job2"] t0) by compute_done.
  assert (H2 : covers ["job2"; "job1"; "job2"] t0) by compute_done.
  by destruct (order_independence clusterPending m0 "ic1"
                 (orders ["job1"; "job2"]) (orders ["job2"; "job1"; "job2"])
                 t0 H1 H1 H2 H2 eq_refl eq_refl) as [? _].
Defined.

(** ** The handler between its two critical sections *)

Lemma bind_emit {B} e (f : unit → M B) t :
  bind (emit e) f t
  = (result (f tt t), table (f tt t), e :: trace (f tt t)).
Proof. unfold bind, emit. by destruct (f tt t) as [[? ?] ?]. Qed.

(** The handler is its read followed by its write. *)
Lemma handlePodStatusChange_split pod t :
  handlePodStatusChange pod t = bind (readEntry pod) (writeEntry pod) t.
Proof.
  unfold handlePodStatusChange, readEntry.
  rewrite bind_assoc, !bind_emit, bind_assoc, !bind_getTable.
  rewrite bind_assoc, !bind_emit, bind_ret.
  reflexivity.
Qed.

(** The read leaves the table alone and returns the entry of the job. *)
Lemma readEntry_eq pod t :
  readEntry pod t
  = (Val (t !! label (pod_Labels pod) "job-name"), t, [RLock; RUnlock]).
Proof. reflexivity. Qed.

(** The write for a [Succeeded] pod, on any table: it does not look at the
    table before it writes. *)
Lemma writeEntry_succeeded pod v n t :
  Phase (pod_Status pod) = PodSucceeded →
  iwr_Node (iwres_ImageWorkRequest v) = Some n →
  writeEntry pod (Some v) t
  = (Val tt,
     <[label (pod_Labels pod) "job-name" :=
         setStatus ImageWorkResultStatusSucceeded v]> t,
     [Lock; Unlock]).
Proof.
  intros Hs Hn. unfold writeEntry, hostname.
  destruct (decide (Phase (pod_Status pod) = PodSucceeded)); [|done].
  destruct (decide (Phase (pod_Status pod) = PodFailed)) as [Hf|_];
    [unfold PodSucceeded, PodFailed in *; congruence|].
  cbn [setStatus iwres_ImageWorkRequest]. rewrite Hn. reflexivity.
Qed.

(** X22. The handler of the pod status observer reads the entry of the job
    and writes the resolved copy in two critical sections, and between them
    it holds no lock; its write does not look at the table again.  So when
    a run for the cache of the entry completes between the read and the
    write of a handler for a [Succeeded] pod, the entry that the run has put
    in its snapshot and removed from the table is put back by the write,
    with status [succeeded]: after a run that sent [nil] the table again
    holds an entry of the cache. *)
Theorem stale_write (c : Cluster) (m : ImageManager) (name : string)
    (o : MapOrders) (pod : Pod) (t : gmap string ImageWorkResult)
    (v : ImageWorkResult) :
  t !! label (pod_Labels pod) "job-name" = Some v →
  belongs name v →
  is_Some (iwr_Node (iwres_ImageWorkRequest v)) →
  Phase (pod_Status pod) = PodSucceeded →
  covers (clearOrder o) t →
  sent (trace (updateImageCacheStatus c m name o t)) = [None] →
  handlePodStatusChange pod t = bind (readEntry pod) (writeEntry pod) t
  ∧ readEntry pod t = (Val (Some v), t, [RLock; RUnlock])
  ∧ table (updateImageCacheStatus c m name o t)
      !! label (pod_Labels pod) "job-name" = None
  ∧ (∃ objKey snap,
       emitted (trace (updateImageCacheStatus c m name o t))
       = [statusUpdate objKey snap]
       ∧ is_Some (snap !! label (pod_Labels pod) "job-name"))
  ∧ writeEntry pod (Some v) (table (updateImageCacheStatus c m name o t))
    = (Val tt,
       <[label (pod_Labels pod) "job-name" :=
           setStatus ImageWorkResultStatusSucceeded v]>
         (table (updateImageCacheStatus c m name o t)),
       [Lock; Unlock])
  ∧ ¬ foreign name
        (table (writeEntry pod (Some v)
                  (table (updateImageCacheStatus c m name o t)))).
Proof.
  intros Hv Hb [n Hn] Hs Hcov Hsent.
  split; [apply handlePodStatusChange_split|].
  split; [by rewrite readEntry_eq, Hv|].
  assert (Hrun : table (updateImageCacheStatus c m name o t)
                   !! label (pod_Labels pod) "job-name" = None
                 ∧ ∃ objKey snap,
                     emitted (trace (updateImageCacheStatus c m name o t))
                     = [statusUpdate objKey snap]
                     ∧ is_Some (snap !! label (pod_Labels pod) "job-name")).
  { destruct (updateImageCacheStatus c m name o t) as [[r t'] tr] eqn:Hrun.
    unfold table, trace in *; simpl in *.
    destruct (updateImageCacheStatus_success _ _ _ _ _ _ _ _ Hrun Hsent)
      as (t1 & tr1 & snap & ic & tr2 & objKey & Hp & Hc & _ & Hemit & _).
    pose proof (rangePending_lookup _ _ _ _ _ _ _ Hp) as Hlook.
    assert (∃ v1, t1 !! label (pod_Labels pod) "job-name" = Some v1
                  ∧ belongs name v1) as (v1 & Hv1 & Hb1).
    { destruct (Hlook (label (pod_Labels pod) "job-name"))
        as [Heq|(w & w' & Hw & _ & Hf & Hw')].
      - exists v. split; [congruence|done].
      - exists w'. split; [done|]. assert (w = v) as -> by congruence.
        eapply belongs_request; [by eapply forced_request|done]. }
    assert (Hcov1 : covers (clearOrder o) t1).
    { intros k w Hw. destruct (Hlook k) as [Heq|(u & u' & Hu & _)].
      - rewrite Heq in Hw. by apply (Hcov k w).
      - by apply (Hcov k u). }
    destruct (rangeClear_success _ _ _ _ _ _ _ _ Hc Hcov1) as [Hclear _].
    destruct (Hclear _ _ Hv1) as [Hgone _]. destruct (Hgone Hb1) as [? Hsnap].
    split; [done|]. exists objKey, snap. split; [done|]. by eexists. }
  destruct Hrun as [Hgone Hsnap]. split; [done|]. split; [done|].
  rewrite (writeEntry_succeeded pod v n _ Hs Hn). split; [done|].
  unfold table; simpl. intros Hf.
  destruct (Hf (label (pod_Labels pod) "job-name")
              (setStatus ImageWorkResultStatusSucceeded v)) as [_ Hnb].
  { apply lookup_insert_eq. }
  apply Hnb. by eapply belongs_request.
Qed.

Lemma stale_write_witness :
  table (updateImageCacheStatus cluster0 m0 "ic1" (orders ["job1"; "job2"]) t0)
    !! "job1" = None
  ∧ table (writeEntry (podOf "job1" PodSucceeded []) (t0 !! "job1")
             (table (updateImageCacheStatus cluster0 m0 "ic1"
                       (orders ["job1"; "job2"]) t0))) !! "job1"
    = Some (entry ImageCacheCreate ImageWorkResultStatusSucceeded).
Proof.
  assert (Hcov : covers ["job1"; "job2"] t0) by compute_done.
  assert (Hnode : is_Some (iwr_Node (iwres_ImageWorkRequest
            (entry ImageCacheCreate ImageWorkResultStatusJobCreated))))
    by (by eexists).
  destruct (stale_write cluster0 m0 "ic1" (orders ["job1"; "job2"])
              (podOf "job1" PodSucceeded []) t0
              (entry ImageCacheCreate ImageWorkResultStatusJobCreated)
              eq_refl eq_refl Hnode eq_refl Hcov eq_refl)
    as (_ & _ & Hgone & _ & Hwrite & _).
  split; [exact Hgone|].
  change (t0 !! "job1")
    with (Some (entry ImageCacheCreate ImageWorkResultStatusJobCreated)).
  rewrite Hwrite. apply lookup_insert_eq.
Defined.
